(** * Tetrix rule engine: a shallow embedding of [src/tetrisLogic.ts]

    The engine of the falling-block game is embedded function by function.
    Numbers are [Z], loop counters are [nat], arrays are lists read with
    stdpp's lookup.  An operation of the engine is a function from the engine
    state to an [outcome]: the state it leaves, or the fault that stops it. *)

From Stdlib Require Import ZArith Lia Bool String.
From stdpp Require Import base tactics numbers option list.

Local Open Scope Z_scope.

(** ** Data model *)

(** [TetrominoType = 'I' | 'J' | 'L' | 'O' | 'S' | 'T' | 'Z'].  The tags live
    in a module because [O], [S], [I] and [Z] are names of the prelude. *)
Module Tetromino.
Inductive TetrominoType : Set := I | J | L | O | S | T | Z.
End Tetromino.
Abbreviation TetrominoType := Tetromino.TetrominoType.

#[global] Instance TetrominoType_eq_dec : EqDecision TetrominoType.
Proof. solve_decision. Defined.

(** [Cell = TetrominoType | null]. *)
Abbreviation Cell := (option TetrominoType).

(** [interface ActivePiece]. *)
Module Piece.
Record ActivePiece : Type := Build {
  type : TetrominoType;
  matrix : list (list Z);
  x : Z;
  y : Z
}.
End Piece.
Abbreviation ActivePiece := Piece.ActivePiece.

(** [interface GameSnapshot]. *)
Module Snapshot.
Record GameSnapshot : Type := Build {
  board : list (list Cell);
  currentPiece : option ActivePiece;
  queue : list TetrominoType;
  score : Z;
  linesCleared : Z;
  isGameOver : bool
}.
End Snapshot.
Abbreviation GameSnapshot := Snapshot.GameSnapshot.

(** [interface RenderState extends GameSnapshot].  [nextPiece] is
    [this.queue[0]], which JavaScript leaves [undefined] on an empty queue:
    the field is an option here. *)
Module Render.
Record RenderState : Type := Build {
  board : list (list Cell);
  currentPiece : option ActivePiece;
  queue : list TetrominoType;
  score : Z;
  linesCleared : Z;
  isGameOver : bool;
  width : Z;
  height : Z;
  level : Z;
  nextPiece : option TetrominoType;
  ghostY : option Z;
  dropInterval : Z
}.
End Render.
Abbreviation RenderState := Render.RenderState.

Definition TETROMINO_ORDER : list TetrominoType :=
  [Tetromino.I; Tetromino.J; Tetromino.L; Tetromino.O;
   Tetromino.S; Tetromino.T; Tetromino.Z].

Definition TETROMINO_SHAPES (t : TetrominoType) : list (list Z) :=
  match t with
  | Tetromino.I => [[1; 1; 1; 1]]
  | Tetromino.J => [[1; 0; 0]; [1; 1; 1]]
  | Tetromino.L => [[0; 0; 1]; [1; 1; 1]]
  | Tetromino.O => [[1; 1]; [1; 1]]
  | Tetromino.S => [[0; 1; 1]; [1; 1; 0]]
  | Tetromino.T => [[0; 1; 0]; [1; 1; 1]]
  | Tetromino.Z => [[1; 1; 0]; [0; 1; 1]]
  end.

Definition SCORE_TABLE : list Z := [0; 40; 100; 300; 1200].

Definition BOARD_WIDTH : Z := 10.
Definition BOARD_HEIGHT : Z := 20.

(** [InputAction]; in a module, as [hardDrop] is also a method. *)
Module Action.
Inductive InputAction : Set :=
  moveLeft | moveRight | rotate | softDrop | hardDrop.
End Action.
Abbreviation InputAction := Action.InputAction.

(** ** Outcomes

    A call either returns, or stops with a fault:
    - [TypeError]: a property is read from [undefined] ([this.board[r]] on a
      board with no row [r], [matrix[0]] on an empty matrix);
    - [SparseWrite]: an assignment past the end of a board row, which in
      JavaScript grows the row and leaves holes; boards with holes are not
      modelled;
    - [FuelOut]: a [while] loop did not finish within the number of rounds
      the model grants it.  The lemmas below show when the grant suffices. *)
Inductive fault : Set := TypeError | SparseWrite | FuelOut.

Inductive outcome (A : Type) : Type :=
  | Ok (a : A)
  | Fail (f : fault).
Arguments Ok {A} a.
Arguments Fail {A} f.

(** Sequencing: a fault in [m] is a fault of the whole. *)
Definition andThen {A B : Type} (m : outcome A) (k : A → outcome B)
  : outcome B :=
  match m with
  | Ok a => k a
  | Fail f => Fail f
  end.

Notation "'let*' x := m 'in' k" := (andThen m (fun x => k))
  (at level 10, x pattern, m at level 100, k at level 200).

(** ** The ambient random source

    [Math.random()] is global state.  It is modelled by an oracle: a stream
    of naturals and the number of draws made so far.  The draw
    [Math.floor(Math.random() * n)] ranges over [0 .. n-1]; it is the next
    natural of the stream reduced modulo [n]. *)
Record Random : Type := {
  stream : nat → nat;
  drawn : nat
}.

Definition randomBelow (n : nat) (g : Random) : nat * Random :=
  ((stream g (drawn g) `mod` n)%nat,
   {| stream := stream g; drawn := S (drawn g) |}).

(** ** Engine state: the private fields of [class TetrisEngine], and the
    random source the engine draws from. *)
Record TetrisEngine : Type := {
  board : list (list Cell);
  queue : list TetrominoType;
  currentPiece : option ActivePiece;
  running : bool;
  score : Z;
  linesCleared : Z;
  gameOver : bool;
  random : Random
}.

(** ** Collision test *)

(** JavaScript truthiness of a matrix entry: a number is falsy iff it is 0. *)
Definition truthy (v : Z) : bool := negb (v =? 0).

(** Truthiness of a value that is an object or a tag, or else [null]. *)
Definition present {A : Type} (o : option A) : bool :=
  match o with
  | Some _ => true
  | None => false
  end.

(** Truthiness of a value read from a board row: [undefined] (no such
    column) and [null] are falsy, a tag is truthy. *)
Definition occupied (c : option Cell) : bool :=
  match c with
  | Some (Some _) => true
  | _ => false
  end.

(** [this.board[boardY][boardX]] for [boardY >= 0] and [boardX >= 0]: a
    missing row makes the second subscript throw, a missing column reads
    [undefined]. *)
Definition readCell (b : list (list Cell)) (boardY boardX : Z)
  : outcome (option Cell) :=
  match b !! Z.to_nat boardY with
  | None => Fail TypeError
  | Some brow => Ok (brow !! Z.to_nat boardX)
  end.

(** The inner [for] of [canPlace], from column [col] on, over the rest
    [cells] of [matrix[row]].  [Ok false] is [return false]; [Ok true] is the
    loop running to its end. *)
Fixpoint canPlace_cols (b : list (list Cell)) (x y : Z) (row col : nat)
    (cells : list Z) : outcome bool :=
  match cells with
  | [] => Ok true
  | v :: rest =>
    if negb (truthy v) then canPlace_cols b x y row (S col) rest
    else
      let boardX := x + Z.of_nat col in
      let boardY := y + Z.of_nat row in
      if (boardX <? 0) || (boardX >=? BOARD_WIDTH) then Ok false
      else if boardY >=? BOARD_HEIGHT then Ok false
      else if boardY <? 0 then canPlace_cols b x y row (S col) rest
      else
        let* c := readCell b boardY boardX in
        if occupied c then Ok false
        else canPlace_cols b x y row (S col) rest
  end.

(** The outer [for] of [canPlace], from row [row] on. *)
Fixpoint canPlace_rows (b : list (list Cell)) (x y : Z) (row : nat)
    (rows : list (list Z)) : outcome bool :=
  match rows with
  | [] => Ok true
  | cells :: rest =>
    let* ok := canPlace_cols b x y row 0 cells in
    if ok then canPlace_rows b x y (S row) rest else Ok false
  end.

Definition canPlace (b : list (list Cell)) (matrix : list (list Z)) (x y : Z)
  : outcome bool :=
  canPlace_rows b x y 0 matrix.

(** ** Field updates of the engine record *)

Definition with_board (b : list (list Cell)) (e : TetrisEngine) :=
  {| board := b; queue := queue e; currentPiece := currentPiece e;
     running := running e; score := score e;
     linesCleared := linesCleared e; gameOver := gameOver e;
     random := random e |}.

Definition with_queue (q : list TetrominoType) (e : TetrisEngine) :=
  {| board := board e; queue := q; currentPiece := currentPiece e;
     running := running e; score := score e;
     linesCleared := linesCleared e; gameOver := gameOver e;
     random := random e |}.

Definition with_currentPiece (p : option ActivePiece) (e : TetrisEngine) :=
  {| board := board e; queue := queue e; currentPiece := p;
     running := running e; score := score e;
     linesCleared := linesCleared e; gameOver := gameOver e;
     random := random e |}.

Definition with_running (r : bool) (e : TetrisEngine) :=
  {| board := board e; queue := queue e; currentPiece := currentPiece e;
     running := r; score := score e;
     linesCleared := linesCleared e; gameOver := gameOver e;
     random := random e |}.

Definition with_score (n : Z) (e : TetrisEngine) :=
  {| board := board e; queue := queue e; currentPiece := currentPiece e;
     running := running e; score := n;
     linesCleared := linesCleared e; gameOver := gameOver e;
     random := random e |}.

Definition with_linesCleared (n : Z) (e : TetrisEngine) :=
  {| board := board e; queue := queue e; currentPiece := currentPiece e;
     running := running e; score := score e;
     linesCleared := n; gameOver := gameOver e;
     random := random e |}.

Definition with_gameOver (g : bool) (e : TetrisEngine) :=
  {| board := board e; queue := queue e; currentPiece := currentPiece e;
     running := running e; score := score e;
     linesCleared := linesCleared e; gameOver := g;
     random := random e |}.

Definition with_random (g : Random) (e : TetrisEngine) :=
  {| board := board e; queue := queue e; currentPiece := currentPiece e;
     running := running e; score := score e;
     linesCleared := linesCleared e; gameOver := gameOver e;
     random := g |}.

Definition with_x (n : Z) (p : ActivePiece) : ActivePiece :=
  Piece.Build (Piece.type p) (Piece.matrix p) n (Piece.y p).

Definition with_y (n : Z) (p : ActivePiece) : ActivePiece :=
  Piece.Build (Piece.type p) (Piece.matrix p) (Piece.x p) n.

Definition with_matrix (m : list (list Z)) (p : ActivePiece) : ActivePiece :=
  Piece.Build (Piece.type p) m (Piece.x p) (Piece.y p).

(** ** Shapes and rotation *)

(** [getMatrixForType]: a fresh copy of the canonical shape. *)
Definition getMatrixForType (t : TetrominoType) : list (list Z) :=
  TETROMINO_SHAPES t.

(** [matrix[row][col]] inside [rotateMatrix].  An entry missing from a
    ragged matrix reads [undefined]; every use of a matrix entry only tests
    its truthiness, where [undefined] and 0 agree, so it is read as 0. *)
Definition entry (m : list (list Z)) (row col : nat) : Z :=
  default 0 (default [] (m !! row) !! col).

(** [rotateMatrix].  [matrix[0].length] throws on an empty matrix.  The two
    nested [for] loops are folds over the index ranges; the assignment
    [result[col][rows - row - 1] = ...] is always inside the [cols] by [rows]
    result. *)
Definition rotateMatrix (m : list (list Z)) : outcome (list (list Z)) :=
  match m with
  | [] => Fail TypeError
  | first :: _ =>
    let rows := length m in
    let cols := length first in
    let result := replicate cols (replicate rows 0) in
    Ok (foldl (fun result row =>
          foldl (fun result col =>
            alter (fun r => <[(rows - row - 1)%nat := entry m row col]> r)
                  col result)
            result (seq 0 cols))
          result (seq 0 rows))
  end.

(** ** The queue *)

(** [[items[i], items[j]] = [items[j], items[i]]]. *)
Definition swap (items : list TetrominoType) (i j : nat)
  : list TetrominoType :=
  match items !! i, items !! j with
  | Some a, Some b => <[j := a]> (<[i := b]> items)
  | _, _ => items
  end.

(** The [for] of [shuffle]: [i] runs from [items.length - 1] down to 1. *)
Fixpoint shuffle_loop (i : nat) (items : list TetrominoType) (g : Random)
  : list TetrominoType * Random :=
  match i with
  | 0%nat => (items, g)
  | S k =>
    let '(j, g') := randomBelow (i + 1) g in
    shuffle_loop k (swap items i j) g'
  end.

Definition shuffle (items : list TetrominoType) (g : Random)
  : list TetrominoType * Random :=
  shuffle_loop (length items - 1) items g.

(** The [while] of [ensureQueue]. *)
Fixpoint ensureQueue_loop (fuel : nat) (q : list TetrominoType) (g : Random)
  : outcome (list TetrominoType * Random) :=
  if (length q <? length TETROMINO_ORDER)%nat then
    match fuel with
    | 0%nat => Fail FuelOut
    | S fuel' =>
      let '(bag, g') := shuffle TETROMINO_ORDER g in
      ensureQueue_loop fuel' (q ++ bag) g'
    end
  else Ok (q, g).

(** [ensureQueue].  Every round adds a whole bag, so the loop is granted as
    many rounds as the bag has kinds. *)
Definition ensureQueue (e : TetrisEngine) : outcome TetrisEngine :=
  let* (q, g) :=
    ensureQueue_loop (length TETROMINO_ORDER) (queue e) (random e) in
  Ok (with_random g (with_queue q e)).

(** ** Boards *)

Definition emptyRow : list Cell :=
  replicate (Z.to_nat BOARD_WIDTH) None.

Definition createEmptyBoard : list (list Cell) :=
  replicate (Z.to_nat BOARD_HEIGHT) emptyRow.

(** [this.board.map((row) => [...row])]: a copy, equal as a value. *)
Definition cloneBoard (b : list (list Cell)) : list (list Cell) :=
  (fun row => row) <$> b.

Definition clonePiece (p : ActivePiece) : ActivePiece :=
  Piece.Build (Piece.type p) ((fun row => row) <$> Piece.matrix p)
              (Piece.x p) (Piece.y p).

(** ** Spawning *)

Definition spawnNextPiece (e : TetrisEngine) : outcome TetrisEngine :=
  let* e := ensureQueue e in
  match queue e with
  | [] => Ok e
  | type :: rest =>
    let e := with_queue rest e in
    let matrix := getMatrixForType type in
    match matrix with
    | [] => Fail TypeError
    | first :: _ =>
      let x := (BOARD_WIDTH - Z.of_nat (length first)) / 2 in
      let y := -1 in
      let candidate := Piece.Build type matrix x y in
      let* ok := canPlace (board e) matrix x y in
      if ok then Ok (with_currentPiece (Some candidate) e)
      else Ok (with_running false
                 (with_gameOver true (with_currentPiece None e)))
    end
  end.

(** ** Moving and rotating the active piece *)

Definition shiftPiece (deltaX : Z) (e : TetrisEngine) : outcome TetrisEngine :=
  match currentPiece e with
  | None => Ok e
  | Some p =>
    let targetX := Piece.x p + deltaX in
    let* ok := canPlace (board e) (Piece.matrix p) targetX (Piece.y p) in
    if ok then Ok (with_currentPiece (Some (with_x targetX p)) e)
    else Ok e
  end.

(** The [for (const offset of kicks)] of [rotatePiece]: the piece after the
    loop, which is the piece itself when no offset fits. *)
Fixpoint rotatePiece_kicks (b : list (list Cell)) (p : ActivePiece)
    (rotated : list (list Z)) (kicks : list Z) : outcome ActivePiece :=
  match kicks with
  | [] => Ok p
  | offset :: rest =>
    let targetX := Piece.x p + offset in
    let* ok := canPlace b rotated targetX (Piece.y p) in
    if ok then Ok (with_x targetX (with_matrix rotated p))
    else rotatePiece_kicks b p rotated rest
  end.

Definition kicks : list Z := [0; -1; 1; -2; 2].

Definition rotatePiece (e : TetrisEngine) : outcome TetrisEngine :=
  match currentPiece e with
  | None => Ok e
  | Some p =>
    let* rotated := rotateMatrix (Piece.matrix p) in
    let* p' := rotatePiece_kicks (board e) p rotated kicks in
    Ok (with_currentPiece (Some p') e)
  end.

(** ** Locking *)

(** [this.board[boardY][boardX] = type], reached only with
    [0 <= boardY < height] and [0 <= boardX < width].  A missing row
    throws; a column just past the end of the row appends; a column further
    out would leave holes. *)
Definition writeCell (b : list (list Cell)) (boardY boardX : Z)
    (t : TetrominoType) : outcome (list (list Cell)) :=
  match b !! Z.to_nat boardY with
  | None => Fail TypeError
  | Some brow =>
    if (Z.to_nat boardX <? length brow)%nat then
      Ok (<[Z.to_nat boardY := <[Z.to_nat boardX := Some t]> brow]> b)
    else if (Z.to_nat boardX =? length brow)%nat then
      Ok (<[Z.to_nat boardY := brow ++ [Some t]]> b)
    else Fail SparseWrite
  end.

(** The inner [for] of [lockCurrentPiece]. *)
Fixpoint lock_cols (b : list (list Cell)) (x y : Z) (t : TetrominoType)
    (row col : nat) (cells : list Z) : outcome (list (list Cell)) :=
  match cells with
  | [] => Ok b
  | v :: rest =>
    if negb (truthy v) then lock_cols b x y t row (S col) rest
    else
      let boardY := y + Z.of_nat row in
      let boardX := x + Z.of_nat col in
      if boardY <? 0 then lock_cols b x y t row (S col) rest
      else if (boardY >=? BOARD_HEIGHT) || (boardX <? 0)
              || (boardX >=? BOARD_WIDTH)
      then lock_cols b x y t row (S col) rest
      else
        let* b := writeCell b boardY boardX t in
        lock_cols b x y t row (S col) rest
  end.

(** The outer [for] of [lockCurrentPiece]. *)
Fixpoint lock_rows (b : list (list Cell)) (x y : Z) (t : TetrominoType)
    (row : nat) (rows : list (list Z)) : outcome (list (list Cell)) :=
  match rows with
  | [] => Ok b
  | cells :: rest =>
    let* b := lock_cols b x y t row 0 cells in
    lock_rows b x y t (S row) rest
  end.

Definition lockCurrentPiece (e : TetrisEngine) : outcome TetrisEngine :=
  match currentPiece e with
  | None => Ok e
  | Some p =>
    let* b := lock_rows (board e) (Piece.x p) (Piece.y p) (Piece.type p) 0
                (Piece.matrix p) in
    Ok (with_currentPiece None (with_board b e))
  end.

(** ** Line clearing and scoring *)

Definition getLevel (e : TetrisEngine) : Z :=
  linesCleared e / 10 + 1.

(** [row.every((cell) => cell)]. *)
Definition complete (cells : list Cell) : bool :=
  forallb (fun cell : Cell => present cell) cells.

(** The [for] of [clearLines]; [row] is the loop variable, tested before
    each round.  After a removal the loop's [row += 1] and its [row -= 1]
    cancel, so the same index is tested again. *)
Fixpoint clearLines_loop (fuel : nat) (b : list (list Cell)) (row : Z)
    (lines : nat) : outcome (list (list Cell) * nat) :=
  if row >=? 0 then
    match fuel with
    | 0%nat => Fail FuelOut
    | S fuel' =>
      match b !! Z.to_nat row with
      | None => Fail TypeError
      | Some cells =>
        if complete cells then
          clearLines_loop fuel' (emptyRow :: delete (Z.to_nat row) b)
                          (row + 1 - 1) (lines + 1)
        else clearLines_loop fuel' b (row - 1) lines
      end
    end
  else Ok (b, lines).

(** [clearLines].  A round of the scan either moves up a row or removes a
    complete row; the scan is granted [2 * height] rounds. *)
Definition clearLines (e : TetrisEngine) : outcome TetrisEngine :=
  let* (b, lines) :=
    clearLines_loop (Z.to_nat (2 * BOARD_HEIGHT)) (board e)
                    (BOARD_HEIGHT - 1) 0 in
  let e := with_board b e in
  if (0 <? lines)%nat then
    let e := with_linesCleared (linesCleared e + Z.of_nat lines) e in
    let level := getLevel e in
    Ok (with_score (score e + default 0 (SCORE_TABLE !! lines) * level) e)
  else Ok e.

(** ** Dropping *)

(** The [while] of [hardDrop]: the piece and the distance after the loop. *)
Fixpoint hardDrop_loop (fuel : nat) (b : list (list Cell)) (p : ActivePiece)
    (distance : Z) : outcome (ActivePiece * Z) :=
  let* ok := canPlace b (Piece.matrix p) (Piece.x p) (Piece.y p + 1) in
  if ok then
    match fuel with
    | 0%nat => Fail FuelOut
    | S fuel' =>
      hardDrop_loop fuel' b (with_y (Piece.y p + 1) p) (distance + 1)
    end
  else Ok (p, distance).

(** Rounds granted to the descent loops: a piece with a filled cell cannot
    be placed at [height] or below, so it descends fewer than
    [height - y] rows. *)
Definition dropFuel (p : ActivePiece) : nat :=
  Z.to_nat (BOARD_HEIGHT - Piece.y p).

Definition hardDrop (e : TetrisEngine) : outcome TetrisEngine :=
  match currentPiece e with
  | None => Ok e
  | Some p =>
    let* (p', distance) := hardDrop_loop (dropFuel p) (board e) p 0 in
    let e := with_currentPiece (Some p') e in
    let e := if distance >? 0 then with_score (score e + distance * 2) e
             else e in
    let* e := lockCurrentPiece e in
    let* e := clearLines e in
    spawnNextPiece e
  end.

(** The [while] of [computeGhostY], on its local [y]. *)
Fixpoint computeGhostY_loop (fuel : nat) (b : list (list Cell))
    (p : ActivePiece) (y : Z) : outcome Z :=
  let* ok := canPlace b (Piece.matrix p) (Piece.x p) (y + 1) in
  if ok then
    match fuel with
    | 0%nat => Fail FuelOut
    | S fuel' => computeGhostY_loop fuel' b p (y + 1)
    end
  else Ok y.

Definition computeGhostY (e : TetrisEngine) : outcome (option Z) :=
  match currentPiece e with
  | None => Ok None
  | Some p =>
    let* y := computeGhostY_loop (dropFuel p) (board e) p (Piece.y p) in
    Ok (Some y)
  end.

Definition stepDown (manual : bool) (e : TetrisEngine) : outcome TetrisEngine :=
  match currentPiece e with
  | None => Ok e
  | Some p =>
    let* ok := canPlace (board e) (Piece.matrix p) (Piece.x p)
                 (Piece.y p + 1) in
    if ok then
      let e := with_currentPiece (Some (with_y (Piece.y p + 1) p)) e in
      if manual then Ok (with_score (score e + 1) e) else Ok e
    else
      let* e := lockCurrentPiece e in
      let* e := clearLines e in
      spawnNextPiece e
  end.

Definition getDropInterval (e : TetrisEngine) : Z :=
  let level := getLevel e in
  let base := 1000 in
  let decay := Z.min (level - 1) 10 * 60 in
  Z.max (base - decay) 300.

(** ** Lifecycle and projections *)

(** [new TetrisEngine()], with the random source it will draw from. *)
Definition newEngine (g : Random) : TetrisEngine :=
  {| board := createEmptyBoard; queue := []; currentPiece := None;
     running := false; score := 0; linesCleared := 0; gameOver := false;
     random := g |}.

Definition hydrateFromSnapshot (snapshot : GameSnapshot) (e : TetrisEngine)
  : outcome TetrisEngine :=
  let e := with_board (cloneBoard (Snapshot.board snapshot)) e in
  let e := with_currentPiece
             (clonePiece <$> Snapshot.currentPiece snapshot) e in
  let e := with_queue (Snapshot.queue snapshot) e in
  let e := with_score (Snapshot.score snapshot) e in
  let e := with_linesCleared (Snapshot.linesCleared snapshot) e in
  let e := with_gameOver (Snapshot.isGameOver snapshot) e in
  let* e := if (length (queue e) =? 0)%nat then ensureQueue e else Ok e in
  if negb (present (currentPiece e)) && negb (gameOver e)
  then spawnNextPiece e
  else Ok e.

Definition start (snapshot : option GameSnapshot) (e : TetrisEngine)
  : outcome TetrisEngine :=
  let* e :=
    match snapshot with
    | Some snapshot => hydrateFromSnapshot snapshot e
    | None =>
      let e := with_board createEmptyBoard e in
      let e := with_queue [] e in
      let e := with_currentPiece None e in
      let e := with_score 0 e in
      let e := with_linesCleared 0 e in
      let e := with_gameOver false e in
      let* e := ensureQueue e in
      spawnNextPiece e
    end in
  Ok (with_running (negb (gameOver e)) e).

Definition pause (e : TetrisEngine) : TetrisEngine :=
  with_running false e.

Definition resume (e : TetrisEngine) : TetrisEngine :=
  if negb (gameOver e) then with_running true e else e.

Definition isRunning (e : TetrisEngine) : bool :=
  running e && negb (gameOver e).

(** [getRenderState] tops the queue up before it reads: it returns the
    projection and the engine it leaves. *)
Definition getRenderState (e : TetrisEngine)
  : outcome (RenderState * TetrisEngine) :=
  let* e := ensureQueue e in
  let* ghost := computeGhostY e in
  Ok ({| Render.board := cloneBoard (board e);
         Render.currentPiece := clonePiece <$> currentPiece e;
         Render.queue := queue e;
         Render.score := score e;
         Render.linesCleared := linesCleared e;
         Render.isGameOver := gameOver e;
         Render.width := BOARD_WIDTH;
         Render.height := BOARD_HEIGHT;
         Render.level := getLevel e;
         Render.nextPiece := queue e !! 0%nat;
         Render.ghostY := ghost;
         Render.dropInterval := getDropInterval e |}, e).

Definition getSnapshot (e : TetrisEngine) : GameSnapshot :=
  {| Snapshot.board := cloneBoard (board e);
     Snapshot.currentPiece := clonePiece <$> currentPiece e;
     Snapshot.queue := queue e;
     Snapshot.score := score e;
     Snapshot.linesCleared := linesCleared e;
     Snapshot.isGameOver := gameOver e |}.

Definition handleAction (action : InputAction) (e : TetrisEngine)
  : outcome TetrisEngine :=
  if negb (isRunning e) then Ok e
  else
    match action with
    | Action.moveLeft => shiftPiece (-1) e
    | Action.moveRight => shiftPiece 1 e
    | Action.rotate => rotatePiece e
    | Action.softDrop => stepDown true e
    | Action.hardDrop => hardDrop e
    end.

(** ** Sessions: the public methods as calls *)

Inductive call : Type :=
  | CallStart (snapshot : option GameSnapshot)
  | CallPause
  | CallResume
  | CallIsRunning
  | CallGetRenderState
  | CallGetSnapshot
  | CallHandleAction (action : InputAction)
  | CallStepDown (manual : bool)
  | CallGetDropInterval.

(** The engine a call leaves; what the call returns is dropped. *)
Definition perform (c : call) (e : TetrisEngine) : outcome TetrisEngine :=
  match c with
  | CallStart snapshot => start snapshot e
  | CallPause => Ok (pause e)
  | CallResume => Ok (resume e)
  | CallIsRunning => Ok e
  | CallGetRenderState => let* (_, e) := getRenderState e in Ok e
  | CallGetSnapshot => Ok e
  | CallHandleAction action => handleAction action e
  | CallStepDown manual => stepDown manual e
  | CallGetDropInterval => Ok e
  end.

Fixpoint performAll (cs : list call) (e : TetrisEngine)
  : outcome TetrisEngine :=
  match cs with
  | [] => Ok e
  | c :: cs => let* e := perform c e in performAll cs e
  end.

Definition isStart (c : call) : bool :=
  match c with
  | CallStart _ => true
  | _ => false
  end.

(** The calls that cannot leave game over: every call but [start], and
    [start] with a snapshot that is itself game over.  [start()] with no
    snapshot and [start] with a snapshot that is not over are left out. *)
Definition keepsOver (c : call) : bool :=
  match c with
  | CallStart None => false
  | CallStart (Some snapshot) => Snapshot.isGameOver snapshot
  | _ => true
  end.

(** ** Predicates of the statements *)

(** The board has every row the engine reads: [height] rows at least. *)
Definition hasRows (b : list (list Cell)) : Prop :=
  (Z.to_nat BOARD_HEIGHT ≤ length b)%nat.

(** [matrix[r][c]] is a filled cell of the shape. *)
Definition filled (m : list (list Z)) (r c : nat) : Prop :=
  ∃ cells v, m !! r = Some cells ∧ cells !! c = Some v ∧ v ≠ 0.

(** The filled cell [(r, c)] of a shape at [(x, y)] is rejected: its column
    is outside the board, or its row is below the board, or it lands inside
    the board on a cell that is not empty. *)
Definition rejected (b : list (list Cell)) (x y : Z) (r c : nat) : Prop :=
  let boardX := x + Z.of_nat c in
  let boardY := y + Z.of_nat r in
  boardX < 0 ∨ BOARD_WIDTH ≤ boardX ∨ BOARD_HEIGHT ≤ boardY ∨
  (0 ≤ boardY < BOARD_HEIGHT ∧ 0 ≤ boardX < BOARD_WIDTH ∧
   ∃ brow t, b !! Z.to_nat boardY = Some brow ∧
             brow !! Z.to_nat boardX = Some (Some t)).

(** The number of complete rows among the [height] rows of the board. *)
Definition completeRows (b : list (list Cell)) : nat :=
  length (filter (fun cells => complete cells)
                 (take (Z.to_nat BOARD_HEIGHT) b)).

(** The board once its complete rows are gone: as many empty rows on top,
    the other rows in their order below. *)
Definition cleared (b : list (list Cell)) : list (list Cell) :=
  replicate (completeRows b) emptyRow
  ++ filter (fun cells => ¬ complete cells) (take (Z.to_nat BOARD_HEIGHT) b)
  ++ drop (Z.to_nat BOARD_HEIGHT) b.

(** The quarter turn clockwise in closed form: row [c] of the result reads
    column [c] of the source from the bottom up. *)
Definition quarterTurn (m : list (list Z)) : list (list Z) :=
  let rows := length m in
  let cols := length (default [] (m !! 0%nat)) in
  (fun c => (fun j => entry m (rows - 1 - j) c) <$> seq 0 rows) <$> seq 0 cols.

(** The [candidate] that [spawnNextPiece] builds for a kind: the canonical
    shape, centred, one row above the board. *)
Definition candidate (t : TetrominoType) : ActivePiece :=
  let matrix := getMatrixForType t in
  Piece.Build t matrix
    ((BOARD_WIDTH - Z.of_nat (length (default [] (matrix !! 0%nat)))) / 2)
    (-1).

(** The grid of the data model: [height] rows of [width] cells. *)
Definition boardOk (b : list (list Cell)) : Prop :=
  length b = Z.to_nat BOARD_HEIGHT ∧
  Forall (fun cells : list Cell => length cells = Z.to_nat BOARD_WIDTH) b.

(** A shape with a filled cell inside the rectangle that [rotateMatrix]
    reads: the rows of the matrix by the columns of its first row. *)
Definition pieceOk (p : ActivePiece) : Prop :=
  let m := Piece.matrix p in
  ∃ r c, (r < length m)%nat ∧ (c < length (default [] (m !! 0%nat)))%nat ∧
         entry m r c ≠ 0.

(** [y'] is where the descent from row [y0] ends: every row on the way
    places without collision, the row after [y'] does not. *)
Definition landing (b : list (list Cell)) (p : ActivePiece) (y0 y' : Z)
  : Prop :=
  y0 ≤ y' ∧
  (∀ k, y0 < k ≤ y' →
        canPlace b (Piece.matrix p) (Piece.x p) k = Ok true) ∧
  canPlace b (Piece.matrix p) (Piece.x p) (y' + 1) = Ok false.

(** The states of a session: what holds of the engine from [start()] on. *)
Record stateOk (e : TetrisEngine) : Prop := {
  ok_board : boardOk (board e);
  ok_piece : ∀ p, currentPiece e = Some p → pieceOk p;
  ok_queue : (6 ≤ length (queue e))%nat;
  ok_over : gameOver e = true ↔ currentPiece e = None;
  ok_score : 0 ≤ score e;
  ok_lines : 0 ≤ linesCleared e
}.

(** The states a session reaches: [start()] with no snapshot on any engine,
    then any public call other than [start], and [start] with a snapshot
    that [getSnapshot] took of a reached state. *)
Inductive reachable : TetrisEngine → Prop :=
  | reach_start e0 e :
      start None e0 = Ok e → reachable e
  | reach_call e c e' :
      reachable e → isStart c = false → perform c e = Ok e' → reachable e'
  | reach_restore e e0 e' :
      reachable e → start (Some (getSnapshot e)) e0 = Ok e' → reachable e'.

(** A call took the session from [e] to [e']: the state is still one of a
    session and neither counter went down. *)
Definition advances (e e' : TetrisEngine) : Prop :=
  stateOk e' ∧ score e ≤ score e' ∧ linesCleared e ≤ linesCleared e'.

(** What every call but [start] guarantees when it returns, whatever the
    state it ran in: the line counter does not go down, the score does not
    go down as long as the line counter is not negative, and game over is
    final. *)
Definition follows (e e' : TetrisEngine) : Prop :=
  linesCleared e ≤ linesCleared e' ∧
  (0 ≤ linesCleared e → score e ≤ score e') ∧
  (gameOver e = true → gameOver e' = true) ∧
  (gameOver e = true → running e = false → running e' = false).

(** The vertical I-piece, four rows of one filled cell. *)
Definition verticalI : list (list Z) := [[1]; [1]; [1]; [1]].

(** The empty board after a vertical I-piece locked at the bottom of
    column [x]. *)
Definition lockedBoard (x : Z) : list (list Cell) :=
  replicate 16 emptyRow
  ++ replicate 4 (<[Z.to_nat x := Some Tetromino.I]> emptyRow).

(** ** Sample states *)

(** A random source: the stream 0, 1, 2, ... *)
Definition sampleRandom : Random := {| stream := fun n => n; drawn := 0 |}.

(** The engine a returning call leaves, or [e] if the call faulted. *)
Definition stateAfter (o : outcome TetrisEngine) (e : TetrisEngine)
  : TetrisEngine :=
  match o with
  | Ok e' => e'
  | Fail _ => e
  end.

(** A session just begun: [new TetrisEngine()] then [start()]. *)
Definition sampleStarted : TetrisEngine :=
  stateAfter (start None (newEngine sampleRandom)) (newEngine sampleRandom).

(** Twenty-five hard drops in a row pile the pieces up to the top. *)
Definition sampleDrops : list call :=
  replicate 25 (CallHandleAction Action.hardDrop).

Definition sampleOver : TetrisEngine :=
  stateAfter (performAll sampleDrops sampleStarted) sampleStarted.

(** Three hard drops into a session, then the next piece stepped down
    until it rests on the pile. *)
Definition samplePiled : TetrisEngine :=
  stateAfter
    (performAll (replicate 3 (CallHandleAction Action.hardDrop)
                 ++ replicate 13 (CallStepDown false)) sampleStarted)
    sampleStarted.

(** A board whose bottom row is complete, and an engine on it. *)
Definition sampleLineBoard : list (list Cell) :=
  replicate 19 emptyRow ++ [replicate 10 (Some Tetromino.T)].

Definition sampleLine : TetrisEngine :=
  {| board := sampleLineBoard; queue := TETROMINO_ORDER;
     currentPiece := None; running := true; score := 0;
     linesCleared := 9; gameOver := false; random := sampleRandom |}.

(** A board whose top row is taken, and an engine about to spawn on it. *)
Definition sampleFullTop : TetrisEngine :=
  {| board := replicate 10 (Some Tetromino.T) :: replicate 19 emptyRow;
     queue := [Tetromino.T; Tetromino.J; Tetromino.L; Tetromino.O;
               Tetromino.S; Tetromino.Z; Tetromino.I];
     currentPiece := None; running := true; score := 0;
     linesCleared := 0; gameOver := false; random := sampleRandom |}.

(** A T-piece against the right wall of the empty board. *)
Definition sampleRotating : TetrisEngine :=
  {| board := createEmptyBoard; queue := TETROMINO_ORDER;
     currentPiece :=
       Some (Piece.Build Tetromino.T [[1; 0]; [1; 1]; [1; 0]] 8 5);
     running := true; score := 0; linesCleared := 0; gameOver := false;
     random := sampleRandom |}.

(** A vertical I-piece at the top left of the empty board, running. *)
Definition sampleDropping : TetrisEngine :=
  {| board := createEmptyBoard;
     queue := [Tetromino.J; Tetromino.L; Tetromino.O; Tetromino.S;
               Tetromino.Z; Tetromino.T; Tetromino.I];
     currentPiece := Some (Piece.Build Tetromino.I verticalI 0 0);
     running := true; score := 0; linesCleared := 0; gameOver := false;
     random := sampleRandom |}.

(** The assignment in the body of the loops of [rotateMatrix]. *)
Definition rotateAssign (m : list (list Z)) (row : nat)
    (result : list (list Z)) (col : nat) : list (list Z) :=
  alter (fun r => <[(length m - row - 1)%nat := entry m row col]> r)
        col result.

(** Row [c] of the result once the outer loop of [rotateMatrix] has gone
    through the first [k] rows of the source. *)
Definition rotatePartial (m : list (list Z)) (k c : nat) : list Z :=
  (fun j => if decide (length m - 1 - j < k)%nat
            then entry m (length m - 1 - j) c else 0) <$> seq 0 (length m).

(** ** Further predicates *)

(** The outcome of a call, seen through a function of the engine it
    leaves. *)
Definition onOk {A B : Type} (f : A → B) (o : outcome A) : outcome B :=
  match o with
  | Ok a => Ok (f a)
  | Fail x => Fail x
  end.

(** The cell of a board at row [r], column [c], if the board has one. *)
Definition cellAt (b : list (list Cell)) (r c : nat) : option Cell :=
  match b !! r with
  | Some cells => cells !! c
  | None => None
  end.

(** The piece has a filled cell over the board cell at row [r],
    column [c]. *)
Definition covers (p : ActivePiece) (r c : nat) : Prop :=
  ∃ i j, filled (Piece.matrix p) i j ∧
         Z.of_nat r = Piece.y p + Z.of_nat i ∧
         Z.of_nat c = Piece.x p + Z.of_nat j.

(** The active piece, if any, sits where the collision test lets it. *)
Definition placed (e : TetrisEngine) : Prop :=
  ∀ p, currentPiece e = Some p →
       canPlace (board e) (Piece.matrix p) (Piece.x p) (Piece.y p) = Ok true.

(** The four quarter turns of the canonical shape of a kind. *)
Definition rotations (t : TetrominoType) : list (list (list Z)) :=
  let m := getMatrixForType t in
  [m; quarterTurn m; quarterTurn (quarterTurn m);
   quarterTurn (quarterTurn (quarterTurn m))].

(** The number of filled cells of a shape matrix. *)
Definition cellCount (m : list (list Z)) : nat :=
  length (List.filter truthy (concat m)).

(** The piece is its kind's shape, turned, at or below the spawn row. *)
Definition turned (p : ActivePiece) : Prop :=
  Piece.matrix p ∈ rotations (Piece.type p) ∧ -1 ≤ Piece.y p.

(** What play keeps true of the engine besides [stateOk]. *)
Definition playOk (e : TetrisEngine) : Prop :=
  placed e ∧
  Forall (fun cells : list Cell => complete cells = false) (board e) ∧
  ∀ p, currentPiece e = Some p → turned p.

(** A matrix of [R] rows of [C] entries each. *)
Definition rect (R C : nat) (m : list (list Z)) : Prop :=
  length m = R ∧ Forall (fun cells : list Z => length cells = C) m.

(** The engine with [k] more points. *)
Definition addScore (k : Z) (e : TetrisEngine) : TetrisEngine :=
  with_score (score e + k) e.

(** ** The next-piece preview of [main.ts] *)

(** A cell of the preview: whether it carries the class [filled], and its
    [--preview-color] property if it has one. *)
Record PreviewCell : Type := {
  classFilled : bool;
  previewColor : option string
}.

Definition getPreviewColor (t : TetrominoType) : string :=
  match t with
  | Tetromino.I => "#7dd3fc"
  | Tetromino.J => "#93c5fd"
  | Tetromino.L => "#fbbf24"
  | Tetromino.O => "#fef08a"
  | Tetromino.S => "#4ade80"
  | Tetromino.T => "#c084fc"
  | Tetromino.Z => "#f87171"
  end.

(** [classList.remove('filled')] and [style.removeProperty(...)]. *)
Definition clearPreviewCell (cell : PreviewCell) : PreviewCell :=
  {| classFilled := false; previewColor := None |}.

(** [classList.add('filled')] and [style.setProperty(..., color)]. *)
Definition markPreviewCell (color : string) (cell : PreviewCell)
  : PreviewCell :=
  {| classFilled := true; previewColor := Some color |}.

(** The inner [forEach] of [updateNextPreview].  [previewCells[idx]] is
    [undefined] for an index that is negative or past the end, and the
    [if (cell)] skips it. *)
Fixpoint preview_cols (cells : list PreviewCell) (offsetX offsetY : Z)
    (color : string) (r c : nat) (values : list Z) : list PreviewCell :=
  match values with
  | [] => cells
  | value :: rest =>
    let cells :=
      if negb (truthy value) then cells
      else
        let idx := (offsetY + Z.of_nat r) * 4 + (offsetX + Z.of_nat c) in
        if idx <? 0 then cells
        else match cells !! Z.to_nat idx with
             | Some cell =>
               <[Z.to_nat idx := markPreviewCell color cell]> cells
             | None => cells
             end in
    preview_cols cells offsetX offsetY color r (S c) rest
  end.

(** The outer [forEach] of [updateNextPreview]. *)
Fixpoint preview_rows (cells : list PreviewCell) (offsetX offsetY : Z)
    (color : string) (r : nat) (rows : list (list Z)) : list PreviewCell :=
  match rows with
  | [] => cells
  | values :: rest =>
    preview_rows (preview_cols cells offsetX offsetY color r 0 values)
                 offsetX offsetY color (S r) rest
  end.

(** [updateNextPreview]: the preview cells after the call. *)
Definition updateNextPreview (type : TetrominoType)
    (previewCells : list PreviewCell) : outcome (list PreviewCell) :=
  let cells := clearPreviewCell <$> previewCells in
  let matrix := getMatrixForType type in
  match matrix with
  | [] => Fail TypeError
  | first :: _ =>
    let offsetX := (4 - Z.of_nat (length first)) / 2 in
    let offsetY := (4 - Z.of_nat (length matrix)) / 2 in
    let color := getPreviewColor type in
    Ok (preview_rows cells offsetX offsetY color 0 matrix)
  end.

(** The offsets that centre a kind in the four by four preview. *)
Definition previewOffsetX (t : TetrominoType) : Z :=
  (4 - Z.of_nat (length (default [] (getMatrixForType t !! 0%nat)))) / 2.

Definition previewOffsetY (t : TetrominoType) : Z :=
  (4 - Z.of_nat (length (getMatrixForType t))) / 2.

(** A finished game is not running: what [spawnNextPiece] sets together
    and [resume] guards. *)
Definition live (e : TetrisEngine) : Prop :=
  gameOver e = true → running e = false.

(** * Theorems *)

(** ** Collision *)

Lemma readCell_hasRows b boardY boardX :
  hasRows b → 0 ≤ boardY < BOARD_HEIGHT →
  ∃ brow, b !! Z.to_nat boardY = Some brow ∧
          readCell b boardY boardX = Ok (brow !! Z.to_nat boardX).
Proof.
  intros Hb Hy. unfold readCell.
  destruct (b !! Z.to_nat boardY) as [brow|] eqn:E; [eauto|].
  apply lookup_ge_None in E. unfold hasRows in Hb. lia.
Qed.

Lemma occupied_true c : occupied c = true ↔ ∃ t, c = Some (Some t).
Proof.
  split.
  - destruct c as [[t|]|]; simpl; intros; try discriminate. eauto.
  - intros [t ->]. reflexivity.
Qed.

(** One filled cell: what the body of the inner loop decides. *)
Lemma rejected_dec b x y r c :
  hasRows b →
  let boardX := x + Z.of_nat c in
  let boardY := y + Z.of_nat r in
  rejected b x y r c ↔
  (boardX <? 0) || (boardX >=? BOARD_WIDTH) = true ∨
  (boardY >=? BOARD_HEIGHT) = true ∨
  ((boardY <? 0) = false ∧ (boardY >=? BOARD_HEIGHT) = false ∧
   (boardX <? 0) || (boardX >=? BOARD_WIDTH) = false ∧
   ∃ o, readCell b boardY boardX = Ok o ∧ occupied o = true).
Proof.
  intros Hb boardX boardY. unfold rejected. fold boardX boardY.
  rewrite orb_true_iff, orb_false_iff, !Z.ltb_lt, !Z.ltb_ge, !Z.geb_leb,
    !Z.leb_le, !Z.leb_gt.
  split.
  - intros [?|[?|[?|(Hy & Hx & brow & t & Hrow & Hcell)]]]; [lia|lia|lia|].
    right; right. repeat split; try lia.
    destruct (readCell_hasRows b boardY boardX Hb Hy) as (brow' & E & Hr).
    rewrite Hrow in E. simplify_eq. rewrite Hcell in Hr. eauto.
  - intros [[?|?]|[?|(Hy0 & Hy1 & [Hx0 Hx1] & o & Hread & Hocc)]];
      [lia|lia|lia|].
    right; right; right.
    assert (Hy : 0 ≤ boardY < BOARD_HEIGHT) by lia.
    destruct (readCell_hasRows b boardY boardX Hb Hy) as (brow & E & Hr).
    rewrite Hr in Hread. simplify_eq.
    apply occupied_true in Hocc as [t Ht].
    repeat split; try lia. eauto.
Qed.

(** One round of the inner loop: a cell that is empty or fits passes the
    decision on to the rest of the row, any other cell returns false. *)
Lemma canPlace_cols_step b x y row col v rest :
  hasRows b →
  ((v = 0 ∨ ¬ rejected b x y row col) ∧
   canPlace_cols b x y row col (v :: rest) =
   canPlace_cols b x y row (S col) rest) ∨
  (v ≠ 0 ∧ rejected b x y row col ∧
   canPlace_cols b x y row col (v :: rest) = Ok false).
Proof.
  intros Hb. simpl. unfold truthy. rewrite negb_involutive.
  destruct (v =? 0) eqn:Ev.
  { apply Z.eqb_eq in Ev. left. split; [by left|done]. }
  apply Z.eqb_neq in Ev.
  pose proof (rejected_dec b x y row col Hb) as Hdec. simpl in Hdec.
  set (boardX := x + Z.of_nat col) in *. set (boardY := y + Z.of_nat row) in *.
  destruct ((boardX <? 0) || (boardX >=? BOARD_WIDTH)) eqn:Ex.
  { right. split; [done|split; [|done]]. apply Hdec. by left. }
  destruct (boardY >=? BOARD_HEIGHT) eqn:Ey1.
  { right. split; [done|split; [|done]]. apply Hdec. right; by left. }
  destruct (boardY <? 0) eqn:Ey0.
  { left. split; [|done]. right. rewrite Hdec.
    intros [?|[?|(? & _)]]; congruence. }
  assert (Hy : 0 ≤ boardY < BOARD_HEIGHT).
  { apply Z.ltb_ge in Ey0. rewrite Z.geb_leb in Ey1. apply Z.leb_gt in Ey1. lia. }
  destruct (readCell_hasRows b boardY boardX Hb Hy) as (brow & Erow & Hread).
  rewrite Hread. simpl.
  destruct (occupied (brow !! Z.to_nat boardX)) eqn:Eo.
  { right. split; [done|split; [|done]]. apply Hdec. right; right. eauto 10. }
  left. split; [|done]. right. rewrite Hdec.
  intros [?|[?|(_ & _ & _ & o & Ho & Hocc)]]; congruence.
Qed.

Lemma canPlace_cols_spec b x y row cells :
  hasRows b → ∀ col,
  (canPlace_cols b x y row col cells = Ok false ∧
   ∃ i v, cells !! i = Some v ∧ v ≠ 0 ∧ rejected b x y row (col + i)) ∨
  (canPlace_cols b x y row col cells = Ok true ∧
   ∀ i v, cells !! i = Some v → v ≠ 0 → ¬ rejected b x y row (col + i)).
Proof.
  intros Hb. induction cells as [|v rest IH]; intros col.
  { right. split; [reflexivity|]. intros i v Hi. by rewrite lookup_nil in Hi. }
  assert (Hshift : ∀ i, (S col + i = col + S i)%nat)
    by (intros; lia).
  assert (H0 : (col + 0 = col)%nat) by lia.
  destruct (canPlace_cols_step b x y row col v rest Hb)
    as [[Hv ->]|(Hne & Hr & ->)].
  - destruct (IH (S col)) as [[E (i & v0 & Hi & Hne & Hr)]|[E Hall]].
    + left. split; [done|]. exists (S i), v0. rewrite <- Hshift. eauto.
    + right. split; [done|]. intros [|i] v0 Hi Hne.
      * simpl in Hi. simplify_eq. rewrite H0. by destruct Hv.
      * rewrite <- Hshift. eauto.
  - left. split; [done|]. exists 0%nat, v. rewrite H0. eauto.
Qed.

Lemma canPlace_rows_spec b x y rows :
  hasRows b → ∀ row,
  (canPlace_rows b x y row rows = Ok false ∧
   ∃ r c, filled rows r c ∧ rejected b x y (row + r) c) ∨
  (canPlace_rows b x y row rows = Ok true ∧
   ∀ r c, filled rows r c → ¬ rejected b x y (row + r) c).
Proof.
  intros Hb. induction rows as [|cells rest IH]; intros row.
  { right. split; [reflexivity|]. intros r c (cs & v & Hr & _).
    by rewrite lookup_nil in Hr. }
  assert (Hshift : ∀ r, (S row + r = row + S r)%nat)
    by (intros; lia).
  assert (H0 : (row + 0 = row)%nat) by lia.
  simpl.
  destruct (canPlace_cols_spec b x y row cells Hb 0%nat)
    as [[-> (i & v & Hi & Hne & Hr)]|[-> Hrow]]; simpl.
  - left. split; [done|]. exists 0%nat, i. rewrite H0. split; [|done].
    exists cells, v. eauto.
  - destruct (IH (S row)) as [[E (r & c & Hf & Hr)]|[E Hall]].
    + left. split; [done|]. exists (S r), c. rewrite <- Hshift.
      split; [|done]. destruct Hf as (cs & v & ? & ? & ?). exists cs, v. eauto.
    + right. split; [done|]. intros [|r] c (cs & v & Hcs & Hv & Hne).
      * simpl in Hcs. simplify_eq. rewrite H0. eapply (Hrow c); eauto.
      * rewrite <- Hshift. apply Hall. exists cs, v. eauto.
Qed.

(** C1.  On a board with all its rows, [canPlace(shape, x, y)] returns, and
    it returns false if and only if some filled cell [(r, c)] of the shape
    has its column [x + c] outside [0, width), or its row [y + r] at
    [height] or below, or lands inside the board on a cell that is not
    empty.  Filled cells whose row [y + r] is negative never cause
    rejection: such a cell with its column inside the board is not rejected,
    and a shape all of whose filled cells are such places, whatever the
    board holds. *)
Theorem canPlace_false_iff (b : list (list Cell)) (m : list (list Z))
    (x y : Z) :
  hasRows b →
  (∃ ok, canPlace b m x y = Ok ok) ∧
  (canPlace b m x y = Ok false ↔
   ∃ r c, filled m r c ∧ rejected b x y r c) ∧
  (∀ r c, filled m r c → y + Z.of_nat r < 0 →
          0 ≤ x + Z.of_nat c < BOARD_WIDTH → ¬ rejected b x y r c) ∧
  ((∀ r c, filled m r c →
           y + Z.of_nat r < 0 ∧ 0 ≤ x + Z.of_nat c < BOARD_WIDTH) →
   canPlace b m x y = Ok true).
Proof.
  intros Hb.
  assert (Habove : ∀ r c, y + Z.of_nat r < 0 →
            0 ≤ x + Z.of_nat c < BOARD_WIDTH → ¬ rejected b x y r c).
  { intros r c Hneg Hcol. unfold rejected, BOARD_HEIGHT in *.
    intros [?|[?|[?|(? & _)]]]; lia. }
  unfold canPlace.
  destruct (canPlace_rows_spec b x y m Hb 0%nat) as [[E Hex]|[E Hall]];
    simpl in *.
  - split; [eauto|]. split; [tauto|]. split; [eauto|].
    intros Hneg. destruct Hex as (r & c & Hf & Hr).
    destruct (Hneg r c Hf) as [Hy Hx]. by destruct (Habove r c Hy Hx).
  - split; [eauto|]. split; [|split; [eauto|done]].
    split; [congruence|]. intros (r & c & Hf & Hr). exfalso. by eapply Hall.
Qed.

Lemma canPlace_false_iff_witness :
  canPlace createEmptyBoard (TETROMINO_SHAPES Tetromino.T) 8 (-1) = Ok false
  ↔ ∃ r c, filled (TETROMINO_SHAPES Tetromino.T) r c ∧
           rejected createEmptyBoard 8 (-1) r c.
Proof.
  apply (canPlace_false_iff createEmptyBoard (TETROMINO_SHAPES Tetromino.T)
           8 (-1)).
  unfold hasRows. vm_compute. lia.
Defined.

(** ** Line clearing *)

Lemma emptyRow_not_complete : complete emptyRow = false.
Proof. reflexivity. Qed.

Lemma list_snoc_case {A} (l : list A) : l = [] ∨ ∃ l' a, l = l' ++ [a].
Proof. induction l using rev_ind; eauto. Qed.

(** The scan, started below the rows [pre] that are still to be tested,
    removes exactly the complete rows of [pre]. *)
Lemma clearLines_loop_spec fuel :
  ∀ (pre suf : list (list Cell)) (lines : nat),
  let c := length (filter (fun cells => complete cells) pre) in
  (length pre + c ≤ fuel)%nat →
  clearLines_loop fuel (pre ++ suf) (Z.of_nat (length pre) - 1) lines =
  Ok (replicate c emptyRow ++ filter (fun cells => ¬ complete cells) pre ++ suf,
      (lines + c)%nat).
Proof.
  induction fuel as [|fuel IH]; intros pre suf lines c Hfuel.
  { destruct pre; [|simpl in Hfuel; lia]. simpl. f_equal. f_equal. lia. }
  destruct (list_snoc_case pre) as [->|(pre0 & r & ->)].
  { simpl. f_equal. f_equal. subst c. simpl. lia. }
  subst c. rewrite filter_app in Hfuel. repeat rewrite filter_app.
  rewrite !length_app in Hfuel |- *. simpl length in Hfuel |- *.
  replace (Z.of_nat (length pre0 + 1) - 1) with (Z.of_nat (length pre0)) by lia.
  cbn [clearLines_loop].
  replace (Z.of_nat (length pre0) >=? 0) with true
    by (symmetry; rewrite Z.geb_leb; apply Z.leb_le; lia).
  rewrite Nat2Z.id, <- app_assoc.
  rewrite lookup_app_r, Nat.sub_diag by lia. cbn [lookup list_lookup app].
  destruct (complete r) eqn:Er.
  - rewrite filter_cons_True in Hfuel |- * by (rewrite Er; cbn; tauto).
    rewrite (filter_cons_False _ r) by (rewrite Er; cbn; tauto).
    simpl length in *. rewrite app_nil_r.
    replace (delete (length pre0) (pre0 ++ r :: suf)) with (pre0 ++ suf).
    2:{ rewrite delete_middle. reflexivity. }
    replace (Z.of_nat (length pre0) + 1 - 1)
      with (Z.of_nat (length (emptyRow :: pre0)) - 1) by (simpl length; lia).
    change (emptyRow :: pre0 ++ suf) with ((emptyRow :: pre0) ++ suf).
    rewrite IH.
    + rewrite filter_cons_False by (rewrite emptyRow_not_complete; cbn; tauto).
      rewrite filter_cons_True by (rewrite emptyRow_not_complete; cbn; tauto).
      f_equal. f_equal; [|lia].
      rewrite Nat.add_1_r. simpl replicate.
      rewrite replicate_cons_app, <- !app_assoc. reflexivity.
    + rewrite filter_cons_False by (rewrite emptyRow_not_complete; cbn; tauto).
      simpl length. lia.
  - rewrite filter_cons_False in Hfuel |- * by (rewrite Er; cbn; tauto).
    rewrite (filter_cons_True _ r) by (rewrite Er; cbn; tauto).
    simpl (filter _ []) in Hfuel |- *. simpl length in Hfuel |- *.
    rewrite Nat.add_0_r in Hfuel |- *.
    rewrite (IH pre0 (r :: suf) lines) by lia.
    rewrite <- !app_assoc. reflexivity.
Qed.

Lemma completeRows_le b : (completeRows b ≤ Z.to_nat BOARD_HEIGHT)%nat.
Proof.
  unfold completeRows. etrans; [apply length_filter|].
  rewrite length_take. lia.
Qed.

(** The scan of [clearLines] on a board with all its rows. *)
Lemma clearLines_scan b :
  hasRows b →
  clearLines_loop (Z.to_nat (2 * BOARD_HEIGHT)) b (BOARD_HEIGHT - 1) 0 =
  Ok (cleared b, completeRows b).
Proof.
  intros Hb. unfold hasRows in Hb.
  rewrite <- (take_drop (Z.to_nat BOARD_HEIGHT) b) at 1.
  replace (BOARD_HEIGHT - 1)
    with (Z.of_nat (length (take (Z.to_nat BOARD_HEIGHT) b)) - 1).
  2:{ rewrite length_take, Nat.min_l by lia. unfold BOARD_HEIGHT. lia. }
  rewrite clearLines_loop_spec.
  - reflexivity.
  - pose proof (completeRows_le b). unfold completeRows in *.
    rewrite length_take. unfold BOARD_HEIGHT in *. lia.
Qed.

(** C2.  On a board with all its rows, of which [n] are complete,
    [clearLines] removes those rows and adds exactly [n] to the cumulative
    [linesCleared].  When [n > 0] it adds exactly [SCORE_TABLE[n] * level] to
    the score, with [SCORE_TABLE = [0, 40, 100, 300, 1200]] and
    [level = floor(linesCleared / 10) + 1] taken from the count after the
    addition.  When [n = 0] neither [linesCleared] nor the score changes. *)
Theorem clearLines_scoring (e : TetrisEngine) :
  hasRows (board e) →
  let n := completeRows (board e) in
  ∃ e', clearLines e = Ok e' ∧
    board e' = cleared (board e) ∧
    linesCleared e' = linesCleared e + Z.of_nat n ∧
    SCORE_TABLE = [0; 40; 100; 300; 1200] ∧
    ((0 < n)%nat →
     score e' = score e +
       default 0 (SCORE_TABLE !! n) * (linesCleared e' / 10 + 1)) ∧
    (n = 0%nat → linesCleared e' = linesCleared e ∧ score e' = score e).
Proof.
  intros Hb n. unfold clearLines. rewrite (clearLines_scan _ Hb). simpl.
  fold n. destruct (0 <? n)%nat eqn:En.
  - eexists. split; [reflexivity|]. simpl. unfold getLevel. simpl.
    apply Nat.ltb_lt in En. repeat split; try done; lia.
  - eexists. split; [reflexivity|]. simpl.
    apply Nat.ltb_ge in En. assert (n = 0%nat) as -> by lia.
    repeat split; try done; lia.
Qed.

Lemma clearLines_scoring_witness :
  ∃ e', clearLines sampleLine = Ok e' ∧
    board e' = cleared (board sampleLine) ∧
    linesCleared e' = 9 + Z.of_nat 1 ∧
    SCORE_TABLE = [0; 40; 100; 300; 1200] ∧
    ((0 < 1)%nat → score e' = 0 + 40 * (linesCleared e' / 10 + 1)) ∧
    (1%nat = 0%nat → linesCleared e' = 9 ∧ score e' = 0).
Proof.
  apply (clearLines_scoring sampleLine).
  unfold hasRows. vm_compute. lia.
Defined.

(** ** Rotation *)

(** The inner loop over the first [n] columns touches row [c] of the
    result once, when [c < n]. *)
Lemma rotate_inner_lookup m row result n c :
  foldl (rotateAssign m row) result (seq 0 n) !! c =
  if decide (c < n)%nat
  then <[(length m - row - 1)%nat := entry m row c]> <$> result !! c
  else result !! c.
Proof.
  induction n as [|n IH].
  { cbn [seq foldl]. destruct (decide (c < 0)%nat); [lia|done]. }
  rewrite seq_S, foldl_app. cbn [foldl Nat.add]. unfold rotateAssign at 1.
  destruct (decide (c = n)) as [->|Hne].
  - rewrite list_lookup_alter_eq, IH. repeat case_decide; try lia. done.
  - rewrite list_lookup_alter_ne, IH by done. repeat case_decide; try lia; done.
Qed.

Lemma rotatePartial_insert m k c :
  (k < length m)%nat →
  <[(length m - k - 1)%nat := entry m k c]> (rotatePartial m k c) =
  rotatePartial m (S k) c.
Proof.
  intros Hk. apply list_eq. intros j. unfold rotatePartial.
  destruct (decide (j < length m)%nat) as [Hj|Hj].
  2:{ rewrite list_lookup_insert_ne by lia.
      rewrite !list_lookup_fmap, !lookup_seq_ge by lia. done. }
  destruct (decide (j = length m - k - 1)%nat) as [->|Hne].
  - rewrite list_lookup_insert_eq by (rewrite length_fmap, length_seq; lia).
    rewrite list_lookup_fmap, lookup_seq_lt by lia. simpl.
    case_decide; [|lia]. do 2 f_equal. lia.
  - rewrite list_lookup_insert_ne by lia.
    rewrite !list_lookup_fmap, !lookup_seq_lt by lia. simpl.
    repeat case_decide; try lia; done.
Qed.

(** The outer loop, after the first [k] rows of the source. *)
Lemma rotate_outer m cols k :
  (k ≤ length m)%nat →
  foldl (fun result row => foldl (rotateAssign m row) result (seq 0 cols))
        (replicate cols (replicate (length m) 0)) (seq 0 k) =
  (fun c => rotatePartial m k c) <$> seq 0 cols.
Proof.
  induction k as [|k IH]; intros Hk.
  { simpl. apply list_eq. intros c.
    rewrite list_lookup_fmap.
    destruct (decide (c < cols)%nat).
    - rewrite lookup_replicate_2, lookup_seq_lt by lia. simpl. f_equal.
      apply list_eq. intros j. unfold rotatePartial.
      rewrite list_lookup_fmap.
      destruct (decide (j < length m)%nat).
      + rewrite lookup_replicate_2, lookup_seq_lt by lia. simpl.
        repeat case_decide; try lia; done.
      + rewrite lookup_seq_ge by lia. simpl.
        apply lookup_replicate_None. lia.
    - rewrite lookup_seq_ge by lia. simpl. apply lookup_replicate_None. lia. }
  rewrite seq_S, foldl_app, IH by lia. simpl.
  apply list_eq. intros c. rewrite rotate_inner_lookup.
  rewrite !list_lookup_fmap.
  destruct (decide (c < cols)%nat).
  - rewrite lookup_seq_lt by lia. simpl. f_equal.
    apply rotatePartial_insert. lia.
  - rewrite lookup_seq_ge by lia. done.
Qed.

(** [rotateMatrix] computes the closed form. *)
Lemma rotateMatrix_quarterTurn (m : list (list Z)) :
  m ≠ [] → rotateMatrix m = Ok (quarterTurn m).
Proof.
  intros Hm. destruct m as [|first rest]; [done|].
  unfold rotateMatrix, quarterTurn. f_equal.
  set (m := first :: rest).
  etrans; [apply (rotate_outer m (length first) (length m)); lia|].
  apply list_fmap_ext. intros _ c _.
  apply list_fmap_ext. intros i j Hj.
  apply lookup_seq in Hj as [-> Hj]. case_decide; [done|lia].
Qed.

(** The closed form, cell by cell: the result is [cols] by [rows] and
    [result[c][rows - 1 - r] = source[r][c]]. *)
Lemma quarterTurn_cells (m : list (list Z)) :
  let rows := length m in
  let cols := length (default [] (m !! 0%nat)) in
  length (quarterTurn m) = cols ∧
  (∀ cells, cells ∈ quarterTurn m → length cells = rows) ∧
  (∀ r c, (r < rows)%nat → (c < cols)%nat →
     entry (quarterTurn m) c (rows - 1 - r) = entry m r c).
Proof.
  intros rows cols. unfold quarterTurn. fold rows cols. repeat split.
  - by rewrite length_fmap, length_seq.
  - intros cells Hin. apply list_elem_of_fmap in Hin as (c & -> & _).
    by rewrite length_fmap, length_seq.
  - intros r c Hr Hc. unfold entry at 1.
    rewrite list_lookup_fmap, lookup_seq_lt by lia. simpl.
    rewrite list_lookup_fmap, lookup_seq_lt by lia. simpl.
    f_equal. lia.
Qed.

(** On a board with all its rows the collision test returns. *)
Lemma canPlace_returns b m x y :
  hasRows b → canPlace b m x y = Ok true ∨ canPlace b m x y = Ok false.
Proof.
  intros Hb. unfold canPlace.
  destruct (canPlace_rows_spec b x y m Hb 0%nat) as [[E _]|[E _]]; auto.
Qed.

(** The wall-kick search takes the first offset that fits. *)
Lemma rotatePiece_kicks_spec b p rotated ks :
  hasRows b →
  (∃ pre off post, ks = pre ++ off :: post ∧
     (∀ o, o ∈ pre →
        canPlace b rotated (Piece.x p + o) (Piece.y p) = Ok false) ∧
     canPlace b rotated (Piece.x p + off) (Piece.y p) = Ok true ∧
     rotatePiece_kicks b p rotated ks =
     Ok (Piece.Build (Piece.type p) rotated (Piece.x p + off) (Piece.y p))) ∨
  ((∀ o, o ∈ ks →
      canPlace b rotated (Piece.x p + o) (Piece.y p) = Ok false) ∧
   rotatePiece_kicks b p rotated ks = Ok p).
Proof.
  intros Hb. induction ks as [|k ks IH].
  { right. split; [|done]. intros o Ho. by apply elem_of_nil in Ho. }
  simpl.
  destruct (canPlace_returns b rotated (Piece.x p + k) (Piece.y p) Hb)
    as [E|E]; rewrite E; simpl.
  - left. exists [], k, ks. repeat split; try done.
    intros o Ho. by apply elem_of_nil in Ho.
  - destruct IH as [(pre & off & post & -> & Hpre & Hoff & ->)|[Hall ->]].
    + left. exists (k :: pre), off, post. repeat split; try done.
      intros o Ho. apply elem_of_cons in Ho as [->|Ho]; auto.
    + right. split; [|done].
      intros o Ho. apply elem_of_cons in Ho as [->|Ho]; auto.
Qed.

Lemma with_currentPiece_same e p :
  currentPiece e = Some p → with_currentPiece (Some p) e = e.
Proof. destruct e; simpl; intros ->; reflexivity. Qed.

(** C3.  In a running state with an active piece whose shape matrix is
    [R] by [C], [handleAction('rotate')] computes the quarter turn clockwise
    of the matrix, the [C] by [R] matrix with
    [result[c][R-1-r] = source[r][c]], then tries the x offsets
    0, -1, +1, -2, +2 in this order at the piece's own y.  The engine it
    leaves has as active piece the same kind with the rotated matrix, at the
    first offset that places without collision and at the same y, and every
    other field as before; when no offset places, the engine is left exactly
    as it was. *)
Theorem rotate_wall_kick (e : TetrisEngine) (p : ActivePiece) :
  isRunning e = true → currentPiece e = Some p → hasRows (board e) →
  Piece.matrix p ≠ [] →
  let m := Piece.matrix p in
  let R := length m in
  let C := length (default [] (m !! 0%nat)) in
  ∃ rotated,
    rotateMatrix m = Ok rotated ∧
    length rotated = C ∧
    (∀ cells, cells ∈ rotated → length cells = R) ∧
    (∀ r c, (r < R)%nat → (c < C)%nat →
       entry rotated c (R - 1 - r) = entry m r c) ∧
    kicks = [0; -1; 1; -2; 2] ∧
    ((∃ pre off post e', kicks = pre ++ off :: post ∧
        (∀ o, o ∈ pre →
           canPlace (board e) rotated (Piece.x p + o) (Piece.y p) = Ok false) ∧
        canPlace (board e) rotated (Piece.x p + off) (Piece.y p) = Ok true ∧
        handleAction Action.rotate e = Ok e' ∧
        (∃ p', currentPiece e' = Some p' ∧
               Piece.type p' = Piece.type p ∧
               Piece.matrix p' = rotated ∧
               Piece.x p' = Piece.x p + off ∧
               Piece.y p' = Piece.y p) ∧
        board e' = board e ∧ queue e' = queue e ∧
        running e' = running e ∧ score e' = score e ∧
        linesCleared e' = linesCleared e ∧ gameOver e' = gameOver e ∧
        random e' = random e) ∨
     ((∀ o, o ∈ kicks →
         canPlace (board e) rotated (Piece.x p + o) (Piece.y p) = Ok false) ∧
      handleAction Action.rotate e = Ok e ∧
      currentPiece e = Some p)).
Proof.
  intros Hrun Hp Hb Hm m R C.
  exists (quarterTurn m).
  destruct (quarterTurn_cells m) as (Hlen & Hrows & Hcells).
  split; [by apply rotateMatrix_quarterTurn|].
  do 4 (split; [done|]).
  unfold handleAction. rewrite Hrun. cbn [negb].
  unfold rotatePiece. rewrite Hp. fold m.
  rewrite (rotateMatrix_quarterTurn m Hm). cbn [andThen].
  destruct (rotatePiece_kicks_spec (board e) p (quarterTurn m) kicks Hb)
    as [(pre & off & post & Hk & Hpre & Hoff & ->)|[Hall ->]]; cbn [andThen].
  - left. exists pre, off, post. eexists.
    do 3 (split; [done|]). split; [reflexivity|]. cbn.
    split; [|done]. eexists. split; [reflexivity|]. done.
  - right. split; [done|]. split; [|done]. by rewrite with_currentPiece_same.
Qed.

Lemma rotate_wall_kick_witness :
  ∃ e', handleAction Action.rotate sampleRotating = Ok e' ∧
    (∃ p', currentPiece e' = Some p' ∧
           Piece.type p' = Tetromino.T ∧
           Piece.matrix p' = [[1; 1; 1]; [0; 1; 0]] ∧
           Piece.x p' = 7 ∧ Piece.y p' = 5) ∧
    board e' = board sampleRotating ∧ queue e' = queue sampleRotating ∧
    score e' = score sampleRotating.
Proof.
  destruct (rotate_wall_kick sampleRotating
              (Piece.Build Tetromino.T [[1; 0]; [1; 1]; [1; 0]] 8 5))
    as (rotated & Hrot & _ & _ & _ & _ & Hkick).
  - reflexivity.
  - reflexivity.
  - unfold hasRows. vm_compute. lia.
  - discriminate.
  - assert (rotated = [[1; 1; 1]; [0; 1; 0]]) as ->.
    { vm_compute in Hrot. by injection Hrot as <-. }
    assert (Hin : -1 ∈ [0; -1; 1; -2; 2]).
    { apply elem_of_cons. right. apply elem_of_cons. by left. }
    destruct Hkick as [(pre & off & post & e' & Hk & Hpre & Hoff & He & Hp'
                        & Hb' & Hq' & _ & Hs' & _)|(Hall & _)].
    + exists e'. split; [exact He|]. split; [|done].
      destruct Hp' as (p' & E & Ht & Hm' & Hx & Hy).
      exists p'. do 3 (split; [done|]). split; [|exact Hy].
      rewrite Hx. cbn [Piece.x].
      destruct pre as [|a [|a' pre]].
      * injection Hk as <- _. vm_compute in Hoff. discriminate.
      * injection Hk as _ <- _. reflexivity.
      * injection Hk as _ <- _.
        specialize (Hpre (-1)). cbn [Piece.x Piece.y] in Hpre.
        assert (Hc : canPlace (board sampleRotating) [[1; 1; 1]; [0; 1; 0]]
                       (8 + -1) 5 = Ok false).
        { apply Hpre. apply elem_of_cons. right. apply elem_of_cons.
          by left. }
        vm_compute in Hc. discriminate.
    + specialize (Hall (-1) Hin). vm_compute in Hall. discriminate.
Defined.

(** ** The queue *)

Lemma swap_length items i j : length (swap items i j) = length items.
Proof.
  unfold swap. destruct (items !! i), (items !! j); try done.
  by rewrite !length_insert.
Qed.

Lemma shuffle_loop_length i : ∀ items g,
  length (shuffle_loop i items g).1 = length items.
Proof.
  induction i as [|i IH]; intros items g; [done|].
  cbn [shuffle_loop]. destruct (randomBelow _ g) as [j g'].
  rewrite IH. apply swap_length.
Qed.

Lemma shuffle_length items g : length (shuffle items g).1 = length items.
Proof. apply shuffle_loop_length. Qed.

(** [ensureQueue] returns: it appends a bag of seven to a queue shorter
    than seven and leaves any other queue alone. *)
Lemma ensureQueue_spec e :
  ∃ bag g,
    ensureQueue e =
    Ok {| board := board e; queue := queue e ++ bag;
          currentPiece := currentPiece e; running := running e;
          score := score e; linesCleared := linesCleared e;
          gameOver := gameOver e; random := g |} ∧
    (7 ≤ length (queue e ++ bag))%nat ∧
    ((7 ≤ length (queue e))%nat → bag = [] ∧ g = random e) ∧
    ((length (queue e) < 7)%nat → length bag = 7%nat).
Proof.
  unfold ensureQueue.
  change (length TETROMINO_ORDER) with 7%nat.
  cbn [ensureQueue_loop]. change (length TETROMINO_ORDER) with 7%nat.
  destruct (length (queue e) <? 7)%nat eqn:E.
  - apply Nat.ltb_lt in E.
    pose proof (shuffle_length TETROMINO_ORDER (random e)) as Hlen.
    destruct (shuffle TETROMINO_ORDER (random e)) as [bag g].
    simpl in Hlen.
    replace (length (queue e ++ bag) <? 7)%nat with false.
    2:{ symmetry. apply Nat.ltb_ge. rewrite length_app. lia. }
    exists bag, g. cbn. rewrite length_app.
    repeat split; try lia; done.
  - apply Nat.ltb_ge in E. exists [], (random e). cbn.
    rewrite !app_nil_r. repeat split; try lia; done.
Qed.

Lemma candidate_matrix_nonempty t : getMatrixForType t ≠ [].
Proof. by destruct t. Qed.

(** [spawnNextPiece] on a board with all its rows: the head of the
    topped-up queue is taken, and either its candidate fits and becomes the
    active piece, or the engine goes to game over. *)
Lemma spawnNextPiece_spec e :
  hasRows (board e) →
  ∃ bag g t rest,
    queue e ++ bag = t :: rest ∧ (6 ≤ length rest)%nat ∧
    ((7 ≤ length (queue e))%nat → bag = [] ∧ g = random e) ∧
    ((canPlace (board e) (getMatrixForType t) (Piece.x (candidate t)) (-1)
        = Ok true ∧
      spawnNextPiece e =
      Ok {| board := board e; queue := rest;
            currentPiece := Some (candidate t); running := running e;
            score := score e; linesCleared := linesCleared e;
            gameOver := gameOver e; random := g |}) ∨
     (canPlace (board e) (getMatrixForType t) (Piece.x (candidate t)) (-1)
        = Ok false ∧
      spawnNextPiece e =
      Ok {| board := board e; queue := rest;
            currentPiece := None; running := false;
            score := score e; linesCleared := linesCleared e;
            gameOver := true; random := g |})).
Proof.
  intros Hb. unfold spawnNextPiece.
  destruct (ensureQueue_spec e) as (bag & g & -> & Hlen & Hfull & _).
  cbn [andThen queue].
  destruct (queue e ++ bag) as [|t rest] eqn:Eq; [simpl in Hlen; lia|].
  exists bag, g, t, rest. split; [done|]. split; [simpl in Hlen; lia|].
  split; [done|].
  assert (Hx : ∀ first more, getMatrixForType t = first :: more →
            (BOARD_WIDTH - Z.of_nat (length first)) / 2 = Piece.x (candidate t)).
  { intros first more E. unfold candidate. by rewrite E. }
  destruct (getMatrixForType t) as [|first more] eqn:Em.
  { by destruct (candidate_matrix_nonempty t). }
  rewrite (Hx first more eq_refl). cbn [with_queue board].
  destruct (canPlace_returns (board e) (first :: more)
              (Piece.x (candidate t)) (-1) Hb) as [E|E]; rewrite E.
  - left. split; [done|]. cbn. unfold candidate. by rewrite Em.
  - right. split; [done|]. reflexivity.
Qed.

(** ** Locking *)

Lemma boardOk_hasRows b : boardOk b → hasRows b.
Proof. intros [Hlen _]. unfold hasRows. lia. Qed.

Lemma createEmptyBoard_ok : boardOk createEmptyBoard.
Proof.
  split; [reflexivity|]. unfold createEmptyBoard.
  apply Forall_replicate. reflexivity.
Qed.

Lemma writeCell_ok b boardY boardX t :
  boardOk b → 0 ≤ boardY < BOARD_HEIGHT → 0 ≤ boardX < BOARD_WIDTH →
  ∃ b', writeCell b boardY boardX t = Ok b' ∧ boardOk b'.
Proof.
  intros [Hlen Hrows] Hy Hx. unfold writeCell.
  destruct (b !! Z.to_nat boardY) as [brow|] eqn:E.
  2:{ apply lookup_ge_None in E. lia. }
  assert (Hw : length brow = Z.to_nat BOARD_WIDTH).
  { eapply Forall_lookup_1 in Hrows; eauto. }
  replace (Z.to_nat boardX <? length brow)%nat with true
    by (symmetry; apply Nat.ltb_lt; lia).
  eexists. split; [reflexivity|]. split.
  - by rewrite length_insert.
  - apply Forall_insert; [done|]. by rewrite length_insert.
Qed.

Lemma lock_cols_ok x y t row cells : ∀ b col,
  boardOk b → ∃ b', lock_cols b x y t row col cells = Ok b' ∧ boardOk b'.
Proof.
  induction cells as [|v rest IH]; intros b col Hb; [by exists b|].
  cbn [lock_cols].
  destruct (negb (truthy v)); [by apply IH|].
  destruct (y + Z.of_nat row <? 0) eqn:Ey0; [by apply IH|].
  destruct ((y + Z.of_nat row >=? BOARD_HEIGHT) || (x + Z.of_nat col <? 0)
            || (x + Z.of_nat col >=? BOARD_WIDTH)) eqn:Eo; [by apply IH|].
  apply orb_false_iff in Eo as [Eo Ex1]. apply orb_false_iff in Eo as [Ey1 Ex0].
  rewrite Z.geb_leb in Ey1, Ex1.
  apply Z.ltb_ge in Ey0, Ex0. apply Z.leb_gt in Ey1, Ex1.
  destruct (writeCell_ok b (y + Z.of_nat row) (x + Z.of_nat col) t Hb)
    as (b' & -> & Hb'); [lia|lia|].
  cbn [andThen]. by apply IH.
Qed.

Lemma lock_rows_ok x y t rows : ∀ b row,
  boardOk b → ∃ b', lock_rows b x y t row rows = Ok b' ∧ boardOk b'.
Proof.
  induction rows as [|cells rest IH]; intros b row Hb; [by exists b|].
  cbn [lock_rows].
  destruct (lock_cols_ok x y t row cells b 0%nat Hb) as (b' & -> & Hb').
  cbn [andThen]. by apply IH.
Qed.

(** [lockCurrentPiece] on a well-formed board returns; it keeps the board
    well formed, clears the active piece and touches nothing else. *)
Lemma lockCurrentPiece_spec e p :
  boardOk (board e) → currentPiece e = Some p →
  ∃ b', boardOk b' ∧
    lockCurrentPiece e =
    Ok {| board := b'; queue := queue e; currentPiece := None;
          running := running e; score := score e;
          linesCleared := linesCleared e; gameOver := gameOver e;
          random := random e |}.
Proof.
  intros Hb Hp. unfold lockCurrentPiece. rewrite Hp.
  destruct (lock_rows_ok (Piece.x p) (Piece.y p) (Piece.type p)
              (Piece.matrix p) (board e) 0%nat Hb) as (b' & -> & Hb').
  exists b'. split; [done|]. reflexivity.
Qed.

Lemma filter_complement_length {A} (P : A → Prop) `{∀ a, Decision (P a)}
    (l : list A) :
  (length (filter P l) + length (filter (fun a => ¬ P a) l) = length l)%nat.
Proof.
  induction l as [|a l IH]; [done|].
  destruct (decide (P a)).
  - rewrite filter_cons_True, (filter_cons_False (fun a => ¬ P a)) by tauto.
    simpl. lia.
  - rewrite filter_cons_False, (filter_cons_True (fun a => ¬ P a)) by tauto.
    simpl. lia.
Qed.

Lemma cleared_ok b : boardOk b → boardOk (cleared b).
Proof.
  intros [Hlen Hrows]. unfold cleared, completeRows.
  rewrite drop_ge, app_nil_r, firstn_all2 by lia. split.
  - rewrite length_app, length_replicate, filter_complement_length. done.
  - apply Forall_app. split.
    + apply Forall_replicate. reflexivity.
    + apply Forall_forall. intros cells Hin.
      apply list_elem_of_filter in Hin as [_ Hin].
      by eapply Forall_forall in Hrows.
Qed.

(** [clearLines] on a board with all its rows, as one equation. *)
Lemma clearLines_spec e :
  hasRows (board e) →
  ∃ sc ln,
    clearLines e =
    Ok {| board := cleared (board e); queue := queue e;
          currentPiece := currentPiece e; running := running e;
          score := sc; linesCleared := ln; gameOver := gameOver e;
          random := random e |} ∧
    ln = linesCleared e + Z.of_nat (completeRows (board e)) ∧
    sc = score e +
         default 0 (SCORE_TABLE !! completeRows (board e)) * (ln / 10 + 1).
Proof.
  intros Hb. unfold clearLines. rewrite (clearLines_scan _ Hb).
  cbn [andThen].
  destruct (0 <? completeRows (board e))%nat eqn:En.
  - do 2 eexists. split; [reflexivity|]. cbn. unfold getLevel. cbn. done.
  - apply Nat.ltb_ge in En.
    assert (completeRows (board e) = 0%nat) as -> by lia.
    exists (score e), (linesCleared e). split; [reflexivity|]. cbn. lia.
Qed.

(** ** Descent *)

Lemma pieceOk_filled p : pieceOk p → ∃ r c, filled (Piece.matrix p) r c.
Proof.
  intros (r & c & _ & _ & Hne). exists r, c. unfold filled, entry in *.
  destruct (Piece.matrix p !! r) as [cells|]; [|done]. simpl in Hne.
  destruct (cells !! c) as [v|] eqn:Ec; [|done]. simpl in Hne. eauto.
Qed.

(** A shape with a filled cell never places at the bottom edge or below. *)
Lemma canPlace_true_above b m x y :
  hasRows b → (∃ r c, filled m r c) → canPlace b m x y = Ok true →
  y < BOARD_HEIGHT.
Proof.
  intros Hb (r & c & Hf) E. unfold canPlace in E.
  destruct (canPlace_rows_spec b x y m Hb 0%nat) as [[E' _]|[_ Hall]];
    [congruence|].
  specialize (Hall r c Hf). simpl in Hall. unfold rejected in Hall.
  destruct (decide (y < BOARD_HEIGHT)); [done|].
  exfalso. apply Hall. right; right; left. lia.
Qed.

Lemma with_y_same p : with_y (Piece.y p) p = p.
Proof. by destruct p. Qed.

(** The loop of [hardDrop] ends within the rounds granted, on the landing
    row, having counted the rows travelled. *)
Lemma hardDrop_loop_spec b fuel : ∀ p distance,
  hasRows b → (∃ r c, filled (Piece.matrix p) r c) →
  (Z.to_nat (BOARD_HEIGHT - Piece.y p) ≤ fuel)%nat →
  ∃ y', hardDrop_loop fuel b p distance =
        Ok (with_y y' p, distance + (y' - Piece.y p)) ∧
        landing b p (Piece.y p) y'.
Proof.
  induction fuel as [|fuel IH]; intros p distance Hb Hf Hfuel.
  - cbn [hardDrop_loop].
    destruct (canPlace_returns b (Piece.matrix p) (Piece.x p) (Piece.y p + 1) Hb)
      as [E|E]; rewrite E; cbn [andThen].
    + apply canPlace_true_above in E; [|done..]. lia.
    + exists (Piece.y p). rewrite with_y_same. split; [f_equal; f_equal; lia|].
      split; [lia|]. split; [intros; lia|done].
  - cbn [hardDrop_loop].
    destruct (canPlace_returns b (Piece.matrix p) (Piece.x p) (Piece.y p + 1) Hb)
      as [E|E]; rewrite E; cbn [andThen].
    + pose proof (canPlace_true_above _ _ _ _ Hb Hf E) as Hy.
      destruct (IH (with_y (Piece.y p + 1) p) (distance + 1) Hb Hf)
        as (y' & -> & Hle & Hway & Hend); [simpl; lia|].
      simpl in *. exists y'. split; [f_equal; f_equal; lia|].
      split; [lia|]. split; [|done]. intros k Hk.
      destruct (decide (k = Piece.y p + 1)) as [->|]; [done|].
      apply Hway. lia.
    + exists (Piece.y p). rewrite with_y_same. split; [f_equal; f_equal; lia|].
      split; [lia|]. split; [intros; lia|done].
Qed.

(** The loop of [computeGhostY] ends on the same row. *)
Lemma computeGhostY_loop_spec b p fuel : ∀ y0,
  hasRows b → (∃ r c, filled (Piece.matrix p) r c) →
  (Z.to_nat (BOARD_HEIGHT - y0) ≤ fuel)%nat →
  ∃ y', computeGhostY_loop fuel b p y0 = Ok y' ∧ landing b p y0 y'.
Proof.
  induction fuel as [|fuel IH]; intros y0 Hb Hf Hfuel.
  - cbn [computeGhostY_loop].
    destruct (canPlace_returns b (Piece.matrix p) (Piece.x p) (y0 + 1) Hb)
      as [E|E]; rewrite E; cbn [andThen].
    + apply canPlace_true_above in E; [|done..]. lia.
    + exists y0. split; [done|]. split; [lia|]. split; [intros; lia|done].
  - cbn [computeGhostY_loop].
    destruct (canPlace_returns b (Piece.matrix p) (Piece.x p) (y0 + 1) Hb)
      as [E|E]; rewrite E; cbn [andThen].
    + pose proof (canPlace_true_above _ _ _ _ Hb Hf E) as Hy.
      destruct (IH (y0 + 1) Hb Hf) as (y' & -> & Hle & Hway & Hend); [lia|].
      exists y'. split; [done|]. split; [lia|]. split; [|done]. intros k Hk.
      destruct (decide (k = y0 + 1)) as [->|]; [done|]. apply Hway. lia.
    + exists y0. split; [done|]. split; [lia|]. split; [intros; lia|done].
Qed.

(** The landing row is unique: it is the greatest row the descent reaches. *)
Lemma landing_unique b p y0 y1 y2 :
  landing b p y0 y1 → landing b p y0 y2 → y1 = y2.
Proof.
  intros (H1 & W1 & E1) (H2 & W2 & E2).
  destruct (Z.lt_trichotomy y1 y2) as [Hlt|[->|Hlt]]; [|done|].
  - rewrite (W2 (y1 + 1)) in E1 by lia. done.
  - rewrite (W1 (y2 + 1)) in E2 by lia. done.
Qed.

(** ** [getRenderState] and the ghost row *)

(** C9.  On a board with all its rows and a piece with a filled cell, the
    [ghostY] of [getRenderState()] is the row the active piece lands on if
    hard-dropped now: the descent loop of [hardDrop] ends on that row, every
    row from the piece's own down to it places without collision and the
    row after it does not, so it is the greatest row the descent reaches.
    [ghostY] is [null] exactly when there is no active piece. *)
Theorem ghostY_landing_row (e : TetrisEngine) :
  hasRows (board e) →
  (∀ p, currentPiece e = Some p → ∃ r c, filled (Piece.matrix p) r c) →
  ∃ rs e', getRenderState e = Ok (rs, e') ∧
    (Render.ghostY rs = None ↔ currentPiece e = None) ∧
    (∀ p, currentPiece e = Some p →
       ∃ y', Render.ghostY rs = Some y' ∧
         hardDrop_loop (dropFuel p) (board e) p 0 =
           Ok (with_y y' p, y' - Piece.y p) ∧
         landing (board e) p (Piece.y p) y' ∧
         (∀ y'', landing (board e) p (Piece.y p) y'' → y'' = y')).
Proof.
  intros Hb Hf. unfold getRenderState.
  destruct (ensureQueue_spec e) as (bag & g & -> & _). cbn [andThen].
  unfold computeGhostY. cbn [currentPiece board].
  destruct (currentPiece e) as [p|] eqn:Hp.
  - destruct (computeGhostY_loop_spec (board e) p (dropFuel p) (Piece.y p) Hb)
      as (y' & -> & Hland); [eauto|done|].
    cbn [andThen]. do 2 eexists. split; [reflexivity|]. cbn.
    split; [split; discriminate|].
    intros p' [= <-]. exists y'. split; [done|].
    destruct (hardDrop_loop_spec (board e) (dropFuel p) p 0 Hb)
      as (y1 & E & Hland1); [eauto|done|].
    assert (y1 = y') as -> by eauto using landing_unique.
    rewrite E. split; [done|]. split; [done|].
    intros y'' H''. eauto using landing_unique.
  - cbn [andThen]. do 2 eexists. split; [reflexivity|]. cbn.
    split; [done|]. intros p [=].
Qed.

Lemma ghostY_landing_row_witness :
  ∃ rs e', getRenderState sampleDropping = Ok (rs, e') ∧
    (Render.ghostY rs = None ↔ currentPiece sampleDropping = None) ∧
    (∀ p, currentPiece sampleDropping = Some p →
       ∃ y', Render.ghostY rs = Some y' ∧
         hardDrop_loop (dropFuel p) (board sampleDropping) p 0 =
           Ok (with_y y' p, y' - Piece.y p) ∧
         landing (board sampleDropping) p (Piece.y p) y' ∧
         (∀ y'', landing (board sampleDropping) p (Piece.y p) y'' →
                 y'' = y')).
Proof.
  apply (ghostY_landing_row sampleDropping).
  - unfold hasRows. vm_compute. lia.
  - intros p [= <-]. exists 0%nat, 0%nat, [1], 1.
    split; [reflexivity|]. split; [reflexivity|discriminate].
Defined.

(** ** The session invariant *)

Lemma candidate_ok t : pieceOk (candidate t).
Proof.
  destruct t;
    [ exists 0%nat, 0%nat | exists 0%nat, 0%nat | exists 0%nat, 2%nat
    | exists 0%nat, 0%nat | exists 0%nat, 1%nat | exists 0%nat, 1%nat
    | exists 0%nat, 0%nat ];
    cbn; repeat split; (lia || discriminate).
Qed.

Lemma quarterTurn_first m :
  (0 < length (default [] (m !! 0%nat)))%nat →
  length (default [] (quarterTurn m !! 0%nat)) = length m.
Proof.
  intros HC. unfold quarterTurn.
  rewrite list_lookup_fmap, lookup_seq_lt by lia. simpl.
  by rewrite length_fmap, length_seq.
Qed.

Lemma pieceOk_nonempty p : pieceOk p → Piece.matrix p ≠ [].
Proof. intros (r & c & Hr & _) E. rewrite E in Hr. simpl in Hr. lia. Qed.

Lemma pieceOk_rotated p x' :
  pieceOk p →
  pieceOk (Piece.Build (Piece.type p) (quarterTurn (Piece.matrix p)) x'
                       (Piece.y p)).
Proof.
  intros (r & c & Hr & Hc & Hne). unfold pieceOk. cbn [Piece.matrix].
  destruct (quarterTurn_cells (Piece.matrix p)) as (Hlen & _ & Hcells).
  exists c, (length (Piece.matrix p) - 1 - r)%nat.
  rewrite Hlen, quarterTurn_first by lia.
  split; [done|]. split; [lia|]. by rewrite Hcells.
Qed.

Lemma score_table_nonneg n : 0 ≤ default 0 (SCORE_TABLE !! n).
Proof.
  unfold SCORE_TABLE.
  do 5 (destruct n as [|n]; [simpl; lia|]). simpl. lia.
Qed.

(** The tail shared by the blocked branch of [stepDown] and by [hardDrop]:
    lock, clear lines, spawn. *)
Lemma lock_clear_spawn_spec e p :
  boardOk (board e) → currentPiece e = Some p →
  ∃ e',
    (let* e := lockCurrentPiece e in
     let* e := clearLines e in
     spawnNextPiece e) = Ok e' ∧
    boardOk (board e') ∧
    (6 ≤ length (queue e'))%nat ∧
    linesCleared e ≤ linesCleared e' ∧
    (0 ≤ linesCleared e → score e ≤ score e') ∧
    ((∃ t, currentPiece e' = Some (candidate t) ∧
           gameOver e' = gameOver e ∧ running e' = running e) ∨
     (currentPiece e' = None ∧ gameOver e' = true ∧ running e' = false)).
Proof.
  intros Hb Hp.
  destruct (lockCurrentPiece_spec e p Hb Hp) as (b1 & Hb1 & ->).
  cbn [andThen].
  match goal with |- context [clearLines ?s] =>
    destruct (clearLines_spec s) as (sc & ln & -> & Hln & Hsc) end.
  { by apply boardOk_hasRows. }
  cbn [andThen]. cbn in Hln, Hsc.
  match goal with |- context [spawnNextPiece ?s] =>
    destruct (spawnNextPiece_spec s)
      as (bag & g & t & rest & _ & Hrest & _ & Hspawn) end.
  { cbn. by apply boardOk_hasRows, cleared_ok. }
  pose proof (score_table_nonneg (completeRows b1)) as Htab.
  assert (Hmono : 0 ≤ linesCleared e → score e ≤ sc).
  { intros H0. assert (0 ≤ ln / 10) by (apply Z.div_pos; lia). nia. }
  destruct Hspawn as [[_ ->]|[_ ->]]; eexists; (split; [reflexivity|]); cbn.
  - repeat split; try done; try lia; try by apply cleared_ok.
    left. by exists t.
  - repeat split; try done; try lia; try by apply cleared_ok.
    by right.
Qed.

Lemma pieceOk_same_matrix p p' :
  Piece.matrix p' = Piece.matrix p → pieceOk p → pieceOk p'.
Proof. unfold pieceOk. by intros ->. Qed.

Lemma advances_refl e : stateOk e → advances e e.
Proof. intros He. split; [done|]. lia. Qed.

Lemma not_over e p :
  stateOk e → currentPiece e = Some p → gameOver e = false.
Proof.
  intros He Hp. destruct (gameOver e) eqn:E; [|done].
  apply (ok_over e He) in E. congruence.
Qed.

(** [stepDown] in a session returns and keeps the session going. *)
Lemma stepDown_ok manual e :
  stateOk e → ∃ e', stepDown manual e = Ok e' ∧ advances e e'.
Proof.
  intros He. pose proof He as [Hb Hpc Hq Hov Hsc Hln].
  unfold stepDown. destruct (currentPiece e) as [p|] eqn:Hp.
  2:{ exists e. split; [done|]. by apply advances_refl. }
  destruct (canPlace_returns (board e) (Piece.matrix p) (Piece.x p)
              (Piece.y p + 1)) as [E|E]; [by apply boardOk_hasRows|..];
    rewrite E; cbn [andThen].
  - destruct manual; eexists; (split; [reflexivity|]);
      (split; [split|]); cbn; try done; try lia.
    all: try (intros p' [= <-]; eapply pieceOk_same_matrix; [|eauto]; done).
    all: rewrite (not_over e p He Hp); done.
  - destruct (lock_clear_spawn_spec e p Hb Hp)
      as (e' & -> & Hb' & Hq' & Hln' & Hsc' & Hpiece).
    exists e'. split; [done|]. split; [split|]; try done; try lia.
    + intros p' Hp'. destruct Hpiece as [(t & Ht & _)|(Hn & _)]; [|congruence].
      rewrite Ht in Hp'. injection Hp' as <-. apply candidate_ok.
    + destruct Hpiece as [(t & -> & -> & _)|(-> & -> & _)]; [|done].
      rewrite (not_over e p He Hp). done.
Qed.

(** [hardDrop] in a session returns and keeps the session going. *)
Lemma hardDrop_ok e :
  stateOk e → ∃ e', hardDrop e = Ok e' ∧ advances e e'.
Proof.
  intros He. pose proof He as [Hb Hpc Hq Hov Hsc Hln].
  unfold hardDrop. destruct (currentPiece e) as [p|] eqn:Hp.
  2:{ exists e. split; [done|]. by apply advances_refl. }
  destruct (hardDrop_loop_spec (board e) (dropFuel p) p 0)
    as (y' & -> & Hle & _); [by apply boardOk_hasRows| |done|].
  { apply pieceOk_filled. eauto. }
  cbn [andThen].
  set (e1 := with_currentPiece (Some (with_y y' p)) e).
  set (e2 := if 0 + (y' - Piece.y p) >? 0
             then with_score (score e1 + (0 + (y' - Piece.y p)) * 2) e1
             else e1).
  assert (H2 : board e2 = board e ∧ currentPiece e2 = Some (with_y y' p) ∧
               linesCleared e2 = linesCleared e ∧ score e ≤ score e2 ∧
               gameOver e2 = gameOver e).
  { subst e2 e1. destruct (0 + (y' - Piece.y p) >? 0); cbn;
      repeat split; try done; lia. }
  destruct H2 as (Hb2 & Hp2 & Hl2 & Hs2 & Ho2).
  destruct (lock_clear_spawn_spec e2 (with_y y' p))
    as (e' & E & Hb' & Hq' & Hln' & Hsc' & Hpiece); [by rewrite Hb2|done|].
  exists e'. split; [exact E|]. rewrite Hl2 in *.
  specialize (Hsc' Hln).
  split; [split|]; try done; try lia.
  - intros p' Hp'. destruct Hpiece as [(t & Ht & _)|(Hn & _)]; [|congruence].
    rewrite Ht in Hp'. injection Hp' as <-. apply candidate_ok.
  - destruct Hpiece as [(t & -> & -> & _)|(-> & -> & _)]; [|done].
    rewrite Ho2, (not_over e p He Hp). done.
Qed.

(** [shiftPiece] returns and moves nothing but the piece. *)
Lemma shiftPiece_ok deltaX e :
  stateOk e → ∃ e', shiftPiece deltaX e = Ok e' ∧ advances e e'.
Proof.
  intros He. pose proof He as [Hb Hpc Hq Hov Hsc Hln].
  unfold shiftPiece. destruct (currentPiece e) as [p|] eqn:Hp.
  2:{ exists e. split; [done|]. by apply advances_refl. }
  destruct (canPlace_returns (board e) (Piece.matrix p)
              (Piece.x p + deltaX) (Piece.y p)) as [E|E];
    [by apply boardOk_hasRows|..]; rewrite E; cbn [andThen].
  - eexists. split; [reflexivity|]. split; [split|]; cbn; try done; try lia.
    + intros p' [= <-]. eapply pieceOk_same_matrix; [|eauto]; done.
    + rewrite (not_over e p He Hp). done.
  - exists e. split; [done|]. by apply advances_refl.
Qed.

(** [rotatePiece] returns and changes nothing but the piece. *)
Lemma rotatePiece_ok e :
  stateOk e → ∃ e', rotatePiece e = Ok e' ∧ advances e e'.
Proof.
  intros He. pose proof He as [Hb Hpc Hq Hov Hsc Hln].
  unfold rotatePiece. destruct (currentPiece e) as [p|] eqn:Hp.
  2:{ exists e. split; [done|]. by apply advances_refl. }
  rewrite rotateMatrix_quarterTurn by (apply pieceOk_nonempty; eauto).
  cbn [andThen].
  destruct (rotatePiece_kicks_spec (board e) p
              (quarterTurn (Piece.matrix p)) kicks)
    as [(pre & off & post & _ & _ & _ & ->)|[_ ->]];
    [by apply boardOk_hasRows|..]; cbn [andThen].
  - eexists. split; [reflexivity|]. split; [split|]; cbn; try done; try lia.
    + intros p' [= <-]. apply pieceOk_rotated. eauto.
    + rewrite (not_over e p He Hp). done.
  - rewrite with_currentPiece_same by done.
    exists e. split; [done|]. by apply advances_refl.
Qed.

Lemma handleAction_ok action e :
  stateOk e → ∃ e', handleAction action e = Ok e' ∧ advances e e'.
Proof.
  intros He. unfold handleAction. destruct (negb (isRunning e)).
  { exists e. split; [done|]. by apply advances_refl. }
  destruct action; auto using shiftPiece_ok, rotatePiece_ok, stepDown_ok,
    hardDrop_ok.
Qed.

(** ** What a returning call guarantees in any state *)

Lemma andThen_Ok {A B} (m : outcome A) (k : A → outcome B) b :
  andThen m k = Ok b → ∃ a, m = Ok a ∧ k a = Ok b.
Proof. destruct m as [a|f]; simpl; [eauto|done]. Qed.

Lemma follows_refl e : follows e e.
Proof. unfold follows. repeat split; auto; lia. Qed.

Lemma follows_trans e1 e2 e3 : follows e1 e2 → follows e2 e3 → follows e1 e3.
Proof.
  unfold follows. intros (L1 & S1 & G1 & R1) (L2 & S2 & G2 & R2).
  repeat split; auto; lia.
Qed.

Lemma ensureQueue_follows e e' : ensureQueue e = Ok e' → follows e e'.
Proof.
  destruct (ensureQueue_spec e) as (bag & g & -> & _). intros [= <-].
  unfold follows. cbn. repeat split; auto; lia.
Qed.

Lemma spawnNextPiece_follows e e' : spawnNextPiece e = Ok e' → follows e e'.
Proof.
  unfold spawnNextPiece.
  destruct (ensureQueue_spec e) as (bag & g & -> & _). cbn [andThen queue].
  destruct (queue e ++ bag) as [|t rest].
  { intros [= <-]. unfold follows. cbn. repeat split; auto; lia. }
  destruct (getMatrixForType t) as [|first more]; [done|].
  match goal with |- context [canPlace ?b ?m ?x ?y] =>
    destruct (canPlace b m x y) as [[|]|f] end; cbn [andThen]; [| |done].
  all: intros [= <-]; unfold follows; cbn; repeat split; auto; lia.
Qed.

Lemma lockCurrentPiece_follows e e' :
  lockCurrentPiece e = Ok e' → follows e e'.
Proof.
  unfold lockCurrentPiece. destruct (currentPiece e) as [p|].
  2:{ intros [= <-]. apply follows_refl. }
  destruct (lock_rows _ _ _ _ _ _) as [b|f]; cbn [andThen]; [|done].
  intros [= <-]. unfold follows. cbn. repeat split; auto; lia.
Qed.

Lemma clearLines_follows e e' : clearLines e = Ok e' → follows e e'.
Proof.
  unfold clearLines.
  destruct (clearLines_loop _ _ _ _) as [[b n]|f]; cbn [andThen]; [|done].
  destruct (0 <? n)%nat.
  - intros [= <-]. unfold follows, getLevel. cbn.
    pose proof (score_table_nonneg n).
    repeat split; auto; try lia. intros H0.
    assert (0 ≤ (linesCleared e + Z.of_nat n) / 10)
      by (apply Z.div_pos; lia). nia.
  - intros [= <-]. unfold follows. cbn. repeat split; auto; lia.
Qed.

Lemma lock_clear_spawn_follows e e' :
  (let* e := lockCurrentPiece e in
   let* e := clearLines e in
   spawnNextPiece e) = Ok e' → follows e e'.
Proof.
  intros H.
  apply andThen_Ok in H as (e1 & H1 & H).
  apply andThen_Ok in H as (e2 & H2 & H3).
  eapply follows_trans; [by apply lockCurrentPiece_follows|].
  eapply follows_trans; [by apply clearLines_follows|].
  by apply spawnNextPiece_follows.
Qed.

Lemma hardDrop_loop_distance fuel b : ∀ p d p' d',
  hardDrop_loop fuel b p d = Ok (p', d') → d ≤ d'.
Proof.
  induction fuel as [|fuel IH]; intros p d p' d'; cbn [hardDrop_loop];
    destruct (canPlace _ _ _ _) as [[|]|f]; cbn [andThen]; try done.
  - intros [= <- <-]. lia.
  - intros H. apply IH in H. lia.
  - intros [= <- <-]. lia.
Qed.

Lemma stepDown_follows manual e e' : stepDown manual e = Ok e' → follows e e'.
Proof.
  unfold stepDown. destruct (currentPiece e) as [p|].
  2:{ intros [= <-]. apply follows_refl. }
  destruct (canPlace _ _ _ _) as [[|]|f]; cbn [andThen]; [| |done].
  - destruct manual; intros [= <-]; unfold follows; cbn;
      repeat split; auto; lia.
  - apply lock_clear_spawn_follows.
Qed.

Lemma hardDrop_follows e e' : hardDrop e = Ok e' → follows e e'.
Proof.
  unfold hardDrop. destruct (currentPiece e) as [p|].
  2:{ intros [= <-]. apply follows_refl. }
  destruct (hardDrop_loop _ _ _ _) as [[p' d]|f] eqn:E; cbn [andThen]; [|done].
  apply hardDrop_loop_distance in E. intros H.
  apply lock_clear_spawn_follows in H. eapply follows_trans; [|exact H].
  destruct (d >? 0); unfold follows; cbn; repeat split; auto; lia.
Qed.

Lemma shiftPiece_follows deltaX e e' :
  shiftPiece deltaX e = Ok e' → follows e e'.
Proof.
  unfold shiftPiece. destruct (currentPiece e) as [p|].
  2:{ intros [= <-]. apply follows_refl. }
  destruct (canPlace _ _ _ _) as [[|]|f]; cbn [andThen]; [| |done];
    intros [= <-]; unfold follows; cbn; repeat split; auto; lia.
Qed.

Lemma rotatePiece_follows e e' : rotatePiece e = Ok e' → follows e e'.
Proof.
  unfold rotatePiece. destruct (currentPiece e) as [p|].
  2:{ intros [= <-]. apply follows_refl. }
  destruct (rotateMatrix _) as [rotated|f]; cbn [andThen]; [|done].
  destruct (rotatePiece_kicks _ _ _ _) as [p'|f]; cbn [andThen]; [|done].
  intros [= <-]. unfold follows. cbn. repeat split; auto; lia.
Qed.

Lemma handleAction_follows action e e' :
  handleAction action e = Ok e' → follows e e'.
Proof.
  unfold handleAction. destruct (negb (isRunning e)).
  { intros [= <-]. apply follows_refl. }
  destruct action; eauto using shiftPiece_follows, rotatePiece_follows,
    stepDown_follows, hardDrop_follows.
Qed.

Lemma getRenderState_follows e rs e' :
  getRenderState e = Ok (rs, e') → follows e e'.
Proof.
  unfold getRenderState. intros H.
  apply andThen_Ok in H as (e1 & H1 & H).
  apply andThen_Ok in H as (ghost & _ & [= _ <-]).
  by apply ensureQueue_follows.
Qed.

(** Every call but [start], when it returns. *)
Lemma perform_follows c e e' :
  isStart c = false → perform c e = Ok e' → follows e e'.
Proof.
  destruct c; cbn [isStart perform]; try done; intros _.
  - intros [= <-]. unfold follows, pause. cbn. repeat split; auto; lia.
  - intros [= <-]. unfold follows, resume.
    destruct (gameOver e) eqn:E; cbn; repeat split; auto; try lia; congruence.
  - intros [= <-]. apply follows_refl.
  - intros H. apply andThen_Ok in H as ([rs e1] & H1 & [= <-]).
    by eapply getRenderState_follows.
  - intros [= <-]. apply follows_refl.
  - apply handleAction_follows.
  - apply stepDown_follows.
  - intros [= <-]. apply follows_refl.
Qed.

Lemma performAll_follows cs : ∀ e e',
  forallb (fun c => negb (isStart c)) cs = true →
  performAll cs e = Ok e' → follows e e'.
Proof.
  induction cs as [|c cs IH]; intros e e' Hcs; cbn [performAll].
  { intros [= <-]. apply follows_refl. }
  cbn [forallb] in Hcs. apply andb_true_iff in Hcs as [Hc Hcs].
  apply negb_true_iff in Hc.
  intros H. apply andThen_Ok in H as (e1 & H1 & H).
  eapply follows_trans; [by eapply perform_follows|]. by apply IH.
Qed.

(** ** Projections *)

Lemma cloneBoard_id b : cloneBoard b = b.
Proof. unfold cloneBoard. apply list_fmap_id. Qed.

Lemma clonePiece_id p : clonePiece p = p.
Proof. unfold clonePiece. rewrite list_fmap_id. by destruct p. Qed.

Lemma clonePiece_fmap_id (o : option ActivePiece) : clonePiece <$> o = o.
Proof. destruct o as [p|]; [|done]. simpl. by rewrite clonePiece_id. Qed.

(** [computeGhostY] reads the board and the active piece only. *)
Lemma computeGhostY_ext e1 e2 :
  board e1 = board e2 → currentPiece e1 = currentPiece e2 →
  computeGhostY e1 = computeGhostY e2.
Proof. unfold computeGhostY. by intros -> ->. Qed.

Lemma computeGhostY_returns e :
  (∀ p, currentPiece e = Some p →
        hasRows (board e) ∧ ∃ r c, filled (Piece.matrix p) r c) →
  ∃ ghost, computeGhostY e = Ok ghost.
Proof.
  intros H. unfold computeGhostY. destruct (currentPiece e) as [p|]; [|eauto].
  destruct (H p eq_refl) as [Hb Hf].
  destruct (computeGhostY_loop_spec (board e) p (dropFuel p) (Piece.y p) Hb Hf)
    as (y' & -> & _); [done|]. cbn [andThen]. eauto.
Qed.

(** What [getRenderState] returns, when it returns: the fields of the
    engine, with the queue topped up. *)
Lemma getRenderState_inv e rs e' :
  getRenderState e = Ok (rs, e') →
  ∃ bag g,
    e' = {| board := board e; queue := queue e ++ bag;
            currentPiece := currentPiece e; running := running e;
            score := score e; linesCleared := linesCleared e;
            gameOver := gameOver e; random := g |} ∧
    (7 ≤ length (queue e ++ bag))%nat ∧
    ((7 ≤ length (queue e))%nat → bag = []) ∧
    computeGhostY e = Ok (Render.ghostY rs) ∧
    Render.board rs = board e ∧
    Render.currentPiece rs = currentPiece e ∧
    Render.queue rs = queue e ++ bag ∧
    Render.score rs = score e ∧
    Render.linesCleared rs = linesCleared e ∧
    Render.isGameOver rs = gameOver e ∧
    Render.nextPiece rs = (queue e ++ bag) !! 0%nat.
Proof.
  unfold getRenderState.
  destruct (ensureQueue_spec e) as (bag & g & -> & Hlen & Hfull & _).
  cbn [andThen]. intros H. apply andThen_Ok in H as (ghost & Hg & [= <- <-]).
  exists bag, g. cbn.
  rewrite cloneBoard_id, clonePiece_fmap_id.
  repeat split; try done.
  intros H7. by destruct (Hfull H7).
Qed.

(** [getRenderState] returns whenever the ghost row can be computed. *)
Lemma getRenderState_returns e :
  (∃ ghost, computeGhostY e = Ok ghost) →
  ∃ rs e', getRenderState e = Ok (rs, e').
Proof.
  intros [ghost Hg]. unfold getRenderState.
  destruct (ensureQueue_spec e) as (bag & g & -> & _). cbn [andThen].
  match goal with |- context [computeGhostY ?s] =>
    rewrite (computeGhostY_ext s e) by done end.
  rewrite Hg. cbn [andThen]. eauto.
Qed.

(** ** Sessions *)

Lemma stateOk_ghost e :
  stateOk e →
  ∀ p, currentPiece e = Some p →
       hasRows (board e) ∧ ∃ r c, filled (Piece.matrix p) r c.
Proof.
  intros [Hb Hpc _ _ _ _] p Hp. split; [by apply boardOk_hasRows|].
  apply pieceOk_filled. eauto.
Qed.

Lemma stateOk_running r e : stateOk e → stateOk (with_running r e).
Proof. intros [? ? ? ? ? ?]. by split. Qed.

(** Every call but [start] returns in a session and keeps the session
    going. *)
Lemma perform_ok c e :
  stateOk e → isStart c = false →
  ∃ e', perform c e = Ok e' ∧ advances e e'.
Proof.
  intros He Hc. pose proof He as [Hb Hpc Hq Hov Hsc Hln].
  destruct c; cbn [isStart perform] in *; try done.
  - eexists. split; [reflexivity|].
    split; [by apply stateOk_running|]. cbn. lia.
  - eexists. split; [reflexivity|]. unfold resume.
    destruct (gameOver e) eqn:E; simpl; [by apply advances_refl|].
    split; [by apply stateOk_running|]. cbn. lia.
  - exists e. split; [done|]. by apply advances_refl.
  - destruct (getRenderState_returns e) as (rs & e' & Hrs).
    { apply computeGhostY_returns. by apply stateOk_ghost. }
    rewrite Hrs. cbn [andThen]. exists e'. split; [done|].
    apply getRenderState_inv in Hrs as (bag & g & -> & _).
    split; [split|]; cbn; try done; try lia.
    rewrite length_app. lia.
  - exists e. split; [done|]. by apply advances_refl.
  - by apply handleAction_ok.
  - by apply stepDown_ok.
  - exists e. split; [done|]. by apply advances_refl.
Qed.

Lemma canPlace_empty_spawn t :
  canPlace createEmptyBoard (getMatrixForType t) (Piece.x (candidate t)) (-1)
  = Ok true.
Proof. destruct t; vm_compute; reflexivity. Qed.

(** [start()] with no snapshot returns on any engine, and begins a
    session: empty board, six kinds queued, the seventh falling, counters at
    zero, running. *)
Lemma start_fresh_spec e0 :
  ∃ t rest g,
    (length rest = 6)%nat ∧
    start None e0 =
    Ok {| board := createEmptyBoard; queue := rest;
          currentPiece := Some (candidate t); running := true;
          score := 0; linesCleared := 0; gameOver := false; random := g |}.
Proof.
  unfold start.
  match goal with |- context [ensureQueue ?s] =>
    destruct (ensureQueue_spec s) as (bag & g & -> & _ & _ & Hbag) end.
  cbn in Hbag. specialize (Hbag ltac:(lia)). cbn [andThen].
  match goal with |- context [spawnNextPiece ?s] => set (s1 := s) end.
  destruct (spawnNextPiece_spec s1)
    as (bag' & g' & t & rest & Hq & _ & Hfull & Hspawn).
  { cbn. apply boardOk_hasRows, createEmptyBoard_ok. }
  destruct Hfull as [-> ->]; [cbn; lia|].
  destruct Hspawn as [[_ E]|[E _]].
  2:{ cbn in E. rewrite canPlace_empty_spawn in E. done. }
  rewrite E. cbn [andThen]. cbn in Hq. rewrite app_nil_r in Hq.
  exists t, rest, g. split; [|reflexivity].
  rewrite Hq in Hbag. simpl in Hbag. lia.
Qed.

Lemma start_fresh_ok e0 : ∃ e, start None e0 = Ok e ∧ stateOk e.
Proof.
  destruct (start_fresh_spec e0) as (t & rest & g & Hlen & ->).
  eexists. split; [reflexivity|]. split; cbn; try done; try lia.
  - apply createEmptyBoard_ok.
  - intros p [= <-]. apply candidate_ok.
Qed.

(** [start] with the snapshot of a state whose queue is not empty and that
    has a piece or is over restores every field of the snapshot. *)
Lemma start_snapshot_spec e e0 :
  queue e ≠ [] → (currentPiece e = None → gameOver e = true) →
  start (Some (getSnapshot e)) e0 =
  Ok {| board := board e; queue := queue e;
        currentPiece := currentPiece e; running := negb (gameOver e);
        score := score e; linesCleared := linesCleared e;
        gameOver := gameOver e; random := random e0 |}.
Proof.
  intros Hq Hp. unfold start, hydrateFromSnapshot, getSnapshot.
  cbn. rewrite cloneBoard_id, !clonePiece_fmap_id, cloneBoard_id.
  destruct (queue e) as [|t rest] eqn:Eq; [done|]. cbn.
  destruct (currentPiece e) as [p|] eqn:Ep; cbn; [done|].
  rewrite Hp by done. reflexivity.
Qed.

Lemma reachable_ok e : reachable e → stateOk e.
Proof.
  induction 1 as [e0 e Hs|e c e' _ IH Hc Hp|e e0 e' _ IH Hs].
  - destruct (start_fresh_ok e0) as (e1 & E & He). congruence.
  - destruct (perform_ok c e IH Hc) as (e1 & E & He & _). congruence.
  - pose proof IH as [Hb Hpc Hq Hov Hsc Hln].
    rewrite start_snapshot_spec in Hs.
    + injection Hs as <-. split; done.
    + intros E. rewrite E in Hq. simpl in Hq. lia.
    + apply Hov.
Qed.

(** ** Hard drop of a vertical I-piece on the empty board *)

Lemma column_cases x :
  0 ≤ x < BOARD_WIDTH →
  x = 0 ∨ x = 1 ∨ x = 2 ∨ x = 3 ∨ x = 4 ∨ x = 5 ∨ x = 6 ∨ x = 7 ∨ x = 8 ∨
  x = 9.
Proof. unfold BOARD_WIDTH. lia. Qed.

Ltac each_column H :=
  apply column_cases in H;
  repeat (destruct H as [H|H]; [subst; vm_compute; reflexivity|]);
  subst; vm_compute; reflexivity.

Lemma verticalI_drop x :
  0 ≤ x < BOARD_WIDTH →
  hardDrop_loop 20 createEmptyBoard (Piece.Build Tetromino.I verticalI x 0) 0
  = Ok (Piece.Build Tetromino.I verticalI x 16, 16).
Proof. intros H. each_column H. Qed.

Lemma verticalI_lock x :
  0 ≤ x < BOARD_WIDTH →
  lock_rows createEmptyBoard x 16 Tetromino.I 0 verticalI
  = Ok (lockedBoard x).
Proof. intros H. each_column H. Qed.

Lemma lockedBoard_clear x :
  0 ≤ x < BOARD_WIDTH →
  clearLines_loop (Z.to_nat (2 * BOARD_HEIGHT)) (lockedBoard x)
                  (BOARD_HEIGHT - 1) 0
  = Ok (lockedBoard x, 0%nat).
Proof. intros H. each_column H. Qed.

Lemma lockedBoard_spawn x t :
  0 ≤ x < BOARD_WIDTH →
  canPlace (lockedBoard x) (getMatrixForType t) (Piece.x (candidate t)) (-1)
  = Ok true.
Proof. intros H. destruct t; each_column H. Qed.

Lemma lockedBoard_rows x : hasRows (lockedBoard x).
Proof.
  unfold hasRows, lockedBoard.
  rewrite length_app, !length_replicate. unfold BOARD_HEIGHT. lia.
Qed.

(** C7.  A running engine with an empty board and a vertical I-piece
    (4 by 1) at the top of the board, in any column [x]: [hardDrop] moves the
    piece down exactly [20 - 4 = 16] rows, adds exactly [16 * 2 = 32] to the
    score, locks the piece into the bottom four rows of column [x], and the
    new active piece has the kind that was at the head of the queue. *)
Theorem hardDrop_verticalI (x sc ln : Z) (q0 : TetrominoType)
    (qs : list TetrominoType) (g : Random) :
  0 ≤ x < BOARD_WIDTH →
  let p := Piece.Build Tetromino.I verticalI x 0 in
  let e := {| board := createEmptyBoard; queue := q0 :: qs;
              currentPiece := Some p; running := true; score := sc;
              linesCleared := ln; gameOver := false; random := g |} in
  hardDrop_loop (dropFuel p) (board e) p 0
    = Ok (with_y (BOARD_HEIGHT - 4) p, 16) ∧
  ∃ e', handleAction Action.hardDrop e = Ok e' ∧
    score e' = sc + 32 ∧
    board e' = lockedBoard x ∧
    currentPiece e' = Some (candidate q0) ∧
    Piece.type (candidate q0) = q0 ∧
    linesCleared e' = ln.
Proof.
  intros Hx p e.
  assert (Hdrop : hardDrop_loop (dropFuel p) (board e) p 0
                  = Ok (with_y (BOARD_HEIGHT - 4) p, 16)).
  { exact (verticalI_drop x Hx). }
  split; [exact Hdrop|].
  unfold handleAction. change (negb (isRunning e)) with false. cbn match.
  unfold hardDrop. change (currentPiece e) with (Some p). cbn match.
  rewrite Hdrop. cbn [andThen]. change (16 >? 0) with true. cbn match.
  unfold lockCurrentPiece. cbn [currentPiece with_score with_currentPiece].
  cbn [Piece.x Piece.y Piece.type Piece.matrix with_y board p e].
  change (BOARD_HEIGHT - 4) with 16.
  change (lock_rows _ x 16 Tetromino.I 0 verticalI)
    with (lock_rows createEmptyBoard x 16 Tetromino.I 0 verticalI).
  rewrite (verticalI_lock x Hx). cbn [andThen].
  unfold clearLines.
  change (clearLines_loop _ _ _ 0)
    with (clearLines_loop (Z.to_nat (2 * BOARD_HEIGHT)) (lockedBoard x)
                          (BOARD_HEIGHT - 1) 0).
  rewrite (lockedBoard_clear x Hx). cbn [andThen]. cbn match.
  change (0 <? 0)%nat with false. cbn match. cbn [andThen].
  match goal with |- context [spawnNextPiece ?s] => set (s1 := s) end.
  destruct (spawnNextPiece_spec s1)
    as (bag & g' & t & rest & Hq & _ & _ & Hspawn).
  { apply lockedBoard_rows. }
  cbn in Hq. injection Hq as <- _.
  destruct Hspawn as [[_ E]|[E _]].
  2:{ pose proof (lockedBoard_spawn x q0 Hx) as E'.
      change (lockedBoard x) with (board s1) in E'. congruence. }
  rewrite E. eexists. split; [reflexivity|]. cbn.
  repeat split; try done.
Qed.

Lemma hardDrop_verticalI_witness :
  ∃ e', handleAction Action.hardDrop sampleDropping = Ok e' ∧
    score e' = 0 + 32 ∧
    board e' = lockedBoard 0 ∧
    currentPiece e' = Some (candidate Tetromino.J) ∧
    Piece.type (candidate Tetromino.J) = Tetromino.J ∧
    linesCleared e' = 0.
Proof.
  apply (hardDrop_verticalI 0 0 0 Tetromino.J
           [Tetromino.L; Tetromino.O; Tetromino.S; Tetromino.Z; Tetromino.T;
            Tetromino.I] sampleRandom).
  unfold BOARD_WIDTH. lia.
Defined.

(** ** Whole sessions *)

Lemma advances_trans e1 e2 e3 : advances e1 e2 → advances e2 e3 → advances e1 e3.
Proof. unfold advances. intros (_ & ? & ?) (? & ? & ?). split; [done|]. lia. Qed.

Lemma performAll_ok cs : ∀ e,
  stateOk e → forallb (fun c => negb (isStart c)) cs = true →
  ∃ e', performAll cs e = Ok e' ∧ advances e e'.
Proof.
  induction cs as [|c cs IH]; intros e He Hcs; cbn [performAll].
  { exists e. split; [done|]. by apply advances_refl. }
  cbn [forallb] in Hcs. apply andb_true_iff in Hcs as [Hc Hcs].
  apply negb_true_iff in Hc.
  destruct (perform_ok c e He Hc) as (e1 & -> & Hadv). cbn [andThen].
  destruct (IH e1) as (e' & -> & Hadv'); [by destruct Hadv|done|].
  exists e'. split; [done|]. by eapply advances_trans.
Qed.

Lemma reachable_performAll cs : ∀ e e',
  reachable e → forallb (fun c => negb (isStart c)) cs = true →
  performAll cs e = Ok e' → reachable e'.
Proof.
  induction cs as [|c cs IH]; intros e e' He Hcs; cbn [performAll].
  { by intros [= <-]. }
  cbn [forallb] in Hcs. apply andb_true_iff in Hcs as [Hc Hcs].
  apply negb_true_iff in Hc.
  intros H. apply andThen_Ok in H as (e1 & H1 & H).
  eapply IH; [|done|exact H]. by eapply reach_call.
Qed.

(** In game over with no active piece every call but [start] returns and
    leaves the engine there. *)
Lemma over_perform c e :
  gameOver e = true → currentPiece e = None → isStart c = false →
  ∃ e', perform c e = Ok e' ∧ gameOver e' = true ∧ currentPiece e' = None ∧
        (running e = false → running e' = false).
Proof.
  intros Hov Hp Hc.
  assert (Hrun : isRunning e = false).
  { unfold isRunning. rewrite Hov. apply andb_false_r. }
  destruct c; cbn [isStart perform] in *; try done.
  - eexists. split; [reflexivity|]. by cbn.
  - eexists. split; [reflexivity|]. unfold resume. rewrite Hov. by cbn.
  - by exists e.
  - destruct (getRenderState_returns e) as (rs & e' & Hrs).
    { unfold computeGhostY. rewrite Hp. eauto. }
    rewrite Hrs. cbn [andThen]. exists e'. split; [done|].
    apply getRenderState_inv in Hrs as (bag & g & -> & _). by cbn.
  - by exists e.
  - exists e. unfold handleAction. rewrite Hrun. by cbn.
  - exists e. unfold stepDown. by rewrite Hp.
  - by exists e.
Qed.

Lemma over_performAll cs : ∀ e,
  gameOver e = true → currentPiece e = None → running e = false →
  forallb (fun c => negb (isStart c)) cs = true →
  ∃ e', performAll cs e = Ok e' ∧ gameOver e' = true ∧
        currentPiece e' = None ∧ running e' = false.
Proof.
  induction cs as [|c cs IH]; intros e Hov Hp Hr Hcs; cbn [performAll].
  { by exists e. }
  cbn [forallb] in Hcs. apply andb_true_iff in Hcs as [Hc Hcs].
  apply negb_true_iff in Hc.
  destruct (over_perform c e Hov Hp Hc) as (e1 & -> & Hov1 & Hp1 & Hr1).
  cbn [andThen]. apply IH; auto.
Qed.

(** [start] with a snapshot that is game over leaves the engine game over
    and stopped: [hydrateFromSnapshot] copies the flag and does not spawn. *)
Lemma start_over_snapshot snapshot e e' :
  Snapshot.isGameOver snapshot = true → start (Some snapshot) e = Ok e' →
  gameOver e' = true ∧ running e' = false.
Proof.
  intros Hs. unfold start. intros H.
  apply andThen_Ok in H as (e1 & H1 & [= <-]). cbn.
  assert (Hov : gameOver e1 = true); [|by rewrite Hov].
  unfold hydrateFromSnapshot in H1.
  apply andThen_Ok in H1 as (e2 & H2 & H1).
  assert (Hov2 : gameOver e2 = true).
  { destruct (length _ =? 0)%nat in H2.
    - match type of H2 with ensureQueue ?s = _ =>
        destruct (ensureQueue_spec s) as (bag & g & E & _) end.
      rewrite E in H2. by injection H2 as <-.
    - by injection H2 as <-. }
  rewrite Hov2, andb_false_r in H1. by injection H1 as <-.
Qed.

Lemma perform_keepsOver c e e' :
  keepsOver c = true → perform c e = Ok e' →
  gameOver e = true → running e = false →
  gameOver e' = true ∧ running e' = false.
Proof.
  intros Hc Hp Hov Hr.
  destruct (isStart c) eqn:Es.
  - destruct c as [[snapshot|]| | | | | | | |]; try done.
    by apply (start_over_snapshot snapshot e).
  - destruct (perform_follows c e e' Es Hp) as (_ & _ & Hg & Hrun). auto.
Qed.

Lemma performAll_keepsOver cs : ∀ e e',
  forallb keepsOver cs = true → performAll cs e = Ok e' →
  gameOver e = true → running e = false →
  gameOver e' = true ∧ running e' = false.
Proof.
  induction cs as [|c cs IH]; intros e e' Hcs; cbn [performAll].
  { by intros [= <-]. }
  cbn [forallb] in Hcs. apply andb_true_iff in Hcs as [Hc Hcs].
  intros H Hov Hr. apply andThen_Ok in H as (e1 & H1 & H).
  destruct (perform_keepsOver c e e1 Hc H1 Hov Hr) as [Hov1 Hr1].
  by apply (IH e1).
Qed.

(** C5.  When [spawnNextPiece] finds the spawn position of the next kind
    colliding, it returns with no active piece, [gameOver] true and
    [running] false.  From then on no sequence of calls leaves game over
    unless it holds a [start()] with no snapshot or a [start] with a snapshot
    that is not game over: whenever such a sequence returns, [gameOver] is
    true and [running] false, so [isRunning()] is false, and it stays false
    after [resume()]; a [start()] with no snapshot then returns and leaves
    game over.  A sequence of calls other than [start] always returns, with
    the piece still absent. *)
Theorem spawn_collision_is_final (e e1 : TetrisEngine) (t : TetrominoType)
    (rest : list TetrominoType) (cs : list call) :
  ensureQueue e = Ok e1 → queue e1 = t :: rest →
  canPlace (board e) (getMatrixForType t) (Piece.x (candidate t)) (-1)
    = Ok false →
  forallb keepsOver cs = true →
  ∃ e', spawnNextPiece e = Ok e' ∧
    currentPiece e' = None ∧ gameOver e' = true ∧ running e' = false ∧
    (∀ e'', performAll cs e' = Ok e'' →
       gameOver e'' = true ∧ running e'' = false ∧
       isRunning e'' = false ∧ isRunning (resume e'') = false ∧
       ∃ e2, start None e'' = Ok e2 ∧
             gameOver e2 = false ∧ isRunning e2 = true) ∧
    (forallb (fun c => negb (isStart c)) cs = true →
     ∃ e'', performAll cs e' = Ok e'' ∧ currentPiece e'' = None).
Proof.
  intros He1 Hq Hcol Hcs.
  assert (Hspawn : ∃ g,
    spawnNextPiece e =
    Ok {| board := board e; queue := rest; currentPiece := None;
          running := false; score := score e; linesCleared := linesCleared e;
          gameOver := true; random := g |}).
  { unfold spawnNextPiece. rewrite He1. cbn [andThen]. rewrite Hq.
    destruct (ensureQueue_spec e) as (bag & g & E & _).
    rewrite E in He1. injection He1 as <-. cbn [with_queue board].
    pose proof (candidate_matrix_nonempty t) as Hne.
    unfold candidate in Hcol. cbn [Piece.x] in Hcol.
    destruct (getMatrixForType t) as [|first more]; [done|].
    change (default [] ((first :: more) !! 0%nat)) with first in Hcol.
    rewrite Hcol. cbn [andThen]. by exists g. }
  destruct Hspawn as [g ->]. eexists. split; [reflexivity|]. cbn.
  do 3 (split; [done|]). split.
  - intros e'' Hall.
    destruct (performAll_keepsOver cs _ e'' Hcs Hall) as [Hov Hr]; [done..|].
    do 2 (split; [done|]).
    split; [unfold isRunning; by rewrite Hr|].
    split; [unfold isRunning, resume; rewrite Hov; cbn; by rewrite Hr|].
    destruct (start_fresh_spec e'') as (t' & rest' & g' & _ & ->).
    eexists. split; [reflexivity|]. done.
  - intros Hns.
    match goal with |- context [performAll cs ?s] =>
      destruct (over_performAll cs s) as (e'' & -> & _ & Hp & _) end;
      try done.
    by exists e''.
Qed.

Lemma spawn_collision_is_final_witness :
  ∃ e', spawnNextPiece sampleFullTop = Ok e' ∧
    currentPiece e' = None ∧ gameOver e' = true ∧ running e' = false ∧
    (∀ e'', performAll [CallResume; CallStepDown false;
                        CallStart (Some (getSnapshot sampleOver));
                        CallHandleAction Action.moveLeft; CallResume;
                        CallGetRenderState]
                       e' = Ok e'' →
       gameOver e'' = true ∧ running e'' = false ∧
       isRunning e'' = false ∧ isRunning (resume e'') = false ∧
       ∃ e2, start None e'' = Ok e2 ∧
             gameOver e2 = false ∧ isRunning e2 = true) ∧
    (forallb (fun c => negb (isStart c))
             [CallResume; CallStepDown false;
              CallStart (Some (getSnapshot sampleOver));
              CallHandleAction Action.moveLeft; CallResume;
              CallGetRenderState] = true →
     ∃ e'', performAll [CallResume; CallStepDown false;
                        CallStart (Some (getSnapshot sampleOver));
                        CallHandleAction Action.moveLeft; CallResume;
                        CallGetRenderState]
                       e' = Ok e'' ∧ currentPiece e'' = None).
Proof.
  apply (spawn_collision_is_final sampleFullTop sampleFullTop Tetromino.T
           [Tetromino.J; Tetromino.L; Tetromino.O; Tetromino.S; Tetromino.Z;
            Tetromino.I]).
  - reflexivity.
  - reflexivity.
  - vm_compute. reflexivity.
  - vm_compute. reflexivity.
Defined.

(** C5 as stated fails: [start] with a snapshot is not a fresh [start()],
    and it leaves game over when the snapshot is not over.  After the spawn
    collision on [sampleFullTop], restoring the snapshot of a session just
    begun gives an engine that is not over and runs. *)
Lemma gameOver_left_by_start_snapshot :
  ∃ e' e'',
    spawnNextPiece sampleFullTop = Ok e' ∧
    gameOver e' = true ∧ isRunning e' = false ∧
    perform (CallStart (Some (getSnapshot sampleStarted))) e' = Ok e'' ∧
    gameOver e'' = false ∧ isRunning e'' = true.
Proof.
  do 2 eexists.
  split; [vm_compute; reflexivity|].
  split; [reflexivity|]. split; [reflexivity|].
  split; [vm_compute; reflexivity|].
  split; reflexivity.
Qed.

(** ** The queue after a spawn *)

(** A spawn that returns leaves at least six kinds queued, in any state. *)
Lemma spawnNextPiece_queue e e' :
  spawnNextPiece e = Ok e' → (6 ≤ length (queue e'))%nat.
Proof.
  unfold spawnNextPiece.
  destruct (ensureQueue_spec e) as (bag & g & -> & Hlen & _).
  cbn [andThen queue].
  destruct (queue e ++ bag) as [|t rest]; [simpl in Hlen; lia|].
  destruct (getMatrixForType t) as [|first more]; [done|].
  match goal with |- context [canPlace ?b ?m ?x ?y] =>
    destruct (canPlace b m x y) as [[|]|f] end; cbn [andThen]; [| |done].
  all: intros [= <-]; cbn; simpl in Hlen; lia.
Qed.

Lemma lock_clear_spawn_queue e e' :
  (let* e := lockCurrentPiece e in
   let* e := clearLines e in
   spawnNextPiece e) = Ok e' → (6 ≤ length (queue e'))%nat.
Proof.
  intros H.
  apply andThen_Ok in H as (e1 & _ & H).
  apply andThen_Ok in H as (e2 & _ & H).
  by apply spawnNextPiece_queue in H.
Qed.

(** C6, as the code has it.  A spawn tops the queue up to seven or more
    and then takes its head: after [start()] with no snapshot exactly six
    kinds are queued, and after any [stepDown] or [hardDrop] that locks a
    piece and spawns the next one at least six are.  In a session those
    calls return.  [getRenderState] tops the queue up to seven or more before
    it reads the head, so its next-piece lookup never fails. *)
Theorem queue_after_spawn :
  (∀ e e', spawnNextPiece e = Ok e' → (6 ≤ length (queue e'))%nat) ∧
  (∀ e0, ∃ e, start None e0 = Ok e ∧ length (queue e) = 6%nat) ∧
  (∀ manual e p e',
     currentPiece e = Some p →
     canPlace (board e) (Piece.matrix p) (Piece.x p) (Piece.y p + 1)
       = Ok false →
     stepDown manual e = Ok e' → (6 ≤ length (queue e'))%nat) ∧
  (∀ e p e',
     currentPiece e = Some p → hardDrop e = Ok e' →
     (6 ≤ length (queue e'))%nat) ∧
  (∀ e, stateOk e →
     (∀ manual, ∃ e', stepDown manual e = Ok e' ∧
                      (6 ≤ length (queue e'))%nat) ∧
     (∃ e', hardDrop e = Ok e' ∧ (6 ≤ length (queue e'))%nat)) ∧
  (∀ e rs e',
     getRenderState e = Ok (rs, e') →
     (7 ≤ length (queue e'))%nat ∧ Render.queue rs = queue e' ∧
     ∃ t, Render.nextPiece rs = Some t ∧ head (queue e') = Some t).
Proof.
  split; [exact spawnNextPiece_queue|].
  split.
  { intros e0. destruct (start_fresh_spec e0) as (t & rest & g & Hlen & ->).
    eexists. split; [reflexivity|]. done. }
  split.
  { intros manual e p e' Hp Hblocked. unfold stepDown.
    rewrite Hp, Hblocked. cbn [andThen]. apply lock_clear_spawn_queue. }
  split.
  { intros e p e' Hp. unfold hardDrop. rewrite Hp.
    destruct (hardDrop_loop _ _ _ _) as [[p' d]|f]; cbn [andThen]; [|done].
    apply lock_clear_spawn_queue. }
  split.
  { intros e He. split.
    - intros manual. destruct (stepDown_ok manual e He) as (e' & E & He' & _).
      exists e'. split; [done|]. by destruct He'.
    - destruct (hardDrop_ok e He) as (e' & E & He' & _).
      exists e'. split; [done|]. by destruct He'. }
  intros e rs e' H.
  apply getRenderState_inv in H
    as (bag & g & -> & Hlen & _ & _ & _ & _ & Hq & _ & _ & _ & Hnext).
  cbn. split; [done|]. split; [done|].
  rewrite Hnext. destruct (queue e ++ bag) as [|t rest]; [simpl in Hlen; lia|].
  by exists t.
Qed.

(** C6 as stated fails: right after [start()] the queue holds six kinds,
    not seven. *)
Lemma queue_below_seven_after_start :
  ∃ e, start None (newEngine sampleRandom) = Ok e ∧
       length (queue e) = 6%nat ∧ ¬ (7 ≤ length (queue e))%nat.
Proof.
  exists sampleStarted. split; [vm_compute; reflexivity|].
  split; [reflexivity|]. vm_compute. lia.
Qed.

(** ** Counters *)

(** C8.  In a session whose counters start non-negative, after any calls
    other than [start], one more such call that returns finds the score and
    [linesCleared] non-negative and leaves neither lower than it found it.
    From a state of a session all these calls return. *)
Theorem counters_never_decrease (e : TetrisEngine) (cs : list call)
    (c : call) :
  0 ≤ score e → 0 ≤ linesCleared e →
  forallb (fun c => negb (isStart c)) cs = true → isStart c = false →
  (∀ e1 e2, performAll cs e = Ok e1 → perform c e1 = Ok e2 →
     0 ≤ score e1 ≤ score e2 ∧ 0 ≤ linesCleared e1 ≤ linesCleared e2) ∧
  (stateOk e → ∃ e1 e2, performAll cs e = Ok e1 ∧ perform c e1 = Ok e2).
Proof.
  intros Hsc Hln Hcs Hc. split.
  - intros e1 e2 H1 H2.
    apply performAll_follows in H1 as (L1 & S1 & _); [|done].
    apply perform_follows in H2 as (L2 & S2 & _); [|done]. lia.
  - intros He.
    destruct (performAll_ok cs e He Hcs) as (e1 & E1 & He1 & _).
    destruct (perform_ok c e1 He1 Hc) as (e2 & E2 & _). eauto.
Qed.

Lemma counters_never_decrease_witness :
  (∀ e1 e2,
     performAll [CallHandleAction Action.hardDrop;
                 CallHandleAction Action.softDrop] sampleStarted = Ok e1 →
     perform (CallStepDown false) e1 = Ok e2 →
     0 ≤ score e1 ≤ score e2 ∧ 0 ≤ linesCleared e1 ≤ linesCleared e2) ∧
  (stateOk sampleStarted →
   ∃ e1 e2,
     performAll [CallHandleAction Action.hardDrop;
                 CallHandleAction Action.softDrop] sampleStarted = Ok e1 ∧
     perform (CallStepDown false) e1 = Ok e2).
Proof.
  apply (counters_never_decrease sampleStarted).
  - vm_compute. discriminate.
  - vm_compute. discriminate.
  - reflexivity.
  - reflexivity.
Defined.

(** ** Game over *)

(** C10.  In every state reached from [start()] with no snapshot, game over
    means no active piece; so [stepDown], with either value of [manual],
    returns the engine as it found it: board, queue, score, [linesCleared],
    [gameOver] and [running] are all unchanged. *)
Theorem gameOver_stepDown_noop (e : TetrisEngine) (manual : bool) :
  reachable e → gameOver e = true →
  currentPiece e = None ∧ stepDown manual e = Ok e.
Proof.
  intros Hr Hov. apply reachable_ok in Hr.
  assert (Hp : currentPiece e = None) by (by apply (ok_over e Hr)).
  split; [done|]. unfold stepDown. by rewrite Hp.
Qed.

Lemma sampleOver_reachable : reachable sampleOver.
Proof.
  apply (reachable_performAll sampleDrops sampleStarted).
  - apply (reach_start (newEngine sampleRandom)). vm_compute. reflexivity.
  - reflexivity.
  - vm_compute. reflexivity.
Defined.

Lemma gameOver_stepDown_noop_witness :
  currentPiece sampleOver = None ∧ stepDown true sampleOver = Ok sampleOver.
Proof.
  apply (gameOver_stepDown_noop sampleOver true).
  - exact sampleOver_reachable.
  - vm_compute. reflexivity.
Defined.

(** ** Snapshot round trip *)

(** The round trip from any state whose queue holds three kinds or more
    and that has an active piece or is over. *)
Lemma roundtrip_general E g rsE E' :
  (3 ≤ length (queue E))%nat → (currentPiece E = None → gameOver E = true) →
  getRenderState E = Ok (rsE, E') →
  ∃ F rsF F',
    start (Some (getSnapshot E)) (newEngine g) = Ok F ∧
    getRenderState F = Ok (rsF, F') ∧
    Render.score rsF = Render.score rsE ∧
    Render.linesCleared rsF = Render.linesCleared rsE ∧
    take 3 (Render.queue rsF) = take 3 (Render.queue rsE) ∧
    Render.currentPiece rsF = Render.currentPiece rsE.
Proof.
  intros Hq Hp HrsE.
  rewrite start_snapshot_spec; [|intros E0; rewrite E0 in Hq; simpl in Hq; lia|done].
  eexists. 
  match goal with |- context [Ok ?s = Ok _] => set (F := s) end.
  pose proof HrsE as HE.
  apply getRenderState_inv in HE
    as (bag & g1 & _ & _ & _ & Hghost & _ & HpE & HqE & HsE & HlE & _).
  destruct (getRenderState_returns F) as (rsF & F' & HrsF).
  { exists (Render.ghostY rsE). rewrite <- Hghost.
    by apply computeGhostY_ext. }
  exists rsF, F'. split; [reflexivity|]. split; [exact HrsF|].
  apply getRenderState_inv in HrsF
    as (bag' & g2 & _ & _ & _ & _ & _ & HpF & HqF & HsF & HlF & _).
  cbn in HpF, HqF, HsF, HlF.
  rewrite HsF, HsE, HlF, HlE, HpF, HpE, HqF, HqE.
  repeat split; try done.
  by rewrite !take_app_le by lia.
Qed.

(** C4, as the code has it.  For every state [E] of a session begun by
    [start()], [start(E.getSnapshot())] on a fresh engine gives an engine
    whose RenderState agrees with that of [E] on the score, on
    [linesCleared], on the first three queue entries and on the active
    piece: the same kind, x and y, or no piece in both. *)
Theorem snapshot_roundtrip (E : TetrisEngine) (g : Random) :
  reachable E →
  ∃ rsE E' F rsF F',
    getRenderState E = Ok (rsE, E') ∧
    start (Some (getSnapshot E)) (newEngine g) = Ok F ∧
    getRenderState F = Ok (rsF, F') ∧
    Render.score rsF = Render.score rsE ∧
    Render.linesCleared rsF = Render.linesCleared rsE ∧
    take 3 (Render.queue rsF) = take 3 (Render.queue rsE) ∧
    Render.currentPiece rsF = Render.currentPiece rsE ∧
    (Render.currentPiece rsE = None ↔ currentPiece E = None).
Proof.
  intros Hr. apply reachable_ok in Hr. pose proof Hr as [Hb Hpc Hq Hov _ _].
  destruct (getRenderState_returns E) as (rsE & E' & HrsE).
  { apply computeGhostY_returns. by apply stateOk_ghost. }
  destruct (roundtrip_general E g rsE E') as (F & rsF & F' & H);
    [lia|apply Hov|done|].
  exists rsE, E', F, rsF, F'. split; [done|].
  destruct H as (? & ? & ? & ? & ? & ?). repeat split; try done.
  - apply getRenderState_inv in HrsE
      as (? & ? & _ & _ & _ & _ & _ & HpE & _). congruence.
  - apply getRenderState_inv in HrsE
      as (? & ? & _ & _ & _ & _ & _ & HpE & _). congruence.
Qed.

Lemma sampleStarted_reachable : reachable sampleStarted.
Proof.
  apply (reach_start (newEngine sampleRandom)). vm_compute. reflexivity.
Defined.

Lemma snapshot_roundtrip_witness :
  ∃ rsE E' F rsF F',
    getRenderState sampleStarted = Ok (rsE, E') ∧
    start (Some (getSnapshot sampleStarted)) (newEngine sampleRandom) = Ok F ∧
    getRenderState F = Ok (rsF, F') ∧
    Render.score rsF = Render.score rsE ∧
    Render.linesCleared rsF = Render.linesCleared rsE ∧
    take 3 (Render.queue rsF) = take 3 (Render.queue rsE) ∧
    Render.currentPiece rsF = Render.currentPiece rsE ∧
    (Render.currentPiece rsE = None ↔ currentPiece sampleStarted = None).
Proof.
  apply (snapshot_roundtrip sampleStarted sampleRandom).
  exact sampleStarted_reachable.
Defined.

(** C4 as stated fails on the engine that was never started: it has no
    active piece and is not over, and [start] with its snapshot spawns a
    piece. *)
Lemma snapshot_roundtrip_fails_unstarted :
  ∃ rsE E' F rsF F',
    getRenderState (newEngine sampleRandom) = Ok (rsE, E') ∧
    start (Some (getSnapshot (newEngine sampleRandom)))
          (newEngine sampleRandom) = Ok F ∧
    getRenderState F = Ok (rsF, F') ∧
    Render.currentPiece rsE = None ∧
    Render.currentPiece rsF ≠ None.
Proof.
  do 5 eexists.
  split; [vm_compute; reflexivity|].
  split; [vm_compute; reflexivity|].
  split; [vm_compute; reflexivity|].
  split; [reflexivity|]. discriminate.
Qed.

(** * Further properties of the engine *)

(** ** The bag *)

Lemma swap_perm items i j : swap items i j ≡ₚ items.
Proof.
  unfold swap. destruct (items !! i) as [a|] eqn:Ei; [|done].
  destruct (items !! j) as [b|] eqn:Ej; [|done].
  by apply Permutation_insert_swap.
Qed.

Lemma shuffle_loop_perm i : ∀ items g, (shuffle_loop i items g).1 ≡ₚ items.
Proof.
  induction i as [|i IH]; intros items g; [done|].
  cbn [shuffle_loop]. destruct (randomBelow _ g) as [j g'].
  rewrite IH. apply swap_perm.
Qed.

(** X1.  Bag fairness.  [shuffle] returns a permutation of the list it is
    given, whatever the random source draws.  So [ensureQueue] keeps the
    queue it finds as a prefix, and to a queue shorter than seven it appends
    every one of the seven kinds exactly once; a queue of seven or more it
    leaves alone. *)
Theorem ensureQueue_bag_fair (e : TetrisEngine) :
  (∀ items g, (shuffle items g).1 ≡ₚ items) ∧
  ∃ bag g,
    ensureQueue e =
    Ok {| board := board e; queue := queue e ++ bag;
          currentPiece := currentPiece e; running := running e;
          score := score e; linesCleared := linesCleared e;
          gameOver := gameOver e; random := g |} ∧
    ((length (queue e) < 7)%nat →
       bag ≡ₚ TETROMINO_ORDER ∧ NoDup bag ∧ ∀ t : TetrominoType, t ∈ bag) ∧
    ((7 ≤ length (queue e))%nat → bag = [] ∧ g = random e).
Proof.
  split; [intros; apply shuffle_loop_perm|].
  unfold ensureQueue.
  change (length TETROMINO_ORDER) with 7%nat.
  cbn [ensureQueue_loop]. change (length TETROMINO_ORDER) with 7%nat.
  destruct (length (queue e) <? 7)%nat eqn:E.
  - apply Nat.ltb_lt in E.
    pose proof (shuffle_loop_perm (length TETROMINO_ORDER - 1)
                  TETROMINO_ORDER (random e)) as Hperm.
    fold (shuffle TETROMINO_ORDER (random e)) in Hperm.
    destruct (shuffle TETROMINO_ORDER (random e)) as [bag g].
    simpl in Hperm.
    replace (length (queue e ++ bag) <? 7)%nat with false.
    2:{ symmetry. apply Nat.ltb_ge. rewrite length_app, Hperm. simpl. lia. }
    exists bag, g. cbn. split; [done|]. split; [|lia].
    intros _. split; [done|]. split.
    + rewrite Hperm. by apply (bool_decide_unpack (NoDup TETROMINO_ORDER)).
    + intros t. rewrite Hperm. unfold TETROMINO_ORDER.
      destruct t; repeat constructor.
  - apply Nat.ltb_ge in E. exists [], (random e). cbn.
    rewrite !app_nil_r. split; [done|]. split; [lia|done].
Qed.

(** ** Gravity *)

(** X2.  The drop interval never gets longer as lines are cleared, and
    with a line count that is not negative it stays within 400 and 1000
    milliseconds: it is [1000 - 60 * min(floor(lines / 10), 10)], so the
    floor of 300 in [getDropInterval] is never what decides. *)
Theorem getDropInterval_range (e1 e2 : TetrisEngine) :
  0 ≤ linesCleared e1 → linesCleared e1 ≤ linesCleared e2 →
  400 ≤ getDropInterval e2 ∧
  getDropInterval e2 ≤ getDropInterval e1 ∧
  getDropInterval e1 ≤ 1000 ∧
  getDropInterval e1 = 1000 - 60 * Z.min (linesCleared e1 / 10) 10 ∧
  1 ≤ getLevel e1 ≤ getLevel e2.
Proof.
  intros H0 Hle. unfold getDropInterval, getLevel.
  assert (0 ≤ linesCleared e1 / 10) by (apply Z.div_pos; lia).
  assert (linesCleared e1 / 10 ≤ linesCleared e2 / 10)
    by (apply Z.div_le_mono; lia).
  lia.
Qed.

Lemma getDropInterval_range_witness :
  400 ≤ getDropInterval sampleLine ∧
  getDropInterval sampleLine ≤ getDropInterval sampleStarted ∧
  getDropInterval sampleStarted ≤ 1000 ∧
  getDropInterval sampleStarted
    = 1000 - 60 * Z.min (linesCleared sampleStarted / 10) 10 ∧
  1 ≤ getLevel sampleStarted ≤ getLevel sampleLine.
Proof.
  apply (getDropInterval_range sampleStarted sampleLine).
  - vm_compute. discriminate.
  - vm_compute. discriminate.
Defined.

(** ** Polling the render state *)

Lemma ensureQueue_full e :
  (7 ≤ length (queue e))%nat → ensureQueue e = Ok e.
Proof.
  intros H. destruct (ensureQueue_spec e) as (bag & g & -> & _ & Hfull & _).
  destruct (Hfull H) as [-> ->]. rewrite app_nil_r. by destruct e.
Qed.

(** X3.  Polling is idempotent: the engine that [getRenderState] leaves is
    a fixed point of [getRenderState], which returns the same RenderState on
    it again.  Only a poll that finds the queue short changes the engine: with
    seven kinds or more queued the engine is left as it was, and with fewer
    the queue grows by the seven kinds of one bag and nothing else but the
    random source changes. *)
Theorem getRenderState_idempotent (e e1 : TetrisEngine) (rs : RenderState) :
  getRenderState e = Ok (rs, e1) →
  getRenderState e1 = Ok (rs, e1) ∧
  ((7 ≤ length (queue e))%nat → e1 = e) ∧
  (e1 ≠ e → (length (queue e) < 7)%nat) ∧
  ((length (queue e) < 7)%nat →
   ∃ bag, queue e1 = queue e ++ bag ∧ length bag = 7%nat ∧ e1 ≠ e) ∧
  board e1 = board e ∧ currentPiece e1 = currentPiece e ∧
  running e1 = running e ∧ score e1 = score e ∧
  linesCleared e1 = linesCleared e ∧ gameOver e1 = gameOver e.
Proof.
  intros H.
  assert (Hfix : getRenderState e1 = Ok (rs, e1)).
  { pose proof H as H'.
    apply getRenderState_inv in H' as (bag & g & -> & Hlen & _).
    unfold getRenderState in *.
    destruct (ensureQueue_spec e) as (bag' & g' & E & _).
    rewrite E in H. cbn [andThen] in H.
    apply andThen_Ok in H as (ghost & Hg & [= <- Hq Hr]).
    apply app_inv_head in Hq. subst bag' g'.
    rewrite ensureQueue_full by done. cbn [andThen].
    rewrite Hg. reflexivity. }
  split; [exact Hfix|].
  assert (Hfull : (7 ≤ length (queue e))%nat → e1 = e).
  { intros H7. unfold getRenderState in H.
    rewrite (ensureQueue_full e H7) in H. cbn [andThen] in H.
    by apply andThen_Ok in H as (ghost & _ & [= _ <-]). }
  split; [exact Hfull|].
  split.
  { intros Hne. destruct (decide (7 ≤ length (queue e))%nat) as [H7|H7];
      [by destruct Hne; apply Hfull|lia]. }
  unfold getRenderState in H.
  destruct (ensureQueue_spec e) as (bag & g & E & _ & _ & Hshort).
  rewrite E in H. cbn [andThen] in H.
  apply andThen_Ok in H as (ghost & _ & [= _ <-]). cbn.
  split; [|done].
  intros Hlt. exists bag. split; [done|]. split; [by apply Hshort|].
  intros Heq. apply (f_equal (fun s => length (queue s))) in Heq.
  cbn in Heq. rewrite length_app, (Hshort Hlt) in Heq. lia.
Qed.

Lemma getRenderState_idempotent_witness :
  ∃ rs e1, getRenderState sampleStarted = Ok (rs, e1) ∧
    getRenderState e1 = Ok (rs, e1) ∧
    ((7 ≤ length (queue sampleStarted))%nat → e1 = sampleStarted) ∧
    (e1 ≠ sampleStarted → (length (queue sampleStarted) < 7)%nat) ∧
    ((length (queue sampleStarted) < 7)%nat →
     ∃ bag, queue e1 = queue sampleStarted ++ bag ∧ length bag = 7%nat ∧
            e1 ≠ sampleStarted) ∧
    board e1 = board sampleStarted ∧
    currentPiece e1 = currentPiece sampleStarted ∧
    running e1 = running sampleStarted ∧ score e1 = score sampleStarted ∧
    linesCleared e1 = linesCleared sampleStarted ∧
    gameOver e1 = gameOver sampleStarted.
Proof.
  do 2 eexists. split; [vm_compute; reflexivity|].
  apply (getRenderState_idempotent sampleStarted).
  vm_compute. reflexivity.
Defined.

(** ** Starting *)

Lemma spawnNextPiece_piece e e' :
  spawnNextPiece e = Ok e' → currentPiece e' = None → gameOver e' = true.
Proof.
  unfold spawnNextPiece.
  destruct (ensureQueue_spec e) as (bag & g & -> & Hlen & _).
  cbn [andThen queue].
  destruct (queue e ++ bag) as [|t rest]; [simpl in Hlen; lia|].
  destruct (getMatrixForType t) as [|first more]; [done|].
  match goal with |- context [canPlace ?b ?m ?x ?y] =>
    destruct (canPlace b m x y) as [[|]|f] end; cbn [andThen]; [| |done].
  all: by intros [= <-].
Qed.

(** X4.  Whatever the snapshot, a [start] that returns leaves the engine
    running exactly when it is not game over, with a queue that is not
    empty, and with an active piece unless it is game over: a snapshot with
    no piece that is not over gets one spawned, an empty queue is filled. *)
Theorem start_settles (snapshot : option GameSnapshot) (e e' : TetrisEngine) :
  start snapshot e = Ok e' →
  running e' = negb (gameOver e') ∧
  isRunning e' = negb (gameOver e') ∧
  queue e' ≠ [] ∧
  (currentPiece e' = None → gameOver e' = true).
Proof.
  unfold start. intros H. apply andThen_Ok in H as (e1 & H1 & [= <-]).
  cbn. unfold isRunning. cbn.
  split; [done|]. split; [by destruct (gameOver e1)|].
  destruct snapshot as [snapshot|].
  - unfold hydrateFromSnapshot in H1.
    apply andThen_Ok in H1 as (e2 & H2 & H1).
    assert (Hq2 : queue e2 ≠ []).
    { destruct (length _ =? 0)%nat eqn:E in H2.
      - match type of H2 with ensureQueue ?s = _ =>
          destruct (ensureQueue_spec s) as (bag & g & E' & Hlen & _) end.
        rewrite E' in H2. injection H2 as <-. cbn in *.
        intros E0. rewrite E0 in Hlen. simpl in Hlen. lia.
      - injection H2 as <-. apply Nat.eqb_neq in E. cbn in *.
        intros E0. rewrite E0 in E. done. }
    destruct (negb (present (currentPiece e2)) && negb (gameOver e2)) eqn:E.
    + split.
      * apply spawnNextPiece_queue in H1. intros E0. rewrite E0 in H1.
        simpl in H1. lia.
      * by apply (spawnNextPiece_piece e2).
    + injection H1 as <-. split; [done|]. intros Hp. rewrite Hp in E.
      simpl in E. by destruct (gameOver e2).
  - apply andThen_Ok in H1 as (e2 & _ & H1). cbv beta in H1. split.
    + apply spawnNextPiece_queue in H1. intros E0. rewrite E0 in H1.
      simpl in H1. lia.
    + by apply (spawnNextPiece_piece e2).
Qed.

Lemma start_settles_witness :
  ∃ e', start (Some (getSnapshot sampleFullTop)) (newEngine sampleRandom)
        = Ok e' ∧
    running e' = negb (gameOver e') ∧
    isRunning e' = negb (gameOver e') ∧
    queue e' ≠ [] ∧
    (currentPiece e' = None → gameOver e' = true).
Proof.
  eexists. split; [vm_compute; reflexivity|].
  apply (start_settles (Some (getSnapshot sampleFullTop))
           (newEngine sampleRandom)).
  vm_compute. reflexivity.
Defined.

(** ** Moving sideways *)

(** X5.  A move and the opposite move cancel.  In a running engine whose
    piece sits where it places, a [moveLeft] that the board allows followed
    by [moveRight] gives the engine back as it was, and so does
    [moveRight] followed by [moveLeft]. *)
Theorem move_round_trip (e : TetrisEngine) (p : ActivePiece) :
  isRunning e = true → currentPiece e = Some p →
  canPlace (board e) (Piece.matrix p) (Piece.x p) (Piece.y p) = Ok true →
  (canPlace (board e) (Piece.matrix p) (Piece.x p - 1) (Piece.y p) = Ok true →
   ∃ e1, handleAction Action.moveLeft e = Ok e1 ∧
         Piece.x <$> currentPiece e1 = Some (Piece.x p - 1) ∧
         handleAction Action.moveRight e1 = Ok e) ∧
  (canPlace (board e) (Piece.matrix p) (Piece.x p + 1) (Piece.y p) = Ok true →
   ∃ e1, handleAction Action.moveRight e = Ok e1 ∧
         Piece.x <$> currentPiece e1 = Some (Piece.x p + 1) ∧
         handleAction Action.moveLeft e1 = Ok e).
Proof.
  intros Hrun Hp Hhere.
  assert (Hgo : ∀ d,
    canPlace (board e) (Piece.matrix p) (Piece.x p + d) (Piece.y p) = Ok true →
    ∃ e1, shiftPiece d e = Ok e1 ∧
          Piece.x <$> currentPiece e1 = Some (Piece.x p + d) ∧
          isRunning e1 = true ∧ shiftPiece (- d) e1 = Ok e).
  { intros d Hd. unfold shiftPiece at 1. rewrite Hp, Hd. cbn [andThen].
    eexists. split; [reflexivity|]. split; [done|]. split; [done|].
    unfold shiftPiece. cbn.
    replace (Piece.x p + d + - d) with (Piece.x p) by lia.
    fold (canPlace (board e) (Piece.matrix p) (Piece.x p) (Piece.y p)).
    rewrite Hhere. cbn [andThen]. f_equal.
    destruct e, p. cbn in *. by rewrite Hp. }
  split; intros Hd.
  - destruct (Hgo (-1) Hd) as (e1 & E1 & Hx & Hr1 & E2).
    exists e1. unfold handleAction. rewrite Hrun, Hr1. cbn [negb].
    split; [done|]. split; [done|]. exact E2.
  - destruct (Hgo 1 Hd) as (e1 & E1 & Hx & Hr1 & E2).
    exists e1. unfold handleAction. rewrite Hrun, Hr1. cbn [negb].
    split; [done|]. split; [done|]. exact E2.
Qed.

Lemma move_round_trip_witness :
  ∃ e1, handleAction Action.moveLeft sampleStarted = Ok e1 ∧
        Piece.x <$> currentPiece e1 = Some (3 - 1) ∧
        handleAction Action.moveRight e1 = Ok sampleStarted.
Proof.
  destruct (move_round_trip sampleStarted
              (Piece.Build Tetromino.Z [[1; 1; 0]; [0; 1; 1]] 3 (-1)))
    as [Hleft _].
  - vm_compute. reflexivity.
  - vm_compute. reflexivity.
  - vm_compute. reflexivity.
  - apply Hleft. vm_compute. reflexivity.
Defined.

(** ** Pausing *)

Lemma ensureQueue_pause e :
  ensureQueue (pause e) = onOk pause (ensureQueue e).
Proof.
  unfold ensureQueue, pause. cbn [queue random with_running].
  by destruct (ensureQueue_loop _ _ _) as [[q g]|f].
Qed.

Lemma spawnNextPiece_pause e :
  spawnNextPiece (pause e) = onOk pause (spawnNextPiece e).
Proof.
  unfold spawnNextPiece. rewrite ensureQueue_pause.
  destruct (ensureQueue e) as [e1|f]; [|done]. cbn [onOk andThen].
  unfold pause. cbn [queue with_running board].
  destruct (queue e1) as [|t rest]; [done|].
  destruct (getMatrixForType t) as [|first more]; [done|].
  cbn [with_queue board].
  by destruct (canPlace _ _ _ _) as [[|]|f].
Qed.

Lemma lockCurrentPiece_pause e :
  lockCurrentPiece (pause e) = onOk pause (lockCurrentPiece e).
Proof.
  unfold lockCurrentPiece, pause. cbn [currentPiece board with_running].
  destruct (currentPiece e) as [p|]; [|done].
  by destruct (lock_rows _ _ _ _ _ _) as [b|f].
Qed.

Lemma clearLines_pause e :
  clearLines (pause e) = onOk pause (clearLines e).
Proof.
  unfold clearLines, pause. cbn [board with_running].
  destruct (clearLines_loop _ _ _ _) as [[b n]|f]; [|done]. cbn [andThen onOk].
  by destruct (0 <? n)%nat.
Qed.

(** X6.  Pausing gates input, not gravity.  [handleAction] leaves a paused
    engine as it is, but [stepDown] never reads the running flag: on a paused
    engine it moves, locks, clears and spawns exactly as on the running one,
    and the engine it leaves is the paused form of the one it would have
    left. *)
Theorem pause_gates_input_only (e : TetrisEngine) (manual : bool)
    (action : InputAction) :
  handleAction action (pause e) = Ok (pause e) ∧
  isRunning (pause e) = false ∧
  stepDown manual (pause e) = onOk pause (stepDown manual e).
Proof.
  split; [done|]. split; [done|].
  unfold stepDown. cbn [pause currentPiece with_running board].
  destruct (currentPiece e) as [p|] eqn:Hp; [|done].
  destruct (canPlace _ _ _ _) as [[|]|f]; cbn [andThen]; [| |done].
  - by destruct manual.
  - change (with_running false e) with (pause e).
    rewrite lockCurrentPiece_pause.
    destruct (lockCurrentPiece e) as [e1|f]; [|done]. cbn [onOk andThen].
    rewrite clearLines_pause.
    destruct (clearLines e1) as [e2|f]; [|done]. cbn [onOk andThen].
    apply spawnNextPiece_pause.
Qed.

(** ** What locking writes *)

Lemma cellAt_writeCell b boardY boardX t b' r c :
  boardOk b → 0 ≤ boardY < BOARD_HEIGHT → 0 ≤ boardX < BOARD_WIDTH →
  writeCell b boardY boardX t = Ok b' →
  cellAt b' r c =
  if decide (Z.of_nat r = boardY ∧ Z.of_nat c = boardX)
  then Some (Some t) else cellAt b r c.
Proof.
  intros [Hlen Hrows] Hy Hx. unfold writeCell.
  destruct (b !! Z.to_nat boardY) as [brow|] eqn:E.
  2:{ apply lookup_ge_None in E. lia. }
  assert (Hw : length brow = Z.to_nat BOARD_WIDTH).
  { eapply Forall_lookup_1 in Hrows; eauto. }
  replace (Z.to_nat boardX <? length brow)%nat with true
    by (symmetry; apply Nat.ltb_lt; lia).
  intros [= <-]. unfold cellAt.
  destruct (decide (r = Z.to_nat boardY)) as [->|Hr].
  - rewrite list_lookup_insert_eq by lia. rewrite E.
    destruct (decide (c = Z.to_nat boardX)) as [->|Hc].
    + rewrite list_lookup_insert_eq by lia. case_decide; [done|lia].
    + rewrite list_lookup_insert_ne by done. case_decide; [lia|done].
  - rewrite list_lookup_insert_ne by done. case_decide; [lia|done].
Qed.

(** The inner loop of [lockCurrentPiece] writes the cells under the filled
    entries of the row, and no other. *)
Lemma lock_cols_cells x y t row cells : ∀ b col,
  boardOk b →
  ∃ b', lock_cols b x y t row col cells = Ok b' ∧ boardOk b' ∧
    ∀ r c, (r < Z.to_nat BOARD_HEIGHT)%nat → (c < Z.to_nat BOARD_WIDTH)%nat →
      let hit := ∃ i v, cells !! i = Some v ∧ v ≠ 0 ∧
                   Z.of_nat r = y + Z.of_nat row ∧
                   Z.of_nat c = x + Z.of_nat (col + i) in
      (hit → cellAt b' r c = Some (Some t)) ∧
      (¬ hit → cellAt b' r c = cellAt b r c).
Proof.
  induction cells as [|v rest IH]; intros b col Hb.
  { exists b. split; [done|]. split; [done|]. intros r c _ _. split; [|done].
    intros (i & v & Hi & _). by rewrite lookup_nil in Hi. }
  assert (Hskip : ∀ r c,
    (r < Z.to_nat BOARD_HEIGHT)%nat → (c < Z.to_nat BOARD_WIDTH)%nat →
    (v ≠ 0 → Z.of_nat r = y + Z.of_nat row →
     Z.of_nat c = x + Z.of_nat col → False) →
    (∃ i v0, (v :: rest) !! i = Some v0 ∧ v0 ≠ 0 ∧
       Z.of_nat r = y + Z.of_nat row ∧ Z.of_nat c = x + Z.of_nat (col + i)) ↔
    (∃ i v0, rest !! i = Some v0 ∧ v0 ≠ 0 ∧
       Z.of_nat r = y + Z.of_nat row ∧ Z.of_nat c = x + Z.of_nat (S col + i))).
  { intros r c _ _ Hno. split.
    - intros ([|i] & v0 & Hi & Hne & Hr & Hc); simpl in Hi.
      + simplify_eq. exfalso. apply Hno; [done|done|]. rewrite Hc. f_equal. lia.
      + exists i, v0. repeat split; try done. rewrite Hc. f_equal. lia.
    - intros (i & v0 & Hi & Hne & Hr & Hc). exists (S i), v0.
      repeat split; try done. rewrite Hc. f_equal. lia. }
  assert (Hpass : lock_cols b x y t row col (v :: rest)
                  = lock_cols b x y t row (S col) rest →
    (∀ r c, (r < Z.to_nat BOARD_HEIGHT)%nat → (c < Z.to_nat BOARD_WIDTH)%nat →
       v ≠ 0 → Z.of_nat r = y + Z.of_nat row →
       Z.of_nat c = x + Z.of_nat col → False) →
    ∃ b', lock_cols b x y t row col (v :: rest) = Ok b' ∧ boardOk b' ∧
      ∀ r c, (r < Z.to_nat BOARD_HEIGHT)%nat → (c < Z.to_nat BOARD_WIDTH)%nat →
        let hit := ∃ i v0, (v :: rest) !! i = Some v0 ∧ v0 ≠ 0 ∧
                     Z.of_nat r = y + Z.of_nat row ∧
                     Z.of_nat c = x + Z.of_nat (col + i) in
        (hit → cellAt b' r c = Some (Some t)) ∧
        (¬ hit → cellAt b' r c = cellAt b r c)).
  { intros -> Hno. destruct (IH b (S col) Hb) as (b' & -> & Hb' & Hcells).
    exists b'. split; [done|]. split; [done|]. intros r c Hr Hc hit.
    subst hit. rewrite (Hskip r c Hr Hc (Hno r c Hr Hc)). by apply Hcells. }
  assert (Hcons : lock_cols b x y t row col (v :: rest) =
    if v =? 0 then lock_cols b x y t row (S col) rest
    else if y + Z.of_nat row <? 0 then lock_cols b x y t row (S col) rest
    else if (y + Z.of_nat row >=? BOARD_HEIGHT) || (x + Z.of_nat col <? 0)
            || (x + Z.of_nat col >=? BOARD_WIDTH)
    then lock_cols b x y t row (S col) rest
    else let* b := writeCell b (y + Z.of_nat row) (x + Z.of_nat col) t in
         lock_cols b x y t row (S col) rest).
  { cbn [lock_cols]. unfold truthy. by rewrite negb_involutive. }
  destruct (v =? 0) eqn:Ev.
  { apply Hpass; [by rewrite Hcons|]. apply Z.eqb_eq in Ev. intros; done. }
  apply Z.eqb_neq in Ev.
  destruct (y + Z.of_nat row <? 0) eqn:Ey0.
  { apply Hpass; [by rewrite Hcons|]. apply Z.ltb_lt in Ey0. lia. }
  destruct ((y + Z.of_nat row >=? BOARD_HEIGHT) || (x + Z.of_nat col <? 0)
            || (x + Z.of_nat col >=? BOARD_WIDTH)) eqn:Eo.
  { apply Hpass; [by rewrite Hcons|].
    intros r c Hr Hc _ Hry Hcx.
    rewrite !orb_true_iff, Z.ltb_lt, !Z.geb_leb, !Z.leb_le in Eo.
    unfold BOARD_HEIGHT, BOARD_WIDTH in *. lia. }
  rewrite Hcons. clear Hcons.
  apply orb_false_iff in Eo as [Eo Ex1]. apply orb_false_iff in Eo as [Ey1 Ex0].
  rewrite Z.geb_leb in Ey1, Ex1.
  apply Z.ltb_ge in Ey0, Ex0. apply Z.leb_gt in Ey1, Ex1.
  destruct (writeCell_ok b (y + Z.of_nat row) (x + Z.of_nat col) t Hb)
    as (b1 & Hw & Hb1); [lia|lia|].
  rewrite Hw. cbn [andThen].
  destruct (IH b1 (S col) Hb1) as (b' & -> & Hb' & Hcells).
  exists b'. split; [done|]. split; [done|]. intros r c Hr Hc. cbv zeta.
  pose proof (cellAt_writeCell b (y + Z.of_nat row) (x + Z.of_nat col) t b1
                r c Hb ltac:(lia) ltac:(lia) Hw) as Hcell.
  destruct (Hcells r c Hr Hc) as [Hhit Hmiss]. split.
  - intros ([|i] & v0 & Hi & Hne & Hry & Hcx); simpl in Hi.
    + rewrite Hmiss.
      * rewrite Hcell. case_decide as Hd; [done|].
        exfalso. apply Hd. split; [done|]. rewrite Hcx. f_equal. lia.
      * intros (i' & _ & _ & _ & _ & Hc'). lia.
    + apply Hhit. exists i, v0. repeat split; try done. rewrite Hcx. f_equal. lia.
  - intros Hno. rewrite Hmiss.
    + rewrite Hcell. case_decide as Hd; [|done].
      exfalso. apply Hno. exists 0%nat, v. destruct Hd as [Hd1 Hd2].
      repeat split; try done. rewrite Hd2. f_equal. lia.
    + intros (i & v0 & Hi & Hne & Hry & Hcx). apply Hno.
      exists (S i), v0. repeat split; try done. rewrite Hcx. f_equal. lia.
Qed.

(** The outer loop of [lockCurrentPiece] writes the cells under the filled
    entries of the matrix, and no other. *)
Lemma lock_rows_cells x y t rows : ∀ b row,
  boardOk b →
  ∃ b', lock_rows b x y t row rows = Ok b' ∧ boardOk b' ∧
    ∀ r c, (r < Z.to_nat BOARD_HEIGHT)%nat → (c < Z.to_nat BOARD_WIDTH)%nat →
      let hit := ∃ i j, filled rows i j ∧
                   Z.of_nat r = y + Z.of_nat (row + i) ∧
                   Z.of_nat c = x + Z.of_nat j in
      (hit → cellAt b' r c = Some (Some t)) ∧
      (¬ hit → cellAt b' r c = cellAt b r c).
Proof.
  induction rows as [|cells rest IH]; intros b row Hb.
  { exists b. split; [done|]. split; [done|]. intros r c _ _. split; [|done].
    intros (i & j & (cs & v & Hi & _) & _). by rewrite lookup_nil in Hi. }
  cbn [lock_rows].
  destruct (lock_cols_cells x y t row cells b 0%nat Hb)
    as (b1 & -> & Hb1 & Hcols).
  cbn [andThen].
  destruct (IH b1 (S row) Hb1) as (b' & -> & Hb' & Hrows).
  exists b'. split; [done|]. split; [done|]. intros r c Hr Hc. cbv zeta.
  destruct (Hcols r c Hr Hc) as [Hhit1 Hmiss1].
  destruct (Hrows r c Hr Hc) as [Hhit2 Hmiss2]. split.
  - intros ([|i] & j & (cs & v & Hi & Hj & Hne) & Hry & Hcx); simpl in Hi.
    + simplify_eq. rewrite Hmiss2.
      * apply Hhit1. exists j, v. repeat split; try done.
        rewrite Hry. f_equal. lia.
      * intros (i' & _ & _ & Hr' & _). lia.
    + apply Hhit2. exists i, j. split; [by exists cs, v|].
      split; [|done]. rewrite Hry. f_equal. lia.
  - intros Hno. rewrite Hmiss2, Hmiss1; [done| |].
    + intros (j & v & Hj & Hne & Hry & Hcx). apply Hno.
      exists 0%nat, j. split; [by exists cells, v|].
      split; [|done]. rewrite Hry. f_equal. lia.
    + intros (i & j & (cs & v & Hi & Hj & Hne) & Hry & Hcx). apply Hno.
      exists (S i), j. split; [by exists cs, v|].
      split; [|done]. rewrite Hry. f_equal. lia.
Qed.

Lemma lockCurrentPiece_cells e p :
  boardOk (board e) → currentPiece e = Some p →
  ∃ b', boardOk b' ∧
    lockCurrentPiece e =
    Ok {| board := b'; queue := queue e; currentPiece := None;
          running := running e; score := score e;
          linesCleared := linesCleared e; gameOver := gameOver e;
          random := random e |} ∧
    ∀ r c, (r < Z.to_nat BOARD_HEIGHT)%nat → (c < Z.to_nat BOARD_WIDTH)%nat →
      (covers p r c → cellAt b' r c = Some (Some (Piece.type p))) ∧
      (¬ covers p r c → cellAt b' r c = cellAt (board e) r c).
Proof.
  intros Hb Hp. unfold lockCurrentPiece. rewrite Hp.
  destruct (lock_rows_cells (Piece.x p) (Piece.y p) (Piece.type p)
              (Piece.matrix p) (board e) 0%nat Hb) as (b' & -> & Hb' & Hcells).
  exists b'. split; [done|]. split; [reflexivity|].
  intros r c Hr Hc. apply (Hcells r c Hr Hc).
Qed.

(** X7.  What locking writes.  On a well-formed board [lockCurrentPiece]
    returns with the active piece cleared; every board cell under a filled
    cell of the piece holds the piece's kind, every other board cell is as it
    was, and filled cells above the board (or outside it) are dropped.
    Queue, score, counters and flags are untouched. *)
Theorem lock_writes_covered_cells (e : TetrisEngine) (p : ActivePiece) :
  boardOk (board e) → currentPiece e = Some p →
  ∃ b', boardOk b' ∧
    lockCurrentPiece e =
    Ok {| board := b'; queue := queue e; currentPiece := None;
          running := running e; score := score e;
          linesCleared := linesCleared e; gameOver := gameOver e;
          random := random e |} ∧
    ∀ r c, (r < Z.to_nat BOARD_HEIGHT)%nat → (c < Z.to_nat BOARD_WIDTH)%nat →
      (covers p r c → cellAt b' r c = Some (Some (Piece.type p))) ∧
      (¬ covers p r c → cellAt b' r c = cellAt (board e) r c).
Proof. exact (lockCurrentPiece_cells e p). Qed.

Lemma cellAt_in_board b r c t :
  boardOk b → cellAt b r c = Some t →
  (r < Z.to_nat BOARD_HEIGHT)%nat ∧ (c < Z.to_nat BOARD_WIDTH)%nat.
Proof.
  intros [Hlen Hrows]. unfold cellAt.
  destruct (b !! r) as [cells|] eqn:Er; [|done]. intros Hc.
  apply lookup_lt_Some in Hc. pose proof (lookup_lt_Some _ _ _ Er).
  eapply Forall_lookup_1 in Hrows; [|exact Er]. lia.
Qed.

(** A piece that places covers no occupied cell. *)
Lemma placed_not_covers b p r c t :
  hasRows b →
  canPlace b (Piece.matrix p) (Piece.x p) (Piece.y p) = Ok true →
  cellAt b r c = Some (Some t) → ¬ covers p r c.
Proof.
  intros Hb Hplace Hcell (i & j & Hf & Hr & Hc).
  unfold canPlace in Hplace.
  destruct (canPlace_rows_spec b (Piece.x p) (Piece.y p) (Piece.matrix p)
              Hb 0%nat) as [[E _]|[_ Hall]]; [congruence|].
  apply (Hall i j Hf). simpl. unfold rejected. cbv zeta.
  rewrite <- Hr, <- Hc, !Nat2Z.id.
  unfold cellAt in Hcell.
  destruct (b !! r) as [cells|] eqn:Er; [|done].
  destruct (decide (Z.of_nat c < 0 ∨ BOARD_WIDTH ≤ Z.of_nat c
                    ∨ BOARD_HEIGHT ≤ Z.of_nat r)) as [?|Hin]; [tauto|].
  right; right; right. split; [lia|]. split; [lia|]. eauto.
Qed.

(** X8.  Locking never overwrites.  When the active piece sits where it
    places, every cell that held a tag before [lockCurrentPiece] holds the
    same tag after it. *)
Theorem lock_keeps_occupied_cells (e : TetrisEngine) (p : ActivePiece) :
  boardOk (board e) → currentPiece e = Some p →
  canPlace (board e) (Piece.matrix p) (Piece.x p) (Piece.y p) = Ok true →
  ∃ e', lockCurrentPiece e = Ok e' ∧
    ∀ r c t, cellAt (board e) r c = Some (Some t) →
             cellAt (board e') r c = Some (Some t).
Proof.
  intros Hb Hp Hplace.
  destruct (lockCurrentPiece_cells e p Hb Hp) as (b' & Hb' & -> & Hcells).
  eexists. split; [reflexivity|]. cbn. intros r c t Hcell.
  destruct (cellAt_in_board _ _ _ _ Hb Hcell) as [Hr Hc].
  destruct (Hcells r c Hr Hc) as [_ Hmiss]. rewrite Hmiss; [done|].
  apply (placed_not_covers (board e) p r c t); [|done|done].
  by apply boardOk_hasRows.
Qed.

Lemma lock_writes_covered_cells_witness :
  ∃ b', boardOk b' ∧
    lockCurrentPiece sampleDropping =
    Ok {| board := b'; queue := queue sampleDropping; currentPiece := None;
          running := true; score := 0; linesCleared := 0; gameOver := false;
          random := sampleRandom |} ∧
    ∀ r c, (r < Z.to_nat BOARD_HEIGHT)%nat → (c < Z.to_nat BOARD_WIDTH)%nat →
      (covers (Piece.Build Tetromino.I verticalI 0 0) r c →
       cellAt b' r c = Some (Some Tetromino.I)) ∧
      (¬ covers (Piece.Build Tetromino.I verticalI 0 0) r c →
       cellAt b' r c = cellAt createEmptyBoard r c).
Proof.
  apply (lock_writes_covered_cells sampleDropping
           (Piece.Build Tetromino.I verticalI 0 0)).
  - split; [reflexivity|]. apply Forall_replicate. reflexivity.
  - reflexivity.
Defined.

Lemma lock_keeps_occupied_cells_witness :
  ∃ e', lockCurrentPiece samplePiled = Ok e' ∧
    cellAt (board samplePiled) 14 4 = Some (Some Tetromino.T) ∧
    cellAt (board e') 14 4 = Some (Some Tetromino.T) ∧
    cellAt (board samplePiled) 19 5 = Some (Some Tetromino.Z) ∧
    cellAt (board e') 19 5 = Some (Some Tetromino.Z).
Proof.
  destruct (lock_keeps_occupied_cells samplePiled
              (Piece.Build Tetromino.O [[1; 1]; [1; 1]] 4 12))
    as (e' & He' & Hkeep).
  - unfold boardOk. vm_compute. split; [reflexivity|repeat constructor].
  - vm_compute. reflexivity.
  - vm_compute. reflexivity.
  - exists e'. split; [exact He'|].
    split; [vm_compute; reflexivity|].
    split; [apply Hkeep; vm_compute; reflexivity|].
    split; [vm_compute; reflexivity|].
    apply Hkeep. vm_compute. reflexivity.
Defined.

(** ** What play keeps true *)

Lemma cleared_no_complete b :
  boardOk b → Forall (fun cells : list Cell => complete cells = false)
                     (cleared b).
Proof.
  intros [Hlen _]. unfold cleared.
  rewrite drop_ge, app_nil_r by lia. apply Forall_app. split.
  - apply Forall_replicate. apply emptyRow_not_complete.
  - apply Forall_forall. intros cells Hin.
    apply list_elem_of_filter in Hin as [Hin _].
    destruct (complete cells); [|done]. by destruct Hin.
Qed.

Lemma turned_candidate t : turned (candidate t).
Proof.
  split; [|cbn; lia]. unfold candidate, rotations. cbn [Piece.matrix Piece.type].
  apply list_elem_of_here.
Qed.

Lemma rotations_closed t m :
  m ∈ rotations t → quarterTurn m ∈ rotations t.
Proof.
  unfold rotations. cbv zeta. rewrite !elem_of_cons.
  intros [->|[->|[->|[->|H]]]]; [| | | |by apply elem_of_nil in H].
  - right; left. done.
  - do 2 right. left. done.
  - do 3 right. left. done.
  - left. destruct t; vm_compute; reflexivity.
Qed.

Lemma playOk_same e e' :
  board e' = board e → currentPiece e' = currentPiece e →
  playOk e → playOk e'.
Proof. unfold playOk, placed. by intros -> ->. Qed.

(** The tail of a lock leaves a cleared board and a fresh candidate that
    places, or no piece. *)
Lemma lock_clear_spawn_play e p e' :
  boardOk (board e) → currentPiece e = Some p →
  (let* e := lockCurrentPiece e in
   let* e := clearLines e in
   spawnNextPiece e) = Ok e' → playOk e'.
Proof.
  intros Hb Hp.
  destruct (lockCurrentPiece_spec e p Hb Hp) as (b1 & Hb1 & ->).
  cbn [andThen].
  match goal with |- context [clearLines ?s] =>
    destruct (clearLines_spec s) as (sc & ln & -> & _) end.
  { by apply boardOk_hasRows. }
  cbn [andThen board].
  match goal with |- context [spawnNextPiece ?s] => set (s1 := s) end.
  destruct (spawnNextPiece_spec s1)
    as (bag & g & t & rest & _ & _ & _ & Hspawn).
  { by apply boardOk_hasRows, cleared_ok. }
  pose proof (cleared_no_complete b1 Hb1) as Hnc.
  destruct Hspawn as [[Hfit ->]|[_ ->]]; intros [= <-];
    (split; [|split]); cbn; try done.
  - intros p' [= <-]. exact Hfit.
  - intros p' [= <-]. apply turned_candidate.
Qed.

Lemma stepDown_play manual e e' :
  stateOk e → playOk e → stepDown manual e = Ok e' → playOk e'.
Proof.
  intros He Hplay. pose proof (ok_board e He) as Hb.
  unfold stepDown. destruct (currentPiece e) as [p|] eqn:Hp.
  2:{ by intros [= <-]. }
  pose proof Hplay as (Hpl & Hnc & Htu).
  destruct (canPlace_returns (board e) (Piece.matrix p) (Piece.x p)
              (Piece.y p + 1)) as [E|E]; [by apply boardOk_hasRows|..];
    rewrite E; cbn [andThen].
  - destruct (Htu p Hp) as [Hm Hy].
    destruct manual; intros [= <-]; (split; [|split]); cbn; try done.
    all: intros p' [= <-];
      first [exact E | split; cbn; [done|lia]].
  - by apply (lock_clear_spawn_play e p).
Qed.

Lemma hardDrop_play e e' :
  stateOk e → playOk e → hardDrop e = Ok e' → playOk e'.
Proof.
  intros He Hplay. pose proof (ok_board e He) as Hb.
  unfold hardDrop. destruct (currentPiece e) as [p|] eqn:Hp.
  2:{ by intros [= <-]. }
  destruct (hardDrop_loop _ _ _ _) as [[p' d]|f]; cbn [andThen]; [|done].
  destruct (d >? 0); by apply (lock_clear_spawn_play _ p').
Qed.

Lemma shiftPiece_play deltaX e e' :
  stateOk e → playOk e → shiftPiece deltaX e = Ok e' → playOk e'.
Proof.
  intros He Hplay. pose proof (ok_board e He) as Hb.
  unfold shiftPiece. destruct (currentPiece e) as [p|] eqn:Hp.
  2:{ by intros [= <-]. }
  pose proof Hplay as (Hpl & Hnc & Htu).
  destruct (canPlace_returns (board e) (Piece.matrix p)
              (Piece.x p + deltaX) (Piece.y p)) as [E|E];
    [by apply boardOk_hasRows|..]; rewrite E; cbn [andThen].
  - intros [= <-]. (split; [|split]); cbn; try done.
    all: intros p' [= <-]; first [exact E | apply (Htu p Hp)].
  - by intros [= <-].
Qed.

Lemma rotatePiece_play e e' :
  stateOk e → playOk e → rotatePiece e = Ok e' → playOk e'.
Proof.
  intros He Hplay. pose proof (ok_board e He) as Hb.
  unfold rotatePiece. destruct (currentPiece e) as [p|] eqn:Hp.
  2:{ by intros [= <-]. }
  pose proof Hplay as (Hpl & Hnc & Htu).
  rewrite rotateMatrix_quarterTurn
    by (apply pieceOk_nonempty; by apply (ok_piece e He)).
  cbn [andThen].
  destruct (rotatePiece_kicks_spec (board e) p
              (quarterTurn (Piece.matrix p)) kicks)
    as [(pre & off & post & _ & _ & Hfit & ->)|[_ ->]];
    [by apply boardOk_hasRows|..]; cbn [andThen]; intros [= <-].
  - destruct (Htu p Hp) as [Hm Hy].
    (split; [|split]); cbn; try done.
    all: intros p' [= <-];
      first [exact Hfit | split; cbn; [by apply rotations_closed|done]].
  - by rewrite with_currentPiece_same by done.
Qed.

(** Every call but [start] keeps [playOk] in a session. *)
Lemma perform_play c e e' :
  stateOk e → playOk e → isStart c = false →
  perform c e = Ok e' → playOk e'.
Proof.
  intros He Hplay Hc.
  destruct c; cbn [isStart perform] in *; try done.
  - intros [= <-]. by apply (playOk_same e).
  - intros [= <-]. apply (playOk_same e); [| |done];
      unfold resume; by destruct (negb (gameOver e)).
  - by intros [= <-].
  - intros H. apply andThen_Ok in H as ([rs e1] & H1 & [= <-]).
    apply getRenderState_inv in H1 as (bag & g & -> & _).
    by apply (playOk_same e).
  - by intros [= <-].
  - unfold handleAction. destruct (negb (isRunning e)); [by intros [= <-]|].
    destruct action; eauto using shiftPiece_play, rotatePiece_play,
      stepDown_play, hardDrop_play.
  - by apply stepDown_play.
  - by intros [= <-].
Qed.

Lemma reachable_play e : reachable e → playOk e.
Proof.
  induction 1 as [e0 e Hs|e c e' Hr IH Hc Hp|e e0 e' Hr IH Hs].
  - destruct (start_fresh_spec e0) as (t & rest & g & _ & E).
    rewrite E in Hs. injection Hs as <-. (split; [|split]); cbn.
    + intros p [= <-]. apply canPlace_empty_spawn.
    + apply Forall_replicate. apply emptyRow_not_complete.
    + intros p [= <-]. apply turned_candidate.
  - apply reachable_ok in Hr. by apply (perform_play c e).
  - pose proof (reachable_ok e Hr) as [Hb Hpc Hq Hov _ _].
    rewrite start_snapshot_spec in Hs.
    + injection Hs as <-. by apply (playOk_same e).
    + intros E. rewrite E in Hq. simpl in Hq. lia.
    + apply Hov.
Qed.

(** X9.  In a session the active piece never collides: the collision test
    passes at its position, so every filled cell of it is inside the
    columns of the board, above the bottom edge, and, when it is inside the
    board, over an empty cell. *)
Theorem session_piece_fits (e : TetrisEngine) (p : ActivePiece) :
  reachable e → currentPiece e = Some p →
  canPlace (board e) (Piece.matrix p) (Piece.x p) (Piece.y p) = Ok true ∧
  ∀ i j, filled (Piece.matrix p) i j →
    0 ≤ Piece.x p + Z.of_nat j < BOARD_WIDTH ∧
    Piece.y p + Z.of_nat i < BOARD_HEIGHT ∧
    (0 ≤ Piece.y p + Z.of_nat i →
     cellAt (board e) (Z.to_nat (Piece.y p + Z.of_nat i))
            (Z.to_nat (Piece.x p + Z.of_nat j)) = Some None).
Proof.
  intros Hr Hp. pose proof (reachable_play e Hr) as (Hpl & _).
  pose proof (reachable_ok e Hr) as [[Hlen Hrows] _ _ _ _ _].
  specialize (Hpl p Hp). split; [done|]. intros i j Hf.
  unfold canPlace in Hpl.
  destruct (canPlace_rows_spec (board e) (Piece.x p) (Piece.y p)
              (Piece.matrix p) ltac:(unfold hasRows; lia) 0%nat)
    as [[E _]|[_ Hall]]; [congruence|].
  specialize (Hall i j Hf). simpl in Hall. unfold rejected in Hall.
  cbv zeta in Hall.
  split; [lia|]. split; [lia|]. intros Hy0. unfold cellAt.
  destruct (board e !! Z.to_nat (Piece.y p + Z.of_nat i)) as [cells|] eqn:Er.
  2:{ apply lookup_ge_None in Er. lia. }
  eapply Forall_lookup_1 in Hrows; [|exact Er].
  destruct (cells !! Z.to_nat (Piece.x p + Z.of_nat j)) as [[t|]|] eqn:Ec.
  - exfalso. apply Hall. right; right; right.
    split; [lia|]. split; [lia|]. eauto.
  - done.
  - apply lookup_ge_None in Ec. lia.
Qed.

Lemma session_piece_fits_witness :
  canPlace (board sampleStarted) [[1; 1; 0]; [0; 1; 1]] 3 (-1) = Ok true ∧
  ∀ i j, filled [[1; 1; 0]; [0; 1; 1]] i j →
    0 ≤ 3 + Z.of_nat j < BOARD_WIDTH ∧
    -1 + Z.of_nat i < BOARD_HEIGHT ∧
    (0 ≤ -1 + Z.of_nat i →
     cellAt (board sampleStarted) (Z.to_nat (-1 + Z.of_nat i))
            (Z.to_nat (3 + Z.of_nat j)) = Some None).
Proof.
  apply (session_piece_fits sampleStarted
           (Piece.Build Tetromino.Z [[1; 1; 0]; [0; 1; 1]] 3 (-1))).
  - exact sampleStarted_reachable.
  - vm_compute. reflexivity.
Defined.

Lemma no_complete_filter (b : list (list Cell)) :
  Forall (fun cells : list Cell => complete cells = false) b →
  filter (fun cells : list Cell => complete cells) b = [].
Proof.
  induction 1 as [|cells b Hc _ IH]; [done|].
  rewrite filter_cons_False by (rewrite Hc; cbn; tauto). done.
Qed.

(** X10.  In a session the board always has its 20 rows of 10 cells and
    never holds a complete row: every lock is followed by the line clear
    before the engine can be observed. *)
Theorem session_board_shape (e : TetrisEngine) :
  reachable e →
  length (board e) = 20%nat ∧
  Forall (fun cells : list Cell => length cells = 10%nat) (board e) ∧
  Forall (fun cells : list Cell => complete cells = false) (board e) ∧
  completeRows (board e) = 0%nat.
Proof.
  intros Hr. pose proof (reachable_play e Hr) as (_ & Hnc & _).
  pose proof (reachable_ok e Hr) as [[Hlen Hrows] _ _ _ _ _].
  split; [done|]. split; [done|]. split; [done|].
  unfold completeRows. rewrite firstn_all2 by lia.
  by rewrite no_complete_filter.
Qed.

Lemma session_board_shape_witness :
  length (board sampleOver) = 20%nat ∧
  Forall (fun cells : list Cell => length cells = 10%nat) (board sampleOver) ∧
  Forall (fun cells : list Cell => complete cells = false)
         (board sampleOver) ∧
  completeRows (board sampleOver) = 0%nat.
Proof.
  apply (session_board_shape sampleOver). exact sampleOver_reachable.
Defined.

Lemma rotations_cellCount t m : m ∈ rotations t → cellCount m = 4%nat.
Proof.
  unfold rotations. cbv zeta. rewrite !elem_of_cons.
  intros [->|[->|[->|[->|H]]]]; [| | | |by apply elem_of_nil in H];
    destruct t; vm_compute; reflexivity.
Qed.

(** X11.  In a session the active piece is always its own kind's shape: its
    matrix is one of the four quarter turns of the canonical matrix of its
    kind, so it has exactly four filled cells, and it is never above the
    spawn row [y = -1]. *)
Theorem session_piece_shape (e : TetrisEngine) (p : ActivePiece) :
  reachable e → currentPiece e = Some p →
  Piece.matrix p ∈ rotations (Piece.type p) ∧
  cellCount (Piece.matrix p) = 4%nat ∧
  -1 ≤ Piece.y p.
Proof.
  intros Hr Hp. pose proof (reachable_play e Hr) as (_ & _ & Htu).
  destruct (Htu p Hp) as [Hm Hy]. split; [done|]. split; [|done].
  by apply (rotations_cellCount (Piece.type p)).
Qed.

Lemma session_piece_shape_witness :
  [[1; 1; 0]; [0; 1; 1]] ∈ rotations Tetromino.Z ∧
  cellCount [[1; 1; 0]; [0; 1; 1]] = 4%nat ∧
  -1 ≤ -1.
Proof.
  apply (session_piece_shape sampleStarted
           (Piece.Build Tetromino.Z [[1; 1; 0]; [0; 1; 1]] 3 (-1))).
  - exact sampleStarted_reachable.
  - vm_compute. reflexivity.
Defined.

(** ** Turning a matrix *)

Lemma rect_first R C m :
  rect R C m → (0 < R)%nat → length (default [] (m !! 0%nat)) = C.
Proof.
  intros [Hlen Hrows] HR. destruct m as [|first rest]; [simpl in Hlen; lia|].
  simpl. by apply Forall_cons in Hrows as [? _].
Qed.

Lemma quarterTurn_rect R C m :
  rect R C m → (0 < R)%nat →
  rect C R (quarterTurn m) ∧
  ∀ a b, (a < C)%nat → (b < R)%nat →
         entry (quarterTurn m) a b = entry m (R - 1 - b) a.
Proof.
  intros Hm HR. pose proof (rect_first R C m Hm HR) as HC.
  destruct Hm as [Hlen Hrows].
  destruct (quarterTurn_cells m) as (Hl & Hr & Hcells).
  rewrite HC, Hlen in *. split.
  - split; [done|]. apply Forall_forall. intros cells Hin. by apply Hr.
  - intros a b Ha Hb. rewrite <- (Hcells (R - 1 - b)%nat a) by lia.
    f_equal. lia.
Qed.

Lemma rect_ext R C m m' :
  rect R C m → rect R C m' →
  (∀ a b, (a < R)%nat → (b < C)%nat → entry m a b = entry m' a b) →
  m = m'.
Proof.
  intros [Hlen Hrows] [Hlen' Hrows'] Hent. apply list_eq. intros a.
  destruct (decide (a < R)%nat) as [Ha|Ha].
  2:{ rewrite !lookup_ge_None_2 by lia. done. }
  destruct (lookup_lt_is_Some_2 m a) as [cells Ec]; [lia|].
  destruct (lookup_lt_is_Some_2 m' a) as [cells' Ec']; [lia|].
  rewrite Ec, Ec'. f_equal.
  eapply Forall_lookup_1 in Hrows; [|exact Ec].
  eapply Forall_lookup_1 in Hrows'; [|exact Ec'].
  apply list_eq. intros b.
  destruct (decide (b < C)%nat) as [Hb|Hb].
  2:{ rewrite !lookup_ge_None_2 by lia. done. }
  specialize (Hent a b Ha Hb). unfold entry in Hent.
  rewrite Ec, Ec' in Hent. simpl in Hent.
  destruct (lookup_lt_is_Some_2 cells b) as [v Ev]; [lia|].
  destruct (lookup_lt_is_Some_2 cells' b) as [v' Ev']; [lia|].
  rewrite Ev, Ev' in *. simpl in Hent. by subst.
Qed.

Lemma rect_nonempty R C m : rect R C m → (0 < R)%nat → m ≠ [].
Proof. intros [Hlen _] HR ->. simpl in Hlen. lia. Qed.

(** X12.  Four quarter turns are the identity.  On a matrix of [R] rows of
    [C] entries, [rotateMatrix] returns a matrix of [C] rows of [R] entries;
    applied twice it gives the half turn
    [result[a][b] = source[R-1-a][C-1-b]], and applied four times it gives
    the matrix back. *)
Theorem rotateMatrix_four_times (R C : nat) (m : list (list Z)) :
  rect R C m → (0 < R)%nat → (0 < C)%nat →
  ∃ m1 m2 m3,
    rotateMatrix m = Ok m1 ∧ rect C R m1 ∧
    rotateMatrix m1 = Ok m2 ∧ rect R C m2 ∧
    (∀ a b, (a < R)%nat → (b < C)%nat →
            entry m2 a b = entry m (R - 1 - a) (C - 1 - b)) ∧
    rotateMatrix m2 = Ok m3 ∧
    rotateMatrix m3 = Ok m.
Proof.
  intros Hm HR HC.
  destruct (quarterTurn_rect R C m Hm HR) as [H1 E1].
  destruct (quarterTurn_rect C R _ H1 HC) as [H2 E2].
  destruct (quarterTurn_rect R C _ H2 HR) as [H3 E3].
  destruct (quarterTurn_rect C R _ H3 HC) as [H4 E4].
  exists (quarterTurn m), (quarterTurn (quarterTurn m)),
    (quarterTurn (quarterTurn (quarterTurn m))).
  rewrite !rotateMatrix_quarterTurn by eauto using rect_nonempty.
  repeat split; try done; try apply H1; try apply H2.
  - intros a b Ha Hb. rewrite E2, E1 by lia. done.
  - f_equal. apply (rect_ext R C); [done|done|].
    intros a b Ha Hb. rewrite E4, E3, E2, E1 by lia. f_equal; lia.
Qed.

Lemma rotateMatrix_four_times_witness :
  ∃ m1 m2 m3,
    rotateMatrix [[0; 1; 0]; [1; 1; 1]] = Ok m1 ∧ rect 3 2 m1 ∧
    rotateMatrix m1 = Ok m2 ∧ rect 2 3 m2 ∧
    (∀ a b, (a < 2)%nat → (b < 3)%nat →
            entry m2 a b
            = entry [[0; 1; 0]; [1; 1; 1]] (2 - 1 - a) (3 - 1 - b)) ∧
    rotateMatrix m2 = Ok m3 ∧
    rotateMatrix m3 = Ok [[0; 1; 0]; [1; 1; 1]].
Proof.
  apply (rotateMatrix_four_times 2 3 [[0; 1; 0]; [1; 1; 1]]).
  - split; [reflexivity|]. repeat constructor.
  - lia.
  - lia.
Defined.

(** ** Hard drop and soft steps *)

Lemma ensureQueue_addScore k e :
  ensureQueue (addScore k e) = onOk (addScore k) (ensureQueue e).
Proof.
  unfold ensureQueue, addScore. cbn [queue random with_score].
  by destruct (ensureQueue_loop _ _ _) as [[q g]|f].
Qed.

Lemma spawnNextPiece_addScore k e :
  spawnNextPiece (addScore k e) = onOk (addScore k) (spawnNextPiece e).
Proof.
  unfold spawnNextPiece. rewrite ensureQueue_addScore.
  destruct (ensureQueue e) as [e1|f]; [|done]. cbn [onOk andThen].
  unfold addScore. cbn [queue with_score board].
  destruct (queue e1) as [|t rest]; [done|].
  destruct (getMatrixForType t) as [|first more]; [done|].
  cbn [with_queue board].
  by destruct (canPlace _ _ _ _) as [[|]|f].
Qed.

Lemma lockCurrentPiece_addScore k e :
  lockCurrentPiece (addScore k e) = onOk (addScore k) (lockCurrentPiece e).
Proof.
  unfold lockCurrentPiece, addScore. cbn [currentPiece board with_score].
  destruct (currentPiece e) as [p|]; [|done].
  by destruct (lock_rows _ _ _ _ _ _) as [b|f].
Qed.

Lemma clearLines_addScore k e :
  clearLines (addScore k e) = onOk (addScore k) (clearLines e).
Proof.
  unfold clearLines, addScore. cbn [board with_score].
  destruct (clearLines_loop _ _ _ _) as [[b n]|f]; [|done].
  cbn [andThen onOk]. destruct (0 <? n)%nat; [|done].
  cbn. unfold getLevel, with_score, with_linesCleared, with_board. cbn.
  do 2 f_equal. lia.
Qed.

Lemma lock_clear_spawn_addScore k e :
  (let* e := lockCurrentPiece (addScore k e) in
   let* e := clearLines e in
   spawnNextPiece e) =
  onOk (addScore k)
    (let* e := lockCurrentPiece e in
     let* e := clearLines e in
     spawnNextPiece e).
Proof.
  rewrite lockCurrentPiece_addScore.
  destruct (lockCurrentPiece e) as [e1|f]; [|done]. cbn [onOk andThen].
  rewrite clearLines_addScore.
  destruct (clearLines e1) as [e2|f]; [|done]. cbn [onOk andThen].
  apply spawnNextPiece_addScore.
Qed.

(** [n] gravity steps over rows that all place move the piece down [n]
    rows and change nothing else. *)
Lemma stepDown_descends n : ∀ e p,
  currentPiece e = Some p →
  (∀ k, Piece.y p < k ≤ Piece.y p + Z.of_nat n →
        canPlace (board e) (Piece.matrix p) (Piece.x p) k = Ok true) →
  performAll (replicate n (CallStepDown false)) e =
  Ok (with_currentPiece (Some (with_y (Piece.y p + Z.of_nat n) p)) e).
Proof.
  induction n as [|n IH]; intros e p Hp Hway.
  { cbn [replicate performAll]. f_equal.
    replace (Piece.y p + Z.of_nat 0) with (Piece.y p) by lia.
    rewrite with_y_same. by rewrite with_currentPiece_same. }
  cbn [replicate performAll perform]. unfold stepDown. rewrite Hp.
  rewrite Hway by lia. cbn [andThen].
  rewrite (IH _ (with_y (Piece.y p + 1) p)).
  - f_equal. destruct e, p. unfold with_currentPiece, with_y. cbn.
    do 3 f_equal. lia.
  - done.
  - intros k Hk. cbn in *. apply Hway. lia.
Qed.

(** X13.  A hard drop is the soft steps it skips.  With the piece landing
    [d] rows down, [hardDrop] leaves exactly the engine that [d + 1] calls of
    [stepDown(false)] leave ([d] to descend, one to lock, clear and spawn),
    with [2 * d] more points. *)
Theorem hardDrop_as_steps (e : TetrisEngine) (p : ActivePiece) :
  boardOk (board e) → currentPiece e = Some p →
  (∃ i j, filled (Piece.matrix p) i j) →
  ∃ y' e' e'',
    landing (board e) p (Piece.y p) y' ∧
    hardDrop e = Ok e' ∧
    performAll (replicate (S (Z.to_nat (y' - Piece.y p))) (CallStepDown false))
               e = Ok e'' ∧
    e' = addScore (2 * (y' - Piece.y p)) e''.
Proof.
  intros Hb Hp Hf. pose proof (boardOk_hasRows _ Hb) as Hrows.
  destruct (hardDrop_loop_spec (board e) (dropFuel p) p 0 Hrows Hf)
    as (y' & Hloop & Hland); [done|].
  pose proof Hland as (Hle & Hway & Hend).
  set (d := y' - Piece.y p) in *.
  set (e1 := with_currentPiece (Some (with_y y' p)) e).
  destruct (lock_clear_spawn_spec e1 (with_y y' p)) as (e'' & Htail & _);
    [done|done|].
  exists y', (addScore (2 * d) e''), e''. split; [done|].
  assert (Hsteps :
    performAll (replicate (S (Z.to_nat d)) (CallStepDown false)) e = Ok e'').
  { replace (S (Z.to_nat d)) with (Z.to_nat d + 1)%nat by lia.
    rewrite replicate_add.
    assert (Happ : ∀ cs1 cs2 s s1,
      performAll cs1 s = Ok s1 →
      performAll (cs1 ++ cs2) s = performAll cs2 s1).
    { induction cs1 as [|c cs1 IH]; intros cs2 s s1; cbn [performAll app].
      - by intros [= <-].
      - destruct (perform c s) as [s'|f]; cbn [andThen]; [|done]. apply IH. }
    rewrite (Happ _ _ e e1).
    2:{ rewrite (stepDown_descends _ e p Hp).
        - subst e1. unfold d.
          by replace (Piece.y p + Z.of_nat (Z.to_nat (y' - Piece.y p)))
            with y' by lia.
        - intros k Hk. apply Hway. lia. }
    cbn [replicate performAll perform]. unfold stepDown.
    change (currentPiece e1) with (Some (with_y y' p)). cbn match.
    change (canPlace _ _ _ _)
      with (canPlace (board e) (Piece.matrix p) (Piece.x p) (y' + 1)).
    rewrite Hend. cbn [andThen]. rewrite Htail. done. }
  split; [|done].
  unfold hardDrop. rewrite Hp, Hloop. cbn [andThen]. fold e1.
  cbv zeta. rewrite !Z.add_0_l.
  destruct (d >? 0) eqn:Ed.
  - change (with_score (score e1 + d * 2) e1) with (addScore (d * 2) e1).
    rewrite lock_clear_spawn_addScore, Htail. cbn [onOk].
    do 2 f_equal. lia.
  - rewrite Htail. f_equal.
    assert (Hd : d = 0).
    { rewrite Z.gtb_ltb in Ed. apply Z.ltb_ge in Ed. unfold d in *. lia. }
    rewrite Hd. unfold addScore, with_score. destruct e''. cbn. f_equal. lia.
Qed.

Lemma hardDrop_as_steps_witness :
  ∃ y' e' e'',
    landing (board sampleDropping)
            (Piece.Build Tetromino.I verticalI 0 0) 0 y' ∧
    hardDrop sampleDropping = Ok e' ∧
    performAll (replicate (S (Z.to_nat (y' - 0))) (CallStepDown false))
               sampleDropping = Ok e'' ∧
    e' = addScore (2 * (y' - 0)) e''.
Proof.
  apply (hardDrop_as_steps sampleDropping
           (Piece.Build Tetromino.I verticalI 0 0)).
  - split; [reflexivity|]. apply Forall_replicate. reflexivity.
  - reflexivity.
  - exists 0%nat, 0%nat, [1], 1.
    split; [reflexivity|]. split; [reflexivity|discriminate].
Defined.

(** ** When a spawn ends the game *)

(** The filled cells of a candidate are in its first two rows and inside
    the columns of the board. *)
Lemma candidate_x t :
  Piece.x (candidate t) = match t with Tetromino.O => 4 | _ => 3 end.
Proof. by destruct t. Qed.

Lemma candidate_bounds t i j :
  filled (getMatrixForType t) i j →
  (i < 2)%nat ∧ 0 ≤ Piece.x (candidate t) + Z.of_nat j < BOARD_WIDTH.
Proof.
  intros (cs & v & Hi & Hj & Hne). rewrite candidate_x.
  destruct t; cbn in Hi;
    (destruct i as [|[|i]]; cbn in Hi; simplify_eq);
    (destruct j as [|[|[|[|j]]]]; cbn in Hj; simplify_eq);
    unfold BOARD_WIDTH; split; lia.
Qed.

Lemma filled_entry m i j : filled m i j ↔ entry m i j ≠ 0.
Proof.
  unfold filled, entry. split.
  - intros (cs & v & -> & Hj & Hne). simpl. by rewrite Hj.
  - intros Hne. destruct (m !! i) as [cs|]; [|done]. simpl in Hne.
    destruct (cs !! j) as [v|] eqn:Ej; [|done]. simpl in Hne. eauto.
Qed.

(** X14.  A spawn ends the game exactly when the top row is taken under
    the candidate.  The candidate enters at [y = -1], so only the second row
    of its matrix is inside the board, on row 0: [spawnNextPiece] sets
    [gameOver] iff some filled cell of that second row lies over an occupied
    cell of row 0.  The I-piece, a single row, always spawns. *)
Theorem spawn_over_iff_top_blocked (e : TetrisEngine) :
  hasRows (board e) → gameOver e = false →
  ∃ bag t rest e',
    queue e ++ bag = t :: rest ∧
    spawnNextPiece e = Ok e' ∧
    (gameOver e' = true ↔
     ∃ j k, entry (getMatrixForType t) 1 j ≠ 0 ∧
            cellAt (board e) 0 (Z.to_nat (Piece.x (candidate t) + Z.of_nat j))
            = Some (Some k)) ∧
    (gameOver e' = false ↔ currentPiece e' = Some (candidate t)) ∧
    (t = Tetromino.I → gameOver e' = false).
Proof.
  intros Hb Hov.
  destruct (spawnNextPiece_spec e Hb)
    as (bag & g & t & rest & Hq & _ & _ & Hspawn).
  pose proof (canPlace_rows_spec (board e) (Piece.x (candidate t)) (-1)
                (getMatrixForType t) Hb 0%nat) as Hspec.
  cbn [Nat.add] in Hspec. unfold canPlace in Hspawn.
  assert (Hblocked :
    (∃ i j, filled (getMatrixForType t) i j ∧
            rejected (board e) (Piece.x (candidate t)) (-1) i j) ↔
    (∃ j k, entry (getMatrixForType t) 1 j ≠ 0 ∧
            cellAt (board e) 0 (Z.to_nat (Piece.x (candidate t) + Z.of_nat j))
            = Some (Some k))).
  { split.
    - intros (i & j & Hf & Hr).
      destruct (candidate_bounds t i j Hf) as [Hi Hj].
      unfold rejected in Hr. cbv zeta in Hr. unfold BOARD_HEIGHT in Hr.
      destruct Hr as [?|[?|[?|(Hy & _ & brow & k & Hrow & Hcell)]]];
        [lia|lia|lia|].
      assert (i = 1%nat) as -> by lia. exists j, k.
      split; [by apply filled_entry|]. unfold cellAt.
      change (Z.to_nat (-1 + Z.of_nat 1)) with 0%nat in Hrow.
      by rewrite Hrow.
    - intros (j & k & Hne & Hcell). apply filled_entry in Hne.
      destruct (candidate_bounds t 1 j Hne) as [_ Hj].
      exists 1%nat, j. split; [done|]. unfold rejected. cbv zeta.
      right; right; right. unfold BOARD_HEIGHT. split; [lia|]. split; [done|].
      unfold cellAt in Hcell.
      change (Z.to_nat (-1 + Z.of_nat 1)) with 0%nat.
      destruct (board e !! 0%nat) as [brow|]; [|done]. eauto. }
  exists bag, t, rest.
  destruct Hspawn as [[Hfit ->]|[Hfail ->]]; eexists;
    (split; [done|]); (split; [reflexivity|]); cbn.
  - destruct Hspec as [[E _]|[_ Hall]]; [congruence|].
    split; [|split; [done|done]].
    rewrite Hov. split; [done|]. rewrite <- Hblocked.
    intros (i & j & Hf & Hr). by destruct (Hall i j Hf).
  - destruct Hspec as [[_ Hex]|[E _]]; [|congruence].
    split; [split; [intros _; by apply Hblocked|done]|].
    split; [split; done|].
    intros ->. destruct Hex as (i & j & Hf & Hr).
    destruct (candidate_bounds _ i j Hf) as [Hi Hj].
    destruct Hf as (cs & v & Hcs & _).
    destruct i as [|[|i]]; [|done|lia].
    unfold rejected, BOARD_HEIGHT in Hr. cbv zeta in Hr.
    destruct Hr as [?|[?|[?|(? & _)]]]; lia.
Qed.

Lemma spawn_over_iff_top_blocked_witness :
  ∃ bag t rest e',
    queue sampleFullTop ++ bag = t :: rest ∧
    spawnNextPiece sampleFullTop = Ok e' ∧
    (gameOver e' = true ↔
     ∃ j k, entry (getMatrixForType t) 1 j ≠ 0 ∧
            cellAt (board sampleFullTop) 0
                   (Z.to_nat (Piece.x (candidate t) + Z.of_nat j))
            = Some (Some k)) ∧
    (gameOver e' = false ↔ currentPiece e' = Some (candidate t)) ∧
    (t = Tetromino.I → gameOver e' = false).
Proof.
  apply (spawn_over_iff_top_blocked sampleFullTop).
  - unfold hasRows. vm_compute. lia.
  - reflexivity.
Defined.

(** ** The ghost in a session *)



(** The ghost row can be the spawn row, above the board: after eleven hard
    drops the pile reaches the top and the piece just spawned cannot
    descend. *)
Lemma ghost_at_spawn_row :
  ∃ e rs e',
    performAll (replicate 11 (CallHandleAction Action.hardDrop)) sampleStarted
      = Ok e ∧
    gameOver e = false ∧
    getRenderState e = Ok (rs, e') ∧
    Render.ghostY rs = Some (-1).
Proof.
  do 3 eexists. split; [vm_compute; reflexivity|].
  split; [reflexivity|]. split; [vm_compute; reflexivity|]. reflexivity.
Qed.

(** ** What a lock event does, in full *)

(** Lock, clear, spawn: the board is the locked board with its complete
    rows cleared, the counters move by the lines cleared, and the spawn
    changes neither. *)
Lemma lock_clear_spawn_full e p :
  boardOk (board e) → currentPiece e = Some p →
  ∃ b1 e',
    boardOk b1 ∧
    (∀ r c, (r < Z.to_nat BOARD_HEIGHT)%nat → (c < Z.to_nat BOARD_WIDTH)%nat →
       (covers p r c → cellAt b1 r c = Some (Some (Piece.type p))) ∧
       (¬ covers p r c → cellAt b1 r c = cellAt (board e) r c)) ∧
    (let* e := lockCurrentPiece e in
     let* e := clearLines e in
     spawnNextPiece e) = Ok e' ∧
    board e' = cleared b1 ∧
    linesCleared e' = linesCleared e + Z.of_nat (completeRows b1) ∧
    score e' = score e + default 0 (SCORE_TABLE !! completeRows b1)
                         * (linesCleared e' / 10 + 1).
Proof.
  intros Hb Hp.
  destruct (lockCurrentPiece_cells e p Hb Hp) as (b1 & Hb1 & -> & Hcells).
  cbn [andThen].
  match goal with |- context [clearLines ?s] =>
    destruct (clearLines_spec s) as (sc & ln & -> & Hln & Hsc) end.
  { by apply boardOk_hasRows. }
  cbn [andThen]. cbn in Hln, Hsc.
  match goal with |- context [spawnNextPiece ?s] => set (s1 := s) end.
  destruct (spawnNextPiece_spec s1)
    as (bag & g & t & rest & _ & _ & _ & Hspawn).
  { by apply boardOk_hasRows, cleared_ok. }
  exists b1.
  destruct Hspawn as [[_ ->]|[_ ->]]; eexists;
    (split; [done|]); (split; [done|]); (split; [reflexivity|]); cbn;
    by subst.
Qed.

(** X16.  What [hardDrop] does.  On a well-formed board, with a piece that
    has a filled cell, [hardDrop] returns; the piece is written where the
    descent lands it, the complete rows of that board are cleared,
    [linesCleared] grows by their number [n], and the score grows by twice
    the rows travelled plus [SCORE_TABLE[n] * level]. *)
Theorem hardDrop_full (e : TetrisEngine) (p : ActivePiece) :
  boardOk (board e) → currentPiece e = Some p →
  (∃ i j, filled (Piece.matrix p) i j) →
  ∃ y' b1 e',
    landing (board e) p (Piece.y p) y' ∧
    (∀ r c, (r < Z.to_nat BOARD_HEIGHT)%nat → (c < Z.to_nat BOARD_WIDTH)%nat →
       (covers (with_y y' p) r c →
        cellAt b1 r c = Some (Some (Piece.type p))) ∧
       (¬ covers (with_y y' p) r c → cellAt b1 r c = cellAt (board e) r c)) ∧
    hardDrop e = Ok e' ∧
    board e' = cleared b1 ∧
    linesCleared e' = linesCleared e + Z.of_nat (completeRows b1) ∧
    score e' = score e + 2 * (y' - Piece.y p)
               + default 0 (SCORE_TABLE !! completeRows b1)
                 * (linesCleared e' / 10 + 1).
Proof.
  intros Hb Hp Hf. pose proof (boardOk_hasRows _ Hb) as Hrows.
  destruct (hardDrop_loop_spec (board e) (dropFuel p) p 0 Hrows Hf)
    as (y' & Hloop & Hland); [done|].
  pose proof Hland as (Hle & _).
  unfold hardDrop. rewrite Hp, Hloop. cbn [andThen]. cbv zeta.
  rewrite !Z.add_0_l.
  set (e1 := with_currentPiece (Some (with_y y' p)) e).
  set (e2 := if y' - Piece.y p >? 0
             then with_score (score e1 + (y' - Piece.y p) * 2) e1 else e1).
  assert (H2 : board e2 = board e ∧ currentPiece e2 = Some (with_y y' p) ∧
               linesCleared e2 = linesCleared e ∧
               score e2 = score e + 2 * (y' - Piece.y p)).
  { subst e2 e1. destruct (y' - Piece.y p >? 0) eqn:E; cbn.
    - repeat split; try done. lia.
    - rewrite Z.gtb_ltb in E. apply Z.ltb_ge in E. repeat split; try done. lia. }
  destruct H2 as (Hb2 & Hp2 & Hl2 & Hs2).
  destruct (lock_clear_spawn_full e2 (with_y y' p))
    as (b1 & e' & Hb1 & Hcells & Htail & Hboard & Hln & Hsc);
    [by rewrite Hb2|done|].
  exists y', b1, e'. rewrite Hb2 in Hcells. rewrite Hl2 in Hln.
  rewrite Hs2 in Hsc.
  split; [exact Hland|]. split; [exact Hcells|]. split; [exact Htail|]. done.
Qed.

Lemma hardDrop_full_witness :
  ∃ y' b1 e',
    landing (board sampleDropping)
            (Piece.Build Tetromino.I verticalI 0 0) 0 y' ∧
    (∀ r c, (r < Z.to_nat BOARD_HEIGHT)%nat → (c < Z.to_nat BOARD_WIDTH)%nat →
       (covers (with_y y' (Piece.Build Tetromino.I verticalI 0 0)) r c →
        cellAt b1 r c = Some (Some Tetromino.I)) ∧
       (¬ covers (with_y y' (Piece.Build Tetromino.I verticalI 0 0)) r c →
        cellAt b1 r c = cellAt (board sampleDropping) r c)) ∧
    hardDrop sampleDropping = Ok e' ∧
    board e' = cleared b1 ∧
    linesCleared e' = 0 + Z.of_nat (completeRows b1) ∧
    score e' = 0 + 2 * (y' - 0)
               + default 0 (SCORE_TABLE !! completeRows b1)
                 * (linesCleared e' / 10 + 1).
Proof.
  apply (hardDrop_full sampleDropping (Piece.Build Tetromino.I verticalI 0 0)).
  - split; [reflexivity|]. apply Forall_replicate. reflexivity.
  - reflexivity.
  - exists 0%nat, 0%nat, [1], 1.
    split; [reflexivity|]. split; [reflexivity|discriminate].
Defined.

(** X17.  What [stepDown] does.  On a well-formed board, when the row below
    places, the piece moves down one row, a manual step scores one point and
    nothing else changes.  When it does not, the piece is written where it
    sits, the complete rows are cleared and scored, and the score gets no
    step point, manual or not. *)
Theorem stepDown_full (e : TetrisEngine) (p : ActivePiece) (manual : bool) :
  boardOk (board e) → currentPiece e = Some p →
  (canPlace (board e) (Piece.matrix p) (Piece.x p) (Piece.y p + 1) = Ok true ∧
   stepDown manual e =
   Ok {| board := board e; queue := queue e;
         currentPiece := Some (with_y (Piece.y p + 1) p);
         running := running e;
         score := score e + (if manual then 1 else 0);
         linesCleared := linesCleared e; gameOver := gameOver e;
         random := random e |}) ∨
  (canPlace (board e) (Piece.matrix p) (Piece.x p) (Piece.y p + 1) = Ok false ∧
   ∃ b1 e',
     (∀ r c, (r < Z.to_nat BOARD_HEIGHT)%nat → (c < Z.to_nat BOARD_WIDTH)%nat →
        (covers p r c → cellAt b1 r c = Some (Some (Piece.type p))) ∧
        (¬ covers p r c → cellAt b1 r c = cellAt (board e) r c)) ∧
     stepDown manual e = Ok e' ∧
     board e' = cleared b1 ∧
     linesCleared e' = linesCleared e + Z.of_nat (completeRows b1) ∧
     score e' = score e + default 0 (SCORE_TABLE !! completeRows b1)
                          * (linesCleared e' / 10 + 1)).
Proof.
  intros Hb Hp. unfold stepDown. rewrite Hp.
  destruct (canPlace_returns (board e) (Piece.matrix p) (Piece.x p)
              (Piece.y p + 1)) as [E|E]; [by apply boardOk_hasRows|..];
    rewrite E; cbn [andThen].
  - left. split; [done|]. destruct manual; cbn.
    + reflexivity.
    + unfold with_currentPiece. do 2 f_equal. lia.
  - right. split; [done|].
    destruct (lock_clear_spawn_full e p Hb Hp)
      as (b1 & e' & _ & Hcells & Htail & Hrest).
    by exists b1, e'.
Qed.

Lemma stepDown_full_witness :
  (canPlace (board sampleDropping) verticalI 0 (0 + 1) = Ok true ∧
   stepDown true sampleDropping =
   Ok {| board := board sampleDropping; queue := queue sampleDropping;
         currentPiece := Some (Piece.Build Tetromino.I verticalI 0 (0 + 1));
         running := true; score := 0 + 1; linesCleared := 0;
         gameOver := false; random := sampleRandom |}) ∨
  (canPlace (board sampleDropping) verticalI 0 (0 + 1) = Ok false ∧
   ∃ b1 e',
     (∀ r c, (r < Z.to_nat BOARD_HEIGHT)%nat → (c < Z.to_nat BOARD_WIDTH)%nat →
        (covers (Piece.Build Tetromino.I verticalI 0 0) r c →
         cellAt b1 r c = Some (Some Tetromino.I)) ∧
        (¬ covers (Piece.Build Tetromino.I verticalI 0 0) r c →
         cellAt b1 r c = cellAt (board sampleDropping) r c)) ∧
     stepDown true sampleDropping = Ok e' ∧
     board e' = cleared b1 ∧
     linesCleared e' = 0 + Z.of_nat (completeRows b1) ∧
     score e' = 0 + default 0 (SCORE_TABLE !! completeRows b1)
                    * (linesCleared e' / 10 + 1)).
Proof.
  apply (stepDown_full sampleDropping
           (Piece.Build Tetromino.I verticalI 0 0) true).
  - split; [reflexivity|]. apply Forall_replicate. reflexivity.
  - reflexivity.
Defined.

(** ** The next-piece preview *)

Lemma clear_all_preview (cells : list PreviewCell) :
  clearPreviewCell <$> cells
  = replicate (length cells) {| classFilled := false; previewColor := None |}.
Proof.
  induction cells as [|cell cells IH]; [done|].
  rewrite fmap_cons, IH. reflexivity.
Qed.

(** X18.  The preview shows the whole next piece and nothing else.  On the
    sixteen preview cells, whatever they showed before, [updateNextPreview]
    marks with the kind's colour the cell [(offsetY + i) * 4 + (offsetX + j)]
    of every filled cell [(i, j)] of the kind's shape: none falls outside
    the sixteen cells, exactly four cells are marked, and every other cell
    is cleared. *)
Theorem preview_shows_whole_piece (t : TetrominoType)
    (cells : list PreviewCell) :
  length cells = 16%nat →
  ∃ cells',
    updateNextPreview t cells = Ok cells' ∧
    length cells' = 16%nat ∧
    (∀ i j, filled (getMatrixForType t) i j →
       cells' !! Z.to_nat ((previewOffsetY t + Z.of_nat i) * 4
                           + (previewOffsetX t + Z.of_nat j))
       = Some {| classFilled := true;
                 previewColor := Some (getPreviewColor t) |}) ∧
    length (List.filter classFilled cells') = 4%nat ∧
    (∀ k cell, cells' !! k = Some cell → classFilled cell = false →
               cell = {| classFilled := false; previewColor := None |}).
Proof.
  intros Hlen.
  assert (Hc : clearPreviewCell <$> cells
               = replicate 16 {| classFilled := false; previewColor := None |})
    by (by rewrite clear_all_preview, Hlen).
  destruct t;
    (eexists; split;
     [unfold updateNextPreview; rewrite Hc; vm_compute; reflexivity|]);
    (split; [reflexivity|]); (split; [|split; [reflexivity|]]).
  all: try (intros i j (cs & v & Hi & Hj & Hne);
            cbn in Hi;
            (destruct i as [|[|i]]; cbn in Hi; simplify_eq);
            (destruct j as [|[|[|[|j]]]]; cbn in Hj; simplify_eq);
            reflexivity).
  all: intros k cell Hk Hcell;
    do 16 (destruct k as [|k]; [cbn in Hk; by simplify_eq|]);
    by cbn in Hk.
Qed.

Lemma preview_shows_whole_piece_witness :
  ∃ cells',
    updateNextPreview Tetromino.T
      (replicate 16 {| classFilled := true; previewColor := Some "#fef08a"%string |})
    = Ok cells' ∧
    length cells' = 16%nat ∧
    (∀ i j, filled (getMatrixForType Tetromino.T) i j →
       cells' !! Z.to_nat ((previewOffsetY Tetromino.T + Z.of_nat i) * 4
                           + (previewOffsetX Tetromino.T + Z.of_nat j))
       = Some {| classFilled := true;
                 previewColor := Some (getPreviewColor Tetromino.T) |}) ∧
    length (List.filter classFilled cells') = 4%nat ∧
    (∀ k cell, cells' !! k = Some cell → classFilled cell = false →
               cell = {| classFilled := false; previewColor := None |}).
Proof.
  apply (preview_shows_whole_piece Tetromino.T). reflexivity.
Defined.

(** ** Pause and resume *)

Lemma ensureQueue_live e e' : ensureQueue e = Ok e' → live e → live e'.
Proof.
  destruct (ensureQueue_spec e) as (bag & g & -> & _). by intros [= <-].
Qed.

Lemma spawnNextPiece_live e e' : spawnNextPiece e = Ok e' → live e → live e'.
Proof.
  unfold spawnNextPiece.
  destruct (ensureQueue_spec e) as (bag & g & -> & _). cbn [andThen queue].
  destruct (queue e ++ bag) as [|t rest]; [by intros [= <-]|].
  destruct (getMatrixForType t) as [|first more]; [done|].
  match goal with |- context [canPlace ?b ?m ?x ?y] =>
    destruct (canPlace b m x y) as [[|]|f] end; cbn [andThen]; [| |done].
  all: by intros [= <-].
Qed.

Lemma lockCurrentPiece_live e e' :
  lockCurrentPiece e = Ok e' → live e → live e'.
Proof.
  unfold lockCurrentPiece. destruct (currentPiece e) as [p|].
  2:{ by intros [= <-]. }
  destruct (lock_rows _ _ _ _ _ _) as [b|f]; cbn [andThen]; [|done].
  by intros [= <-].
Qed.

Lemma clearLines_live e e' : clearLines e = Ok e' → live e → live e'.
Proof.
  unfold clearLines.
  destruct (clearLines_loop _ _ _ _) as [[b n]|f]; cbn [andThen]; [|done].
  destruct (0 <? n)%nat; by intros [= <-].
Qed.

Lemma lock_clear_spawn_live e e' :
  (let* e := lockCurrentPiece e in
   let* e := clearLines e in
   spawnNextPiece e) = Ok e' → live e → live e'.
Proof.
  intros H.
  apply andThen_Ok in H as (e1 & H1 & H).
  apply andThen_Ok in H as (e2 & H2 & H3).
  eauto using lockCurrentPiece_live, clearLines_live, spawnNextPiece_live.
Qed.

Lemma stepDown_live manual e e' :
  stepDown manual e = Ok e' → live e → live e'.
Proof.
  unfold stepDown. destruct (currentPiece e) as [p|].
  2:{ by intros [= <-]. }
  destruct (canPlace _ _ _ _) as [[|]|f]; cbn [andThen]; [| |done].
  - by destruct manual; intros [= <-].
  - apply lock_clear_spawn_live.
Qed.

Lemma hardDrop_live e e' : hardDrop e = Ok e' → live e → live e'.
Proof.
  unfold hardDrop. destruct (currentPiece e) as [p|].
  2:{ by intros [= <-]. }
  destruct (hardDrop_loop _ _ _ _) as [[p' d]|f]; cbn [andThen]; [|done].
  intros H He. apply lock_clear_spawn_live in H; [done|].
  by destruct (d >? 0).
Qed.

Lemma shiftPiece_live deltaX e e' :
  shiftPiece deltaX e = Ok e' → live e → live e'.
Proof.
  unfold shiftPiece. destruct (currentPiece e) as [p|].
  2:{ by intros [= <-]. }
  destruct (canPlace _ _ _ _) as [[|]|f]; cbn [andThen]; [| |done];
    by intros [= <-].
Qed.

Lemma rotatePiece_live e e' : rotatePiece e = Ok e' → live e → live e'.
Proof.
  unfold rotatePiece. destruct (currentPiece e) as [p|].
  2:{ by intros [= <-]. }
  destruct (rotateMatrix _) as [rotated|f]; cbn [andThen]; [|done].
  destruct (rotatePiece_kicks _ _ _ _) as [p'|f]; cbn [andThen]; [|done].
  by intros [= <-].
Qed.

(** Every call but [start] keeps a finished game stopped. *)
Lemma perform_live c e e' :
  isStart c = false → perform c e = Ok e' → live e → live e'.
Proof.
  destruct c; cbn [isStart perform]; try done; intros _.
  - by intros [= <-].
  - intros [= <-] He. unfold resume, live in *.
    destruct (gameOver e) eqn:E; cbn; [by rewrite E|]. by rewrite E.
  - by intros [= <-].
  - intros H. apply andThen_Ok in H as ([rs e1] & H1 & [= <-]).
    apply getRenderState_inv in H1 as (bag & g & -> & _). done.
  - by intros [= <-].
  - unfold handleAction. destruct (negb (isRunning e)); [by intros [= <-]|].
    destruct action; eauto using shiftPiece_live, rotatePiece_live,
      stepDown_live, hardDrop_live.
  - apply stepDown_live.
  - by intros [= <-].
Qed.

Lemma reachable_live e : reachable e → live e.
Proof.
  induction 1 as [e0 e Hs|e c e' Hr IH Hc Hp|e e0 e' Hr IH Hs].
  - destruct (start_fresh_spec e0) as (t & rest & g & _ & E).
    rewrite E in Hs. by injection Hs as <-.
  - by apply (perform_live c e).
  - pose proof (reachable_ok e Hr) as [Hb Hpc Hq Hov _ _].
    rewrite start_snapshot_spec in Hs.
    + injection Hs as <-. unfold live. cbn. by intros ->.
    + intros E. rewrite E in Hq. simpl in Hq. lia.
    + apply Hov.
Qed.

(** X19.  In a session a finished game is never running: [gameOver] and
    [running] are never both set, so [isRunning] is just the [running] flag.
    [resume] undoes [pause] on a running engine, and on a finished game
    [pause] and [resume] both leave the engine as it is. *)
Theorem session_pause_resume (e : TetrisEngine) :
  reachable e →
  (gameOver e = true → running e = false) ∧
  isRunning e = running e ∧
  (running e = true → resume (pause e) = e ∧ isRunning (pause e) = false) ∧
  (gameOver e = true → resume e = e ∧ pause e = e).
Proof.
  intros Hr. pose proof (reachable_live e Hr) as Hl. unfold live in Hl.
  split; [exact Hl|]. unfold isRunning, resume, pause.
  destruct e as [b q cp r sc ln go g]; cbn in *.
  destruct go, r; cbn; try (by specialize (Hl eq_refl)); repeat split; done.
Qed.

Lemma session_pause_resume_witness :
  (gameOver sampleStarted = true → running sampleStarted = false) ∧
  isRunning sampleStarted = running sampleStarted ∧
  (running sampleStarted = true →
   resume (pause sampleStarted) = sampleStarted ∧
   isRunning (pause sampleStarted) = false) ∧
  (gameOver sampleStarted = true →
   resume sampleStarted = sampleStarted ∧ pause sampleStarted = sampleStarted).
Proof.
  apply (session_pause_resume sampleStarted).
  apply (reach_start (newEngine sampleRandom)). vm_compute. reflexivity.
Defined.
